(** * Label parsers of the reconstruction chain: a shallow embedding

    The development follows [mlreco/iotools/parsers.py] (the cluster and
    sparse-tensor parsers) and [analysis/classes/Particle.py] (the
    particle-level record).

    Conventions.
    - Python exceptions are explicit: a function that can raise returns a
      [result].
    - larcv instance ids (particle id, group id) are unsigned: [nat].
      Shapes and PDG codes are signed integers: [Z].
    - A finite floating-point number is the rational it denotes: [Q].
      The parsers only compare and copy floating-point values; NaN and
      the infinities are outside the model.
    - A numpy 1-D array is a [list]; an (N,3) coordinate array is a list
      of triples; an (N,C) float array is the list of its C columns. *)

From Stdlib Require Import String Ascii.
From Stdlib Require Import ZArith QArith Qround List Bool Arith Lia.
From Stdlib Require Import Permutation Sorting.Sorted.
Import ListNotations.

Local Open Scope nat_scope.

(** ** Exceptions *)

Inductive exn : Type :=
| ValueError
| IndexError
| AssertionError.

Inductive result (A : Type) : Type :=
| Ok (a : A)
| Raise (e : exn).

Arguments Ok {A} a.
Arguments Raise {A} e.

Definition bind {A B : Type} (m : result A) (k : A -> result B) : result B :=
  match m with
  | Ok a => k a
  | Raise e => Raise e
  end.

Notation "x <- m ;; k" := (bind m (fun x => k))
  (at level 61, m at next level, right associativity).
Notation "' p <- m ;; k" := (bind m (fun p => k))
  (at level 61, p pattern, m at next level, right associativity).

Fixpoint mapM {A B : Type} (f : A -> result B) (l : list A) : result (list B) :=
  match l with
  | [] => Ok []
  | a :: r => b <- f a ;; bs <- mapM f r ;; Ok (b :: bs)
  end.

(** [v[i]] on a [std::vector] exposed to Python, and [a[i]] on an array:
    out of range raises [IndexError]. *)
Definition getitem {A : Type} (v : list A) (i : nat) : result A :=
  match nth_error v i with
  | Some a => Ok a
  | None => Raise IndexError
  end.

(** ** Floating-point comparisons *)

Definition Qltb (a b : Q) : bool := negb (Qle_bool b a).

(** ** Python's [needle in haystack] on strings *)

Fixpoint str_in (needle hay : string) : bool :=
  if String.prefix needle hay then true
  else match hay with
       | EmptyString => false
       | String _ rest => str_in needle rest
       end.

(** ** The numpy operations the group loop uses *)

Module Np.

(** Insertion in a strictly increasing list; [unique] of a 1-D integer
    array is the sorted list of its distinct values. *)
Fixpoint insert_unique (x : nat) (l : list nat) : list nat :=
  match l with
  | [] => [x]
  | y :: r =>
      if x <? y then x :: y :: r
      else if x =? y then y :: r
      else y :: insert_unique x r
  end.

Definition unique (a : list nat) : list nat :=
  fold_right insert_unique [] a.

(** [np.where(a == g)[0]]: the increasing list of the positions holding [g]. *)
Fixpoint where_eq_from (i : nat) (a : list nat) (g : nat) : list nat :=
  match a with
  | [] => []
  | x :: r =>
      if x =? g then i :: where_eq_from (S i) r g
      else where_eq_from (S i) r g
  end.

Definition where_eq (a : list nat) (g : nat) : list nat := where_eq_from 0 a g.

(** [a[i] = v] for one position. *)
Fixpoint set_at (a : list nat) (i : nat) (v : nat) : list nat :=
  match a, i with
  | [], _ => []
  | _ :: r, O => v :: r
  | x :: r, S j => x :: set_at r j v
  end.

(** [a[idxs] = v]: in-place assignment through an index array. *)
Definition put (a : list nat) (idxs : list nat) (v : nat) : list nat :=
  fold_left (fun acc i => set_at acc i v) idxs a.

(** [np.argmin]: the position of the first occurrence of the minimum;
    [ValueError] on an empty array. *)
Fixpoint argmin_from (best_i : nat) (best : Q) (i : nat) (l : list Q) : nat :=
  match l with
  | [] => best_i
  | x :: r =>
      if Qltb x best then argmin_from i x (S i) r
      else argmin_from best_i best (S i) r
  end.

Definition argmin (l : list Q) : result nat :=
  match l with
  | [] => Raise ValueError
  | x :: r => Ok (argmin_from 0 x 1 r)
  end.

(** [np.argmax]: the position of the first occurrence of the maximum. *)
Fixpoint argmax_from (best_i : nat) (best : Q) (i : nat) (l : list Q) : nat :=
  match l with
  | [] => best_i
  | x :: r =>
      if Qltb best x then argmax_from i x (S i) r
      else argmax_from best_i best (S i) r
  end.

Definition argmax (l : list Q) : result nat :=
  match l with
  | [] => Raise ValueError
  | x :: r => Ok (argmax_from 0 x 1 r)
  end.

(** [np.concatenate(arrays, axis=0)]: [ValueError] ("need at least one
    array to concatenate") on an empty list of arrays. *)
Definition concatenate {A : Type} (arrays : list (list A)) : result (list A) :=
  match arrays with
  | [] => Raise ValueError
  | _ => Ok (concat arrays)
  end.

End Np.

(** ** larcv records, as the parsers read them *)

(** A voxel of a cluster or of a sparse tensor, as [as_flat_arrays],
    [fill_3d_voxels] and [fill_3d_pcloud] expose it. *)
Definition coord : Type := (Z * Z * Z)%type.

Record voxel : Type := mkVoxel {
  vcoord : coord;
  vvalue : Q
}.

(** [larcv::Particle]: the accessors [parse_cluster3d_full] calls. *)
Record particle : Type := mkParticle {
  id : nat;
  group_id : nat;
  shape : Z;
  creation_process : string;
  parent_pdg_code : Z;
  first_step_t : Q
}.

(** [larcv::EventClusterVoxel3D.as_vector()]: one voxel set per cluster. *)
Definition cluster_event : Type := list (list voxel).

(** ** [parse_cluster3d_full]: the group-id loop *)

Record loop_state : Type := mkState {
  group_ids : list nat;
  new_group : nat
}.

(** [group_ids[idxs] = new_group; new_group += 1] *)
Definition demote (st : loop_state) (idxs : list nat) : loop_state :=
  {| group_ids := Np.put (group_ids st) idxs (new_group st);
     new_group := new_group st + 1 |}.

(** One iteration of [for i, gid in enumerate(np.unique(group_ids))];
    [Ok] is the state reached at the end of the iteration or at its
    [continue]. *)
Definition group_step (clusters : cluster_event) (particles_v : list particle)
    (st : loop_state) (gid : nat) : result loop_state :=
  p <- getitem particles_v gid ;;
  if negb (shape p =? 0)%Z && negb (shape p =? 4)%Z then Ok st
  else
    let process := creation_process p in
    let parent_pdg_code := Z.abs (parent_pdg_code p) in
    let idxs := Np.where_eq (group_ids st) gid in
    if str_in "Inelastic"%string process || str_in "Capture"%string process
       || (parent_pdg_code =? 13)%Z
    then Ok (demote st idxs)
    else
      c <- getitem clusters gid ;;
      let parent_size := length c in
      if parent_size =? 0 then
        let idxs := Np.where_eq (group_ids st) gid in
        Ok (demote st idxs)
      else
        let idxs := Np.where_eq (group_ids st) gid in
        clust_times <-
          mapM (fun j => q <- getitem particles_v j ;; Ok (first_step_t q)) idxs ;;
        min_id <- Np.argmin clust_times ;;
        e <- getitem idxs min_id ;;
        if negb (e =? gid) then Ok (demote st idxs)
        else Ok st.

Fixpoint group_loop (clusters : cluster_event) (particles_v : list particle)
    (gids : list nat) (st : loop_state) : result loop_state :=
  match gids with
  | [] => Ok st
  | gid :: rest =>
      st' <- group_step clusters particles_v st gid ;;
      group_loop clusters particles_v rest st'
  end.

(** Lines 376-407: the array [group_ids] after the loop. *)
Definition resolve_group_ids (clusters : cluster_event)
    (particles_v : list particle) : result (list nat) :=
  let group_ids0 := map group_id particles_v in
  let num_clusters := length clusters in
  st <- group_loop clusters particles_v (Np.unique group_ids0)
          {| group_ids := group_ids0; new_group := num_clusters + 1 |} ;;
  Ok (group_ids st).

(** ** Floating-point feature arrays

    An (N,C) float array is kept as its C columns, each of length N, so
    that column reads and writes ([a[:, k]]) and the number of columns of
    an array without rows are what they are in numpy. *)

Definition farray : Type := list (list Q).

Definition Qnat (n : nat) : Q := inject_Z (Z.of_nat n).

(** Number of rows of an array given by its columns. *)
Definition nrows (a : farray) : nat :=
  match a with
  | [] => 0
  | c :: _ => length c
  end.

(** [np.concatenate(arrays, axis=0)] on arrays given by columns: the
    arrays must agree on the number of columns; none at all is a
    [ValueError]. *)
Fixpoint append_rows (a b : farray) : result farray :=
  match a, b with
  | [], [] => Ok []
  | ca :: ra, cb :: rb => r <- append_rows ra rb ;; Ok ((ca ++ cb) :: r)
  | _, _ => Raise ValueError
  end.

Fixpoint concatenate_rows_from (acc : farray) (arrays : list farray) : result farray :=
  match arrays with
  | [] => Ok acc
  | b :: rest => acc' <- append_rows acc b ;; concatenate_rows_from acc' rest
  end.

Definition concatenate_rows (arrays : list farray) : result farray :=
  match arrays with
  | [] => Raise ValueError
  | a :: rest => concatenate_rows_from a rest
  end.

(** [np.concatenate(arrays, axis=1)] (also [axis=-1] on 2-D arrays): the
    arrays must agree on the number of rows. *)
Fixpoint concatenate_cols_from (acc : farray) (arrays : list farray) : result farray :=
  match arrays with
  | [] => Ok acc
  | b :: rest =>
      if nrows acc =? nrows b then concatenate_cols_from (acc ++ b) rest
      else Raise ValueError
  end.

Definition concatenate_cols (arrays : list farray) : result farray :=
  match arrays with
  | [] => Raise ValueError
  | a :: rest => concatenate_cols_from a rest
  end.

(** [a[:, k] = col]: the right-hand side must have one entry per row, or
    a single entry, which numpy broadcasts. *)
Fixpoint replace_nth {A : Type} (l : list A) (k : nat) (x : A) : list A :=
  match l, k with
  | [], _ => []
  | _ :: r, O => x :: r
  | y :: r, S j => y :: replace_nth r j x
  end.

Definition broadcast_to (n : nat) (col : list Q) : result (list Q) :=
  if length col =? n then Ok col
  else match col with
       | [v] => Ok (repeat v n)
       | _ => Raise ValueError
       end.

Definition set_column (a : farray) (k : nat) (col : list Q) : result farray :=
  if k <? length a then
    c <- broadcast_to (nrows a) col ;; Ok (replace_nth a k c)
  else Raise IndexError.

(** ** [parse_cluster3d_full]: lines 494-515 *)

(** One iteration of [for i in range(num_clusters)]. *)
Definition fill_step (clusters : cluster_event) (particles_v : list particle)
    (group_ids : list nat) (acc : list (list coord) * list farray) (i : nat)
    : result (list (list coord) * list farray) :=
  let '(clusters_voxels, clusters_features) := acc in
  cluster <- getitem clusters i ;;
  let num_points := length cluster in
  if 0 <? num_points then
    let xyz := map vcoord cluster in
    let value := map vvalue cluster in
    p <- getitem particles_v i ;;
    if negb (i =? id p) then Raise AssertionError
    else
      let cluster_id := repeat (Qnat (id p)) num_points in
      g <- getitem group_ids i ;;
      let group_id := repeat (Qnat g) num_points in
      let sem_type := repeat (inject_Z (shape p)) num_points in
      Ok (clusters_voxels ++ [xyz],
          clusters_features ++ [[value; cluster_id; group_id; sem_type]])
  else Ok acc.

Fixpoint foldM {A B : Type} (f : A -> B -> result A) (l : list B) (a : A) : result A :=
  match l with
  | [] => Ok a
  | b :: r => a' <- f a b ;; foldM f r a'
  end.

(** [data = [cluster_event, particle_event]] *)
Definition parse_cluster3d_full (data : cluster_event * list particle)
    : result (list coord * farray) :=
  let '(cluster_event, particles_v) := data in
  let num_clusters := length cluster_event in
  group_ids <- resolve_group_ids cluster_event particles_v ;;
  '(clusters_voxels, clusters_features) <-
     foldM (fill_step cluster_event particles_v group_ids)
           (seq 0 num_clusters) ([], []) ;;
  np_voxels <- Np.concatenate clusters_voxels ;;
  np_features <- concatenate_rows clusters_features ;;
  Ok (np_voxels, np_features).

(** ** Sorting and indexing, as numpy does it *)

Section StableSort.
Context {A : Type} (leb : A -> A -> bool).

(** Insertion before the first element that is not smaller: elements
    with equal keys keep their order, as in numpy's stable sorts. *)
Fixpoint insert_sorted (x : A) (l : list A) : list A :=
  match l with
  | [] => [x]
  | y :: r => if leb x y then x :: y :: r else y :: insert_sorted x r
  end.

Definition stable_sort (l : list A) : list A := fold_right insert_sorted [] l.
End StableSort.

Definition enumerate {A : Type} (l : list A) : list (nat * A) :=
  combine (seq 0 (length l)) l.

(** The index array that sorts [a] stably by [leb]. *)
Definition argsort {A : Type} (leb : A -> A -> bool) (a : list A) : list nat :=
  map fst (stable_sort (fun p q => leb (snd p) (snd q)) (enumerate a)).

(** [np.lexsort(voxels.T)]: the keys are the columns x, y, z and the last
    key is the primary one, so rows are ordered by z, then y, then x. *)
Definition lexsort_leb (a b : coord) : bool :=
  let '(ax, ay, az) := a in
  let '(bx, by_, bz) := b in
  ((az <? bz) || ((az =? bz) && ((ay <? by_) || ((ay =? by_) && (ax <=? bx)))))%Z.

Definition lexsort_T (voxels : list coord) : list nat := argsort lexsort_leb voxels.

(** Row order of [np.unique(..., axis=0)]: by x, then y, then z. *)
Definition row_leb (a b : coord) : bool :=
  let '(ax, ay, az) := a in
  let '(bx, by_, bz) := b in
  ((ax <? bx) || ((ax =? bx) && ((ay <? by_) || ((ay =? by_) && (az <=? bz)))))%Z.

Definition coord_eqb (a b : coord) : bool :=
  let '(ax, ay, az) := a in
  let '(bx, by_, bz) := b in
  ((ax =? bx) && (ay =? by_) && (az =? bz))%Z.

(** [a[idxs]] with an integer index array. *)
Definition take {A : Type} (a : list A) (idxs : list nat) : result (list A) :=
  mapM (getitem a) idxs.

(** [a[idxs]] on every column of a 2-D array ([a[idxs]], [a[idxs, :]]). *)
Definition take_rows (a : farray) (idxs : list nat) : result farray :=
  mapM (fun c => take c idxs) a.

(** [a[mask]] with a boolean mask: the mask must have the length of [a]. *)
Fixpoint bool_index {A : Type} (a : list A) (mask : list bool) : result (list A) :=
  match a, mask with
  | [], [] => Ok []
  | x :: r, b :: m =>
      rest <- bool_index r m ;; Ok (if b then x :: rest else rest)
  | _, _ => Raise IndexError
  end.

(** [np.where(mask)[0]] *)
Fixpoint where_true_from (i : nat) (mask : list bool) : list nat :=
  match mask with
  | [] => []
  | b :: m => if b then i :: where_true_from (S i) m else where_true_from (S i) m
  end.

Definition where_true (mask : list bool) : list nat := where_true_from 0 mask.

(** [mask[0] = True; mask[i] = (aux[i] != aux[i-1])] *)
Fixpoint run_starts (prev : option coord) (aux : list coord) : list bool :=
  match aux with
  | [] => []
  | c :: r =>
      match prev with
      | None => true
      | Some p => negb (coord_eqb p c)
      end :: run_starts (Some c) r
  end.

(** [np.unique(a, axis=0, return_index=True)]: a stable argsort of the
    rows, then the first row of every run of equal rows, with its
    position in [a]. *)
Definition unique_rows (a : list coord) : result (list coord * list nat) :=
  let perm := argsort row_leb a in
  aux <- take a perm ;;
  let mask := run_starts None aux in
  u <- bool_index aux mask ;;
  idx <- bool_index perm mask ;;
  Ok (u, idx).

(** ** Sparse tensors *)

(** [larcv::EventSparseTensor3D]: its meta (compared with [==] only) and
    its voxels. *)
Record sparse_tensor : Type := mkTensor {
  meta : nat;
  as_vector : list voxel
}.

(** [assert meta == event_tensor3d.meta()] for the tensors after the first. *)
Fixpoint scn_loop (meta0 : nat) (data : list sparse_tensor) (output : list farray)
    : result (list farray) :=
  match data with
  | [] => Ok output
  | event_tensor3d :: rest =>
      if meta0 =? meta event_tensor3d then
        scn_loop meta0 rest (output ++ [[map vvalue (as_vector event_tensor3d)]])
      else Raise AssertionError
  end.

(** The first tensor sets [meta] and [np_voxels]; every tensor contributes
    one (N,1) block of values. *)
Definition parse_sparse3d_scn (data : list sparse_tensor) : result (list coord * farray) :=
  match data with
  | [] => Raise ValueError
  | t0 :: rest =>
      let np_voxels := map vcoord (as_vector t0) in
      output <- scn_loop (meta t0) rest [[map vvalue (as_vector t0)]] ;;
      np_data <- concatenate_cols output ;;
      Ok (np_voxels, np_data)
  end.

(** [a.squeeze(1)] on an (N,C) array: C must be 1. *)
Definition squeeze1 (a : farray) : result (list Q) :=
  match a with
  | [c] => Ok c
  | _ => Raise ValueError
  end.

Definition parse_sparse3d_fragment (data : list sparse_tensor)
    : result (list coord * farray) :=
  '(img_voxels, img_data) <- parse_sparse3d_scn data ;;
  let perm := lexsort_T img_voxels in
  img_voxels <- take img_voxels perm ;;
  img_data <- take_rows img_data perm ;;
  '(img_voxels, unique_indices) <- unique_rows img_voxels ;;
  img_data <- take_rows img_data unique_indices ;;
  sq <- squeeze1 img_data ;;
  let mask := map (fun v => Qltb v 4) sq in
  img_voxels <- bool_index img_voxels mask ;;
  img_data <- mapM (fun c => bool_index c mask) img_data ;;
  let perm := lexsort_T img_voxels in
  img_voxels <- take img_voxels perm ;;
  img_data <- take_rows img_data perm ;;
  Ok (img_voxels, img_data).

(** ** [parse_cluster3d_clean_full] *)

(** Modelled from the spec: [filter_duplicate_voxels] lives in
    [mlreco.utils.groups], which is not among the sources.  Section 4.1:
    when several rows share a coordinate, exactly one is kept, the first
    occurrence after the sort.  The result is the boolean selection that
    the parser passes to [np.where]. *)
Fixpoint first_occurrences (seen : list coord) (voxels : list coord) : list bool :=
  match voxels with
  | [] => []
  | c :: r => negb (existsb (coord_eqb c) seen) :: first_occurrences (c :: seen) r
  end.

Definition filter_duplicate_voxels (voxels : list coord) : list bool :=
  first_occurrences [] voxels.

(** Modelled from the spec: [filter_nonimg_voxels] lives in
    [mlreco.utils.groups], which is not among the sources.  Section 4.1,
    cross-filtering: the candidate rows whose coordinate is present in the
    reference set. *)
Definition filter_nonimg_voxels (voxels reference : list coord) : list bool :=
  map (fun c => existsb (coord_eqb c) reference) voxels.

(** [a[:, -1]] *)
Definition last_column (a : farray) : result (list Q) :=
  match a with
  | [] => Raise IndexError
  | _ => getitem a (length a - 1)
  end.

(** [data = [cluster_event, particle_event, sparse_tensor]] *)
Definition parse_cluster3d_clean_full
    (data : cluster_event * list particle * sparse_tensor)
    : result (list coord * farray) :=
  let '(cluster_event, particles_v, image) := data in
  '(grp_voxels, grp_data) <- parse_cluster3d_full (cluster_event, particles_v) ;;
  '(img_voxels, img_data) <- parse_sparse3d_scn [image] ;;
  (* step 1: lexicographically sort group data *)
  let perm := lexsort_T grp_voxels in
  grp_voxels <- take grp_voxels perm ;;
  grp_data <- take_rows grp_data perm ;;
  let perm := lexsort_T img_voxels in
  img_voxels <- take img_voxels perm ;;
  img_data <- take_rows img_data perm ;;
  (* step 2: remove duplicates *)
  let sel1 := filter_duplicate_voxels grp_voxels in
  let inds1 := where_true sel1 in
  grp_voxels <- take grp_voxels inds1 ;;
  grp_data <- take_rows grp_data inds1 ;;
  (* step 3: remove voxels not in image *)
  let sel2 := filter_nonimg_voxels grp_voxels img_voxels in
  let inds2 := where_true sel2 in
  grp_voxels <- take grp_voxels inds2 ;;
  grp_data <- take_rows grp_data inds2 ;;
  (* step 4: override semantic labels with those from sparse3d *)
  sem <- last_column img_data ;;
  grp_data <- set_column grp_data (length grp_data - 1) sem ;;
  Ok (grp_voxels, grp_data).

(** ** [parse_cluster3d_full_extended2] *)

(** [int(x)] on a non-negative float holding an id. *)
Definition nat_of_Q (q : Q) : nat := Z.to_nat (Qfloor q).

(** Modelled from the spec: [get_interaction_id] lives in
    [mlreco.utils.groups], which is not among the sources.  Section 4.4:
    the vertex-sharing judgment is an injected pure function
    [interaction_id_of] from resolved group id to interaction id, applied
    per voxel to the group-id column of the features. *)
Definition get_interaction_id (interaction_id_of : nat -> Z)
    (particles_v : list particle) (np_features : farray) : result (list Q) :=
  groups <- getitem np_features 2 ;;
  Ok (map (fun g => inject_Z (interaction_id_of (nat_of_Q g))) groups).

(** Modelled from the spec: [get_nu_id] lives in [mlreco.utils.groups],
    which is not among the sources.  Section 4.5 with sections 3 and 4.4:
    every resolved group lies in the interaction [interaction_id_of] gives
    it, so the interaction containing resolved group 0 is
    [interaction_id_of 0], provided 0 is the resolved group id of some
    particle of the event.  The flag of a voxel is 1 if its interaction id
    equals that id, else 0; if no particle has resolved group id 0, all
    flags are 0.  [group_ids] is the ResolvedGroupMap of the event, one
    resolved id per particle.  The result is an (N,1) array. *)
Definition get_nu_id (interaction_id_of : nat -> Z) (group_ids : list nat)
    (particles_v : list particle) (np_features : farray)
    (interaction_ids : list Q) : result farray :=
  if existsb (Nat.eqb 0) group_ids
  then
    let nu_interaction_id := inject_Z (interaction_id_of 0) in
    Ok [map (fun x => if Qeq_bool x nu_interaction_id then 1%Q else 0%Q)
            interaction_ids]
  else Ok [map (fun _ => 0%Q) interaction_ids].

(** The source passes [get_nu_id] the particles, the features and the
    interaction ids.  The resolved group ids its contract reads are the
    array [group_ids] that [parse_cluster3d_full] builds for the same
    event; the model computes that array again and hands it over. *)
Definition parse_cluster3d_full_extended2 (interaction_id_of : nat -> Z)
    (data : cluster_event * list particle) : result (list coord * farray) :=
  '(np_voxels, np_features) <- parse_cluster3d_full data ;;
  interaction_ids <- get_interaction_id interaction_id_of (snd data) np_features ;;
  group_ids <- resolve_group_ids (fst data) (snd data) ;;
  nu_ids <- get_nu_id interaction_id_of group_ids (snd data) np_features
              interaction_ids ;;
  c2 <- getitem np_features 2 ;;
  np_features <- set_column np_features 1 c2 ;;
  np_features <- set_column np_features 2 interaction_ids ;;
  np_features <- concatenate_cols [np_features; nu_ids] ;;
  Ok (np_voxels, np_features).

(** ** The particle-level record of [analysis/classes/Particle.py] *)

Module Particle.

(** A Python attribute value: [None], an integer or a float. *)
Inductive pyval : Type :=
| PyNone
| PyInt (z : Z)
| PyFloat (q : Q).

(** The attributes [__init__] and the setters below read or write.
    [None] also stands for an attribute that has not been created yet
    ([_fragment_ids], [_depositions_sum], [pid], [is_primary]). *)
Record t : Type := mk {
  _num_fragments : pyval;
  _size : pyval;
  _index : option (list Z);
  _depositions : option (list Q);
  _pid_scores : option (list Q);
  _primary_scores : option (list Q);
  _fragment_ids : option (list Z);
  _depositions_sum : pyval;
  id : Z;
  interaction_id : Z;
  nu_id : Z;
  image_id : Z;
  volume_id : Z;
  semantic_type : Z;
  pid : pyval;
  is_primary : pyval
}.

Definition with_pid (self : t) (v : pyval) : t :=
  mk (_num_fragments self) (_size self) (_index self) (_depositions self)
     (_pid_scores self) (_primary_scores self) (_fragment_ids self)
     (_depositions_sum self) (id self) (interaction_id self) (nu_id self)
     (image_id self) (volume_id self) (semantic_type self) v (is_primary self).

Definition with_is_primary (self : t) (v : pyval) : t :=
  mk (_num_fragments self) (_size self) (_index self) (_depositions self)
     (_pid_scores self) (_primary_scores self) (_fragment_ids self)
     (_depositions_sum self) (id self) (interaction_id self) (nu_id self)
     (image_id self) (volume_id self) (semantic_type self) (pid self) v.

Definition with_pid_scores (self : t) (s : list Q) : t :=
  mk (_num_fragments self) (_size self) (_index self) (_depositions self)
     (Some s) (_primary_scores self) (_fragment_ids self)
     (_depositions_sum self) (id self) (interaction_id self) (nu_id self)
     (image_id self) (volume_id self) (semantic_type self) (pid self)
     (is_primary self).

Definition with_primary_scores (self : t) (s : list Q) : t :=
  mk (_num_fragments self) (_size self) (_index self) (_depositions self)
     (_pid_scores self) (Some s) (_fragment_ids self)
     (_depositions_sum self) (id self) (interaction_id self) (nu_id self)
     (image_id self) (volume_id self) (semantic_type self) (pid self)
     (is_primary self).

(** [np.sum] of a float array, on the rationals the entries denote.  This
    is the value numpy returns when none of its additions rounds, as for
    the arrays [1.5, 2.0] and [4.0, 1.0] used below; an array on which a
    floating-point addition rounds is outside the model. *)
Definition np_sum (a : list Q) : Q := fold_left Qplus a 0%Q.

(** [@fragment_ids.setter] *)
Definition set_fragment_ids (self : t) (fragment_ids : list Z) : t :=
  mk (PyInt (Z.of_nat (length fragment_ids))) (_size self) (_index self)
     (_depositions self) (_pid_scores self) (_primary_scores self)
     (Some fragment_ids) (_depositions_sum self) (id self)
     (interaction_id self) (nu_id self) (image_id self) (volume_id self)
     (semantic_type self) (pid self) (is_primary self).

(** [@index.setter] *)
Definition set_index (self : t) (index : list Z) : t :=
  mk (_num_fragments self) (PyInt (Z.of_nat (length index))) (Some index)
     (_depositions self) (_pid_scores self) (_primary_scores self)
     (_fragment_ids self) (_depositions_sum self) (id self)
     (interaction_id self) (nu_id self) (image_id self) (volume_id self)
     (semantic_type self) (pid self) (is_primary self).

(** [@depositions.setter] *)
Definition set_depositions (self : t) (depositions : list Q) : t :=
  mk (_num_fragments self) (_size self) (_index self) (Some depositions)
     (_pid_scores self) (_primary_scores self) (_fragment_ids self)
     (PyFloat (np_sum depositions)) (id self) (interaction_id self)
     (nu_id self) (image_id self) (volume_id self) (semantic_type self)
     (pid self) (is_primary self).

(** The [depositions_sum] property: [return self._size]. *)
Definition depositions_sum (self : t) : pyval := _size self.

(** The [size] property. *)
Definition size (self : t) : pyval := _size self.

(** [@pid_scores.setter] *)
Definition set_pid_scores (self : t) (pid_scores : list Q) : result t :=
  s0 <- getitem pid_scores 0 ;;
  let self :=
    if Qltb s0 0 then with_pid (with_pid_scores self pid_scores) (PyInt (-1))
    else self in
  let self := with_pid_scores self pid_scores in
  a <- Np.argmax pid_scores ;;
  Ok (with_pid self (PyInt (Z.of_nat a))).

(** [@primary_scores.setter] *)
Definition set_primary_scores (self : t) (primary_scores : list Q) : result t :=
  s0 <- getitem primary_scores 0 ;;
  let self :=
    if Qltb s0 0
    then with_is_primary (with_primary_scores self primary_scores) (PyInt (-1))
    else self in
  let self := with_primary_scores self primary_scores in
  a <- Np.argmax primary_scores ;;
  Ok (with_is_primary self (PyInt (Z.of_nat a))).

(** [np.all(scores < 0)] *)
Definition all_negative (scores : list Q) : bool :=
  forallb (fun s => Qltb s 0) scores.

(** The arguments of [__init__] that reach the attributes above. *)
Record init_args : Type := mk_args {
  arg_group_id : Z;
  arg_fragment_ids : list Z;
  arg_interaction_id : Z;
  arg_nu_id : Z;
  arg_volume_id : Z;
  arg_image_id : Z;
  arg_semantic_type : Z;
  arg_pid : Z;
  arg_is_primary : Z;
  arg_index : list Z;
  arg_depositions : list Q;
  arg_pid_scores : list Q;
  arg_primary_scores : list Q
}.

(** [__init__], up to the assignment of [is_primary]; the points,
    directions and momenta assigned afterwards are plain attributes. *)
Definition init (a : init_args) : result t :=
  let self :=
    mk PyNone PyNone None None None None None PyNone
       (arg_group_id a) (arg_interaction_id a) (arg_nu_id a)
       (arg_image_id a) (arg_volume_id a) (arg_semantic_type a)
       PyNone PyNone in
  let self := set_fragment_ids self (arg_fragment_ids a) in
  let self := set_index self (arg_index a) in
  let self := set_depositions self (arg_depositions a) in
  self <- set_pid_scores self (arg_pid_scores a) ;;
  let self :=
    if all_negative (arg_pid_scores a) then with_pid self (PyInt (arg_pid a))
    else self in
  self <- set_primary_scores self (arg_primary_scores a) ;;
  let self :=
    if all_negative (arg_primary_scores a)
    then with_is_primary self (PyInt (arg_is_primary a))
    else self in
  Ok self.

End Particle.

(** ** Vocabulary of the statements about the group loop *)

(** Particle [m] carries the declared group id [g]. *)
Definition member (particles_v : list particle) (g m : nat) : Prop :=
  exists p, nth_error particles_v m = Some p /\ group_id p = g.

(** [particles_v[m].first_step().t()] *)
Definition time_of (particles_v : list particle) (m : nat) : Q :=
  match nth_error particles_v m with
  | Some p => first_step_t p
  | None => 0%Q
  end.

(** [e] is the earliest member of the declared group [g]: no member is
    strictly earlier, and every member with a lower id is strictly later. *)
Definition earliest (particles_v : list particle) (g e : nat) : Prop :=
  member particles_v g e /\
  forall m, member particles_v g m ->
    (time_of particles_v e <= time_of particles_v m)%Q /\
    (m < e -> (time_of particles_v e < time_of particles_v m)%Q).

(** The primary is a shower (0) or a low-energy deposit (4). *)
Definition shape_gate (p : particle) : bool :=
  (shape p =? 0)%Z || (shape p =? 4)%Z.

(** The condition of line 387. *)
Definition process_veto (p : particle) : bool :=
  str_in "Inelastic"%string (creation_process p)
  || str_in "Capture"%string (creation_process p)
  || (Z.abs (parent_pdg_code p) =? 13)%Z.

(** The cluster of the primary has no voxel. *)
Definition empty_primary (clusters : cluster_event) (g : nat) : bool :=
  match nth_error clusters g with
  | Some c => length c =? 0
  | None => false
  end.

(** The test of line 404, on the declared group ids. *)
Definition late_primary (particles_v : list particle) (g : nat) : bool :=
  let idxs := Np.where_eq (map group_id particles_v) g in
  match Np.argmin (map (time_of particles_v) idxs) with
  | Ok k => negb (nth k idxs 0 =? g)
  | Raise _ => false
  end.

(** The declared group [g] takes one of the three demoting branches. *)
Definition demoted (clusters : cluster_event) (particles_v : list particle)
    (g : nat) : bool :=
  match nth_error particles_v g with
  | Some p =>
      shape_gate p
      && (process_veto p || empty_primary clusters g || late_primary particles_v g)
  | None => false
  end.

(** The declared group ids whose members were given another id. *)
Definition demoted_groups (declared resolved : list nat) : list nat :=
  Np.unique
    (map fst (filter (fun dr => negb (fst dr =? snd dr)) (combine declared resolved))).

(** The id minted for [g] when the groups in [done] were visited before it. *)
Definition minted (clusters : cluster_event) (particles_v : list particle)
    (done : list nat) (g : nat) : nat :=
  length clusters + 1
  + length (filter (demoted clusters particles_v) (filter (fun y => y <? g) done)).

(** The group-id array once the groups in [done] have been visited. *)
Definition resolved_after (clusters : cluster_event) (particles_v : list particle)
    (done : list nat) (x : nat) : nat :=
  if existsb (Nat.eqb x) done && demoted clusters particles_v x
  then minted clusters particles_v done x
  else x.

(** The loop invariant: after the groups in [done], the array and the
    counter are those of [resolved_after] and of the number of demotions. *)
Definition loop_inv (clusters : cluster_event) (particles_v : list particle)
    (done : list nat) (st : loop_state) : Prop :=
  group_ids st
  = map (resolved_after clusters particles_v done) (map group_id particles_v) /\
  new_group st
  = length clusters + 1 + length (filter (demoted clusters particles_v) done).

(** Every declared group id is the index of a particle and of a cluster
    of the event: the group loop reads [particles_v[gid]] and the cluster
    of the same index (section 3 of the specification: clusters and
    particles are indexed in parallel). *)
Definition well_formed (clusters : cluster_event) (particles_v : list particle) : Prop :=
  Forall (fun p => group_id p < length particles_v /\ group_id p < length clusters)
         particles_v.

(** ** Vocabulary of the statements about arrays *)

(** The array [a], given by its columns, is of shape (n, k). *)
Definition has_shape (n k : nat) (a : farray) : Prop :=
  length a = k /\ Forall (fun c => length c = n) a.

(** The order the rows are in after [np.lexsort(voxels.T)]. *)
Definition lexsort_le (a b : coord) : Prop := lexsort_leb a b = true.

(** The voxels of a tensor compared by their coordinates. *)
Definition by_coord (leb : coord -> coord -> bool) (v w : voxel) : bool :=
  leb (vcoord v) (vcoord w).

(** The elements of a list for which the mask holds [true]. *)
Fixpoint compress {A : Type} (l : list A) (mask : list bool) : list A :=
  match l, mask with
  | x :: r, b :: m => if b then x :: compress r m else compress r m
  | _, _ => []
  end.

(** The rows that [filter_duplicate_voxels] selects. *)
Fixpoint keep_first (seen : list coord) (voxels : list coord) : list coord :=
  match voxels with
  | [] => []
  | c :: r =>
      if existsb (coord_eqb c) seen then keep_first (c :: seen) r
      else c :: keep_first (c :: seen) r
  end.

(** The first voxel of every run of voxels with equal coordinates. *)
Fixpoint run_firsts (prev : option coord) (l : list voxel) : list voxel :=
  match l with
  | [] => []
  | w :: r =>
      match prev with
      | None => w :: run_firsts (Some (vcoord w)) r
      | Some p =>
          if coord_eqb p (vcoord w) then run_firsts (Some (vcoord w)) r
          else w :: run_firsts (Some (vcoord w)) r
      end
  end.

(** The voxel at coordinate [c] that comes first in [l]. *)
Definition first_at (c : coord) (l : list voxel) : option voxel :=
  find (fun w => coord_eqb (vcoord w) c) l.

(** The rows [parse_sparse3d_fragment] returns, as voxels: sort, keep the
    first voxel of every coordinate, drop the values not below 4, sort. *)
Definition fragment_rows (t : sparse_tensor) : list voxel :=
  stable_sort (by_coord lexsort_leb)
    (filter (fun w => Qltb (vvalue w) 4)
       (run_firsts None
          (stable_sort (by_coord row_leb)
             (stable_sort (by_coord lexsort_leb) (as_vector t))))).

Definition coord_eq_dec (a b : coord) : {a = b} + {a <> b}.
Proof. repeat decide equality. Defined.

(** The coordinate [c] is one of the voxels of the image. *)
Definition in_image (image : sparse_tensor) (c : coord) : bool :=
  existsb (coord_eqb c) (map vcoord (as_vector image)).

(** ** Example events *)

Definition one_voxel (x y z : Z) (v : Q) : list voxel := [mkVoxel (x, y, z) v].

(** Three showers declared in group 0; particle 1 is the earliest. *)
Definition shower_event : cluster_event * list particle :=
  ([one_voxel 0 0 0 1; one_voxel 1 0 0 1; one_voxel 2 0 0 1],
   [mkParticle 0 0 0 "primary" 0 5;
    mkParticle 1 0 0 "conv" 22 2;
    mkParticle 2 0 0 "compt" 22 8]).

(** Four tracks and a shower from a muon capture, whose cluster is empty. *)
Definition capture_event : cluster_event * list particle :=
  ([one_voxel 0 0 0 1; one_voxel 1 0 0 1; one_voxel 2 0 0 1; one_voxel 3 0 0 1; []],
   [mkParticle 0 0 1 "primary" 0 0;
    mkParticle 1 1 1 "primary" 0 0;
    mkParticle 2 2 1 "primary" 0 0;
    mkParticle 3 3 1 "primary" 0 0;
    mkParticle 4 4 0 "muMinusCaptureAtRest" 13 3]).

(** Two demoted shower groups (0 and 2) around a kept track (1). *)
Definition two_demoted_event : cluster_event * list particle :=
  ([[]; one_voxel 1 0 0 1; one_voxel 2 0 0 1; one_voxel 3 0 0 1],
   [mkParticle 0 0 0 "primary" 0 0;
    mkParticle 1 1 1 "primary" 0 0;
    mkParticle 2 2 0 "neutronInelastic" 2112 1;
    mkParticle 3 2 0 "compt" 22 2]).

(** Eight particles; particle 7 is a track, alone in group 7, without voxels. *)
Definition track_event : cluster_event * list particle :=
  ([one_voxel 0 0 0 1; []; []; []; []; []; []; []],
   map (fun i => mkParticle i i 1 "primary" 0 0) (seq 0 8)).

(** Two clusters sharing a voxel, and the image of the same two voxels. *)
Definition clean_event : cluster_event * list particle * sparse_tensor :=
  ([one_voxel 0 0 0 1; [mkVoxel (1, 0, 0)%Z 1; mkVoxel (0, 0, 0)%Z 7]; []],
   [mkParticle 0 0 0 "primary" 0 2;
    mkParticle 1 0 0 "conv" 22 5;
    mkParticle 2 2 0 "primary" 0 8],
   mkTensor 0 [mkVoxel (1, 0, 0)%Z 3; mkVoxel (0, 0, 0)%Z 4]).

(** Six voxels on four coordinates, two of them hit twice. *)
Definition duplicate_tensor : sparse_tensor :=
  mkTensor 0 [mkVoxel (1, 0, 0)%Z 1; mkVoxel (0, 0, 1)%Z 5;
              mkVoxel (0, 1, 0)%Z 2; mkVoxel (1, 0, 0)%Z 3;
              mkVoxel (0, 0, 0)%Z 0; mkVoxel (0, 0, 1)%Z 1].

(** Two interactions: groups 0 and 1 in interaction 0, group 2 in 1. *)
Definition nu_event : cluster_event * list particle :=
  ([one_voxel 0 0 0 1; one_voxel 1 0 0 1; one_voxel 2 0 0 1],
   [mkParticle 0 0 1 "primary" 0 0;
    mkParticle 1 1 1 "primary" 0 0;
    mkParticle 2 2 1 "primary" 0 0]).

Definition blank_particle : Particle.t :=
  Particle.mk Particle.PyNone Particle.PyNone None None None None None
    Particle.PyNone 0 0 0 0 0 0 Particle.PyNone Particle.PyNone.

Definition default_args : Particle.init_args :=
  Particle.mk_args (-1) [] (-1) (-1) (-1) (-1) (-1) (-1) (-1) [] []
    [-1; -1; -1; -1; -1]%Q [-1; -1]%Q.

(** ** [parse_cluster3d] *)

(** One iteration of [for i in range(num_clusters)] of [parse_cluster3d]. *)
Definition cluster_step (clusters : cluster_event)
    (acc : list (list coord) * list farray) (i : nat)
    : result (list (list coord) * list farray) :=
  let '(clusters_voxels, clusters_features) := acc in
  cluster <- getitem clusters i ;;
  let num_points := length cluster in
  if 0 <? num_points then
    let xyz := map vcoord cluster in
    let value := map vvalue cluster in
    let cluster_id := repeat (Qnat i) num_points in
    Ok (clusters_voxels ++ [xyz], clusters_features ++ [[value; cluster_id]])
  else Ok acc.

(** [data] is a Python list whose first element is the cluster event. *)
Definition parse_cluster3d (data : list cluster_event) : result (list coord * farray) :=
  cluster_event <- getitem data 0 ;;
  let num_clusters := length cluster_event in
  '(clusters_voxels, clusters_features) <-
     foldM (cluster_step cluster_event) (seq 0 num_clusters) ([], []) ;;
  np_voxels <- Np.concatenate clusters_voxels ;;
  np_features <- concatenate_rows clusters_features ;;
  Ok (np_voxels, np_features).

(** ** [parse_sparse3d] *)

(** An (N,3) integer coordinate array inside a float array: its three
    columns. *)
Definition coord_columns (voxels : list coord) : farray :=
  [map (fun c => inject_Z (fst (fst c))) voxels;
   map (fun c => inject_Z (snd (fst c))) voxels;
   map (fun c => inject_Z (snd c)) voxels].

(** The first tensor contributes its coordinates and its values, every
    other tensor its values, after the comparison of the metas. *)
Definition parse_sparse3d (data : list sparse_tensor) : result farray :=
  match data with
  | [] => Raise ValueError
  | t0 :: rest =>
      let np_voxels := map vcoord (as_vector t0) in
      output <- scn_loop (meta t0) rest
                  [coord_columns np_voxels; [map vvalue (as_vector t0)]] ;;
      concatenate_cols output
  end.

(** ** [parse_cluster3d_fragment] *)

(** [parse_cluster3d_full(data)] on a Python list given by its first
    element and the list of the elements after it: [data[1]] is the first
    of these. *)
Definition parse_cluster3d_full_list (data0 : cluster_event)
    (rest : list (list particle)) : result (list coord * farray) :=
  particles_v <- getitem rest 0 ;;
  parse_cluster3d_full (data0, particles_v).

(** [a.reshape((-1,))] on an (N,C) array: the entries row by row. *)
Definition ravel (a : farray) : list Q :=
  flat_map (fun i => map (fun c => nth i c 0%Q) a) (seq 0 (nrows a)).

(** [data = [cluster_event, sparse_tensor]]; the call on line 559 passes
    the one-element list [[data[0]]]. *)
Definition parse_cluster3d_fragment (data : cluster_event * sparse_tensor)
    : result (list coord * farray) :=
  let '(data0, data1) := data in
  '(grp_voxels, grp_data) <- parse_cluster3d_full_list data0 [] ;;
  '(label_voxels, label_data) <- parse_sparse3d_scn [data1] ;;
  let perm := lexsort_T grp_voxels in
  grp_voxels <- take grp_voxels perm ;;
  grp_data <- take_rows grp_data perm ;;
  let perm := lexsort_T label_voxels in
  label_voxels <- take label_voxels perm ;;
  label_data <- take_rows label_data perm ;;
  let sel1 := filter_duplicate_voxels grp_voxels in
  let inds1 := where_true sel1 in
  grp_voxels <- take grp_voxels inds1 ;;
  grp_data <- take_rows grp_data inds1 ;;
  label_sel <- bool_index label_voxels (map (fun v => Qltb v 4) (ravel label_data)) ;;
  let sel2 := filter_nonimg_voxels grp_voxels label_sel in
  let inds2 := where_true sel2 in
  grp_voxels <- take grp_voxels inds2 ;;
  grp_data <- take_rows grp_data inds2 ;;
  Ok (grp_voxels, grp_data).

(** ** [parse_particle_graph] *)

(** [larcv::Particle]: the accessors [parse_particle_graph] calls. *)
Record particle_node : Type := mkNode {
  node_id : nat;
  node_parent_id : nat;
  node_group_id : nat
}.

(** One iteration of [for cluster_id in range(particles.as_vector().size())];
    [np.vstack((edges, [a, b]))] appends the row [(a, b)]. *)
Definition graph_step (particles : list particle_node) (edges : list (nat * nat))
    (cluster_id : nat) : result (list (nat * nat)) :=
  p <- getitem particles cluster_id ;;
  let edges :=
    if negb (node_parent_id p =? node_id p)
    then edges ++ [(node_parent_id p, cluster_id)] else edges in
  let edges :=
    if (node_parent_id p =? node_id p) && negb (node_group_id p =? node_id p)
    then edges ++ [(node_group_id p, cluster_id)] else edges in
  Ok edges.

(** [data] is a Python list whose first element is the particle event. *)
Definition parse_particle_graph (data : list (list particle_node))
    : result (list (nat * nat)) :=
  particles <- getitem data 0 ;;
  foldM (graph_step particles) (seq 0 (length particles)) [].

(** ** More of the particle-level record *)

Module ParticleProperties.

(** The [num_fragments] property. *)
Definition num_fragments (self : Particle.t) : Particle.pyval :=
  Particle._num_fragments self.

(** The [fragment_ids] property: [return self._index]. *)
Definition fragment_ids (self : Particle.t) : option (list Z) :=
  Particle._index self.

(** The [index] property. *)
Definition index (self : Particle.t) : option (list Z) := Particle._index self.

(** The [depositions] property. *)
Definition depositions (self : Particle.t) : option (list Q) :=
  Particle._depositions self.

(** The [pid_scores] property. *)
Definition pid_scores (self : Particle.t) : option (list Q) :=
  Particle._pid_scores self.

(** The [primary_scores] property. *)
Definition primary_scores (self : Particle.t) : option (list Q) :=
  Particle._primary_scores self.

End ParticleProperties.

(** ** Vocabulary of the further statements *)

(** The voxels of all clusters, in cluster order. *)
Definition all_voxels (clusters : cluster_event) : list voxel := concat clusters.

(** One entry [f i] per voxel of cluster [i], in cluster order. *)
Definition per_cluster (clusters : cluster_event) (f : nat -> Q) : list Q :=
  flat_map (fun i => repeat (f i) (length (nth i clusters []))) (seq 0 (length clusters)).

(** The edge [parse_particle_graph] draws into cluster [c], if any. *)
Definition edge_into (particles : list particle_node) (c : nat) : option (nat * nat) :=
  match nth_error particles c with
  | Some p =>
      if negb (node_parent_id p =? node_id p) then Some (node_parent_id p, c)
      else if negb (node_group_id p =? node_id p) then Some (node_group_id p, c)
      else None
  | None => None
  end.

(** The derived counts agree with the arrays they are taken from. *)
Definition derived_in_step (self : Particle.t) : Prop :=
  (forall ix, Particle._index self = Some ix ->
              Particle._size self = Particle.PyInt (Z.of_nat (length ix))) /\
  (forall fr, Particle._fragment_ids self = Some fr ->
              Particle._num_fragments self = Particle.PyInt (Z.of_nat (length fr))).

(** A shower declared on itself, first in time, whose cluster is empty. *)
Definition empty_primary_event : cluster_event * list particle :=
  ([[]; one_voxel 1 0 0 1],
   [mkParticle 0 0 0 "primary" 0 0; mkParticle 1 0 0 "conv" 22 1]).

(** [particles_v[i].shape()] as a feature, 0 where there is no particle. *)
Definition shape_feature (particles_v : list particle) (i : nat) : Q :=
  match nth_error particles_v i with
  | Some p => inject_Z (shape p)
  | None => 0%Q
  end.

(** Every non-empty cluster has a particle of its index, with that id. *)
Definition ids_match (clusters : cluster_event) (particles_v : list particle) : Prop :=
  forall i c, nth_error clusters i = Some c -> c <> [] ->
    exists p, nth_error particles_v i = Some p /\ id p = i.

Definition some_voxel (clusters : cluster_event) : Prop :=
  exists c, In c clusters /\ c <> [].

(** [num_points > 0] for the cluster of index [i]. *)
Definition nonempty_at (clusters : cluster_event) (i : nat) : bool :=
  0 <? length (nth i clusters []).

(** The columns [parse_cluster3d_full] stacks: value, cluster id, group id
    and semantic type of the voxels of cluster [i]. *)
Definition full_columns (clusters : cluster_event) (particles_v : list particle)
    (resolved : list nat) : list (nat -> list Q) :=
  [fun i => map vvalue (nth i clusters []);
   fun i => repeat (Qnat i) (length (nth i clusters []));
   fun i => repeat (Qnat (nth i resolved 0)) (length (nth i clusters []));
   fun i => repeat (shape_feature particles_v i) (length (nth i clusters []))].

(** Three clusters, the middle one empty. *)
Definition gap_event : cluster_event * list particle :=
  ([[mkVoxel (0, 0, 0)%Z 1; mkVoxel (0, 0, 1)%Z 2]; []; one_voxel 5 5 5 3],
   [mkParticle 0 0 1 "primary" 0 0;
    mkParticle 1 1 0 "conv" 22 1;
    mkParticle 2 2 1 "primary" 0 2]).

Definition edges_into (particles : list particle_node) (c : nat) : list (nat * nat) :=
  match edge_into particles c with
  | Some e => [e]
  | None => []
  end.

(** A primary, two of its daughters, a grand-daughter, and a particle
    without recorded parent that is grouped with the primary. *)
Definition family : list particle_node :=
  [mkNode 0 0 0; mkNode 1 0 0; mkNode 2 0 0; mkNode 3 1 0; mkNode 4 4 0].

(** A particle that declares the group id 7 in an event of two particles. *)
Definition stray_group_event : cluster_event * list particle :=
  ([one_voxel 0 0 0 1; one_voxel 1 0 0 1],
   [mkParticle 0 0 1 "primary" 0 0; mkParticle 1 7 1 "primary" 0 0]).

(** * Properties *)

(** ** The result monad *)

Lemma bind_Ok_inv {A B : Type} (m : result A) (k : A -> result B) (b : B) :
  bind m k = Ok b -> exists a, m = Ok a /\ k a = Ok b.
Proof.
  destruct m as [a|e]; simpl; intros H; [exists a; auto | discriminate].
Qed.

Lemma getitem_Ok {A : Type} (v : list A) (i : nat) (a : A) :
  getitem v i = Ok a <-> nth_error v i = Some a.
Proof.
  unfold getitem. destruct (nth_error v i); split; intros H; congruence.
Qed.

Lemma nth_error_lt {A : Type} (v : list A) (i : nat) (a : A) :
  nth_error v i = Some a -> i < length v.
Proof.
  intros H. apply nth_error_Some. congruence.
Qed.

Lemma getitem_lt {A : Type} (v : list A) (i : nat) :
  i < length v -> exists a, getitem v i = Ok a /\ nth_error v i = Some a.
Proof.
  intros H. unfold getitem.
  destruct (nth_error v i) as [a|] eqn:E.
  - exists a; auto.
  - apply nth_error_None in E. lia.
Qed.

Lemma mapM_total {A B : Type} (f : A -> result B) (g : A -> B) (l : list A) :
  (forall a, In a l -> f a = Ok (g a)) -> mapM f l = Ok (map g l).
Proof.
  induction l as [|a r IH]; simpl; intros H; [reflexivity|].
  rewrite (H a (or_introl eq_refl)). simpl.
  rewrite IH by (intros; apply H; auto). reflexivity.
Qed.

Lemma mapM_Ok_length {A B : Type} (f : A -> result B) (l : list A) (r : list B) :
  mapM f l = Ok r -> length r = length l.
Proof.
  revert r. induction l as [|a l IH]; simpl; intros r H.
  - inversion H; reflexivity.
  - apply bind_Ok_inv in H as (b & _ & H).
    apply bind_Ok_inv in H as (bs & Hbs & H).
    inversion H; subst. simpl. f_equal. auto.
Qed.

(** ** Index arrays *)

Lemma where_eq_from_In (a : list nat) (g i j : nat) :
  In j (Np.where_eq_from i a g) <-> i <= j /\ nth_error a (j - i) = Some g.
Proof.
  revert i. induction a as [|x r IH]; intros i; simpl.
  - split; [tauto|]. intros [_ H]. destruct (j - i); discriminate.
  - destruct (Nat.eqb_spec x g) as [->|Hne]; simpl; rewrite IH; split.
    + intros [<-|[Hle H]].
      * rewrite Nat.sub_diag. auto.
      * split; [lia|]. replace (j - i) with (S (j - S i)) by lia. exact H.
    + intros [Hle H]. destruct (Nat.eq_dec i j) as [->|Hij]; [auto|right].
      split; [lia|]. replace (j - i) with (S (j - S i)) in H by lia. exact H.
    + intros [Hle H]. split; [lia|].
      replace (j - i) with (S (j - S i)) by lia. exact H.
    + intros [Hle H]. destruct (Nat.eq_dec i j) as [->|Hij].
      * rewrite Nat.sub_diag in H. simpl in H. congruence.
      * split; [lia|]. replace (j - i) with (S (j - S i)) in H by lia. exact H.
Qed.

Lemma where_eq_In (a : list nat) (g j : nat) :
  In j (Np.where_eq a g) <-> nth_error a j = Some g.
Proof.
  unfold Np.where_eq. rewrite where_eq_from_In, Nat.sub_0_r.
  split; [tauto | intros; split; [lia | assumption]].
Qed.

Lemma where_eq_from_sorted (a : list nat) (g i : nat) :
  StronglySorted lt (Np.where_eq_from i a g).
Proof.
  revert i. induction a as [|x r IH]; intros i; simpl; [constructor|].
  destruct (x =? g); [|apply IH].
  constructor; [apply IH|].
  apply Forall_forall. intros j Hj. apply where_eq_from_In in Hj. lia.
Qed.

Lemma where_eq_from_map (h : nat -> nat) (a : list nat) (g i : nat) :
  (forall x, In x a -> (h x = g <-> x = g)) ->
  Np.where_eq_from i (map h a) g = Np.where_eq_from i a g.
Proof.
  revert i. induction a as [|x r IH]; intros i H; simpl; [reflexivity|].
  rewrite IH by (intros; apply H; simpl; auto).
  destruct (Nat.eqb_spec (h x) g) as [E|E], (Nat.eqb_spec x g) as [E'|E'];
    try reflexivity; exfalso.
  - apply E'. apply H; simpl; auto.
  - apply E. apply H; simpl; auto.
Qed.

Lemma set_at_app (pre a : list nat) (x v : nat) :
  Np.set_at (pre ++ x :: a) (length pre) v = pre ++ v :: a.
Proof.
  induction pre as [|y pre IH]; simpl; [reflexivity | now rewrite IH].
Qed.

Lemma put_where_eq_from (pre a : list nat) (g v : nat) :
  Np.put (pre ++ a) (Np.where_eq_from (length pre) a g) v
  = pre ++ map (fun x => if x =? g then v else x) a.
Proof.
  revert pre. induction a as [|x r IH]; intros pre; simpl; [reflexivity|].
  destruct (x =? g).
  - unfold Np.put. simpl. rewrite set_at_app.
    replace (pre ++ v :: r) with ((pre ++ [v]) ++ r) by now rewrite <- app_assoc.
    replace (S (length pre)) with (length (pre ++ [v])) by (rewrite length_app; simpl; lia).
    fold (Np.put ((pre ++ [v]) ++ r) (Np.where_eq_from (length (pre ++ [v])) r g) v).
    rewrite IH, <- app_assoc. reflexivity.
  - replace (pre ++ x :: r) with ((pre ++ [x]) ++ r) by now rewrite <- app_assoc.
    replace (S (length pre)) with (length (pre ++ [x])) by (rewrite length_app; simpl; lia).
    rewrite IH, <- app_assoc. reflexivity.
Qed.

(** Assignment through [np.where(a == g)] rewrites exactly the entries
    equal to [g]. *)
Lemma put_where_eq (a : list nat) (g v : nat) :
  Np.put a (Np.where_eq a g) v = map (fun x => if x =? g then v else x) a.
Proof. exact (put_where_eq_from [] a g v). Qed.

(** ** [np.unique] *)

Lemma insert_unique_In (x y : nat) (l : list nat) :
  In y (Np.insert_unique x l) <-> y = x \/ In y l.
Proof.
  induction l as [|z r IH]; simpl.
  - intuition.
  - destruct (x <? z); simpl; [intuition|].
    destruct (Nat.eqb_spec x z) as [->|Hne]; simpl; [intuition|].
    rewrite IH. intuition.
Qed.

Lemma unique_In (a : list nat) (y : nat) : In y (Np.unique a) <-> In y a.
Proof.
  unfold Np.unique. induction a as [|x r IH]; simpl; [tauto|].
  rewrite insert_unique_In, IH. intuition.
Qed.

Lemma insert_unique_sorted (x : nat) (l : list nat) :
  StronglySorted lt l -> StronglySorted lt (Np.insert_unique x l).
Proof.
  induction l as [|z r IH]; simpl; intros Hs.
  - repeat constructor.
  - inversion Hs as [|? ? Hr Hall]; subst.
    destruct (Nat.ltb_spec x z) as [Hlt|Hge].
    + constructor; [assumption|]. constructor; [assumption|].
      eapply Forall_impl; [|exact Hall]. simpl; intros; lia.
    + destruct (Nat.eqb_spec x z) as [->|Hne]; [assumption|].
      constructor; [auto|].
      apply Forall_forall. intros y Hy. apply insert_unique_In in Hy.
      destruct Hy as [->|Hy]; [lia|].
      rewrite Forall_forall in Hall. auto.
Qed.

Lemma unique_sorted (a : list nat) : StronglySorted lt (Np.unique a).
Proof.
  unfold Np.unique. induction a as [|x r IH]; simpl; [constructor|].
  now apply insert_unique_sorted.
Qed.

(** ** [np.argmin] *)

Lemma Qltb_lt (a b : Q) : Qltb a b = true <-> (a < b)%Q.
Proof.
  unfold Qltb. rewrite negb_true_iff. split.
  - intros H. apply Qnot_le_lt. intros Hle.
    apply Qle_bool_iff in Hle. congruence.
  - intros H. destruct (Qle_bool b a) eqn:E; [|reflexivity].
    apply Qle_bool_iff in E. exfalso. exact (Qlt_not_le _ _ H E).
Qed.

Lemma Qltb_ge (a b : Q) : Qltb a b = false <-> (b <= a)%Q.
Proof.
  unfold Qltb. rewrite negb_false_iff. apply Qle_bool_iff.
Qed.

Lemma skipn_cons_nth {A : Type} (d : A) (full : list A) (i : nat) (x : A) (r : list A) :
  skipn i full = x :: r -> nth i full d = x /\ skipn (S i) full = r.
Proof.
  revert i. induction full as [|y full IH]; intros i H.
  - destruct i; discriminate.
  - destruct i as [|i]; simpl in *.
    + inversion H; auto.
    + apply IH in H. exact H.
Qed.

(** The scan keeps the first position of the smallest value seen so far. *)
Lemma argmin_from_spec (l full : list Q) (bi i : nat) (b : Q) :
  bi < i -> i + length l = length full ->
  nth bi full 0%Q = b -> skipn i full = l ->
  (forall j, j < i -> (b <= nth j full 0)%Q /\ (j < bi -> (b < nth j full 0)%Q)) ->
  let k := Np.argmin_from bi b i l in
  k < length full /\
  forall j, j < length full ->
    (nth k full 0 <= nth j full 0)%Q /\ (j < k -> (nth k full 0 < nth j full 0)%Q).
Proof.
  revert bi i b. induction l as [|x r IH]; intros bi i b Hbi Hlen Hb Hskip Hinv; simpl.
  - simpl in Hlen. split; [lia|]. intros j Hj. rewrite Hb. apply Hinv. lia.
  - simpl in Hlen. apply (skipn_cons_nth 0%Q) in Hskip as [Hx Hskip].
    destruct (Qltb x b) eqn:E.
    + apply Qltb_lt in E. apply IH; try lia; try assumption.
      intros j Hj. destruct (Nat.eq_dec j i) as [->|Hne].
      * rewrite Hx. split; [apply Qle_refl | lia].
      * destruct (Hinv j ltac:(lia)) as [H1 _].
        assert (x < nth j full 0)%Q by (eapply Qlt_le_trans; eassumption).
        split; [apply Qlt_le_weak|]; auto.
    + apply Qltb_ge in E. apply IH; try lia; try assumption.
      intros j Hj. destruct (Nat.eq_dec j i) as [->|Hne].
      * rewrite Hx. split; [assumption | lia].
      * apply Hinv. lia.
Qed.

Lemma argmin_spec (l : list Q) :
  l <> [] ->
  exists k, Np.argmin l = Ok k /\ k < length l /\
    forall j, j < length l ->
      (nth k l 0 <= nth j l 0)%Q /\ (j < k -> (nth k l 0 < nth j l 0)%Q).
Proof.
  destruct l as [|x r]; [congruence|]. intros _.
  exists (Np.argmin_from 0 x 1 r). split; [reflexivity|].
  apply (argmin_from_spec r (x :: r) 0 1 x); simpl; auto.
  intros j Hj. assert (j = 0) as -> by lia. simpl.
  split; [apply Qle_refl | lia].
Qed.

Lemma StronglySorted_lt_nth (l : list nat) (i j : nat) :
  StronglySorted lt l -> i < j -> j < length l -> nth i l 0 < nth j l 0.
Proof.
  intros Hs. revert i j. induction Hs as [|x r Hs IH Hall]; intros i j Hij Hj.
  - simpl in Hj. lia.
  - destruct j as [|j]; [lia|]. simpl in Hj. destruct i as [|i]; simpl.
    + rewrite Forall_forall in Hall. apply Hall. apply nth_In. lia.
    + apply IH; lia.
Qed.

Lemma StronglySorted_lt_NoDup (l : list nat) : StronglySorted lt l -> NoDup l.
Proof.
  induction 1 as [|x r Hs IH Hall]; constructor; auto.
  intros Hin. rewrite Forall_forall in Hall. specialize (Hall _ Hin). lia.
Qed.

(** ** Earliest member of a declared group *)

Lemma member_where (particles_v : list particle) (g m : nat) :
  member particles_v g m <-> In m (Np.where_eq (map group_id particles_v) g).
Proof.
  rewrite where_eq_In, nth_error_map. unfold member.
  destruct (nth_error particles_v m) as [p|]; simpl; split.
  - intros (q & Hq & Hg). inversion Hq; subst. reflexivity.
  - intros H. exists p. split; congruence.
  - intros (q & Hq & _). discriminate.
  - discriminate.
Qed.

Lemma earliest_unique (particles_v : list particle) (g e e' : nat) :
  earliest particles_v g e -> earliest particles_v g e' -> e = e'.
Proof.
  intros [Hm H] [Hm' H'].
  destruct (H _ Hm') as [Hle Hlt], (H' _ Hm) as [Hle' Hlt'].
  destruct (Nat.lt_trichotomy e e') as [Hc|[Hc|Hc]]; [|assumption|]; exfalso.
  - apply Hlt' in Hc. exact (Qlt_not_le _ _ Hc Hle).
  - apply Hlt in Hc. exact (Qlt_not_le _ _ Hc Hle').
Qed.

(** The stable argmin over the members picks the earliest member. *)
Lemma argmin_earliest (particles_v : list particle) (g : nat) :
  In g (map group_id particles_v) ->
  let idxs := Np.where_eq (map group_id particles_v) g in
  exists k, Np.argmin (map (time_of particles_v) idxs) = Ok k /\
            k < length idxs /\ earliest particles_v g (nth k idxs 0).
Proof.
  intros Hin idxs.
  assert (Hne : map (time_of particles_v) idxs <> []).
  { apply In_nth_error in Hin as [m Hm].
    apply where_eq_In in Hm. fold idxs in Hm.
    destruct idxs; [contradiction | discriminate]. }
  destruct (argmin_spec _ Hne) as (k & Hk & Hlen & Hmin).
  rewrite length_map in Hlen, Hmin.
  exists k. split; [assumption|]. split; [assumption|].
  assert (Hnth : forall j, j < length idxs ->
            nth j (map (time_of particles_v) idxs) 0%Q
            = time_of particles_v (nth j idxs 0)).
  { intros j Hj. rewrite (nth_indep _ 0%Q (time_of particles_v 0))
      by (rewrite length_map; assumption).
    apply map_nth. }
  split.
  - apply member_where. apply nth_In. assumption.
  - intros m Hm. apply member_where in Hm. fold idxs in Hm.
    apply (In_nth _ _ 0) in Hm as (j & Hj & <-).
    destruct (Hmin j Hj) as [Hle Hlt].
    rewrite !Hnth in Hle, Hlt by assumption.
    split; [assumption|]. intros Hlt'. apply Hlt.
    destruct (Nat.lt_ge_cases j k) as [|Hge]; [assumption|exfalso].
    unfold idxs, Np.where_eq in *.
    destruct (Nat.eq_dec j k) as [->|Hne']; [lia|].
    pose proof (StronglySorted_lt_nth _ k j (where_eq_from_sorted _ g 0)
                  ltac:(lia) Hj). lia.
Qed.

Lemma late_primary_true (particles_v : list particle) (g : nat) :
  In g (map group_id particles_v) ->
  late_primary particles_v g = true ->
  exists e, earliest particles_v g e /\ e <> g.
Proof.
  intros Hin H. destruct (argmin_earliest particles_v g Hin) as (k & Hk & _ & He).
  unfold late_primary in H. rewrite Hk in H.
  apply negb_true_iff, Nat.eqb_neq in H. eauto.
Qed.

Lemma late_primary_false (particles_v : list particle) (g : nat) :
  In g (map group_id particles_v) ->
  late_primary particles_v g = false -> earliest particles_v g g.
Proof.
  intros Hin H. destruct (argmin_earliest particles_v g Hin) as (k & Hk & _ & He).
  unfold late_primary in H. rewrite Hk in H.
  apply negb_false_iff, Nat.eqb_eq in H. rewrite H in He. exact He.
Qed.

(** ** The group loop on a well-formed event *)

Section GroupLoop.

Variable clusters : cluster_event.
Variable particles_v : list particle.

Hypothesis Hwf : well_formed clusters particles_v.

Let gids0 := map group_id particles_v.

Lemma declared_lt (g : nat) :
  In g gids0 -> g < length particles_v /\ g < length clusters.
Proof.
  unfold gids0. intros H. apply in_map_iff in H as (p & <- & Hp).
  unfold well_formed in Hwf. rewrite Forall_forall in Hwf. auto.
Qed.

Lemma clust_times_Ok (idxs : list nat) :
  (forall j, In j idxs -> j < length particles_v) ->
  mapM (fun j => q <- getitem particles_v j ;; Ok (first_step_t q)) idxs
  = Ok (map (time_of particles_v) idxs).
Proof.
  intros H. apply mapM_total. intros j Hj.
  destruct (getitem_lt particles_v j (H j Hj)) as (q & Hq & Hn).
  rewrite Hq. unfold time_of. rewrite Hn. reflexivity.
Qed.

(** One iteration, when the members of [gid] are still the declared ones. *)
Lemma group_step_char (st : loop_state) (gid : nat) :
  In gid gids0 ->
  Np.where_eq (group_ids st) gid = Np.where_eq gids0 gid ->
  group_step clusters particles_v st gid
  = Ok (if demoted clusters particles_v gid
        then {| group_ids := map (fun x => if x =? gid then new_group st else x)
                                 (group_ids st);
                new_group := new_group st + 1 |}
        else st).
Proof.
  intros Hin Hwhere.
  pose proof (declared_lt gid Hin) as [Hlt Hltc].
  destruct (getitem_lt particles_v gid Hlt) as (p & Hp & Hn).
  assert (Hdem : demote st (Np.where_eq gids0 gid)
                 = {| group_ids := map (fun x => if x =? gid then new_group st else x)
                                       (group_ids st);
                      new_group := new_group st + 1 |}).
  { unfold demote. rewrite <- Hwhere, put_where_eq. reflexivity. }
  unfold group_step, demoted. rewrite Hp, Hn. simpl.
  unfold shape_gate.
  destruct (shape p =? 0)%Z eqn:E0; destruct (shape p =? 4)%Z eqn:E4; simpl;
    try reflexivity.
  all: fold (process_veto p); destruct (process_veto p) eqn:Ev; simpl;
    [rewrite Hwhere, Hdem; reflexivity|].
  all: destruct (getitem_lt clusters gid ltac:(lia)) as (c & Hc & Hnc);
    rewrite Hc; simpl; unfold empty_primary; rewrite Hnc;
    destruct (length c =? 0) eqn:El; simpl;
    [rewrite Hwhere, Hdem; reflexivity|].
  all: rewrite Hwhere;
    rewrite clust_times_Ok
      by (intros j Hj; apply where_eq_In in Hj;
          apply nth_error_lt in Hj; unfold gids0 in Hj;
          rewrite length_map in Hj; exact Hj);
    simpl;
    destruct (argmin_earliest particles_v gid Hin) as (k & Hk & Hklen & _);
    fold gids0 in Hk, Hklen; unfold late_primary; fold gids0; rewrite Hk; simpl;
    destruct (getitem_lt (Np.where_eq gids0 gid) k Hklen) as (e & He & Hne);
    rewrite He; simpl;
    rewrite (nth_error_nth _ _ 0 Hne);
    destruct (e =? gid); simpl; [reflexivity | rewrite Hdem; reflexivity].
Qed.

Lemma minted_gt (done : list nat) (g x : nat) :
  In x gids0 -> x < minted clusters particles_v done g.
Proof.
  intros H. apply declared_lt in H. unfold minted. lia.
Qed.

Lemma resolved_after_eq (done : list nat) (gid x : nat) :
  In gid gids0 -> ~ In gid done ->
  (resolved_after clusters particles_v done x = gid <-> x = gid).
Proof.
  intros Hin Hnot. unfold resolved_after.
  destruct (existsb (Nat.eqb x) done) eqn:Ex; simpl.
  - apply existsb_exists in Ex as (y & Hy & Exy). apply Nat.eqb_eq in Exy. subst y.
    destruct (demoted clusters particles_v x).
    + pose proof (minted_gt done x gid Hin). split; intros; subst; [lia | contradiction].
    + tauto.
  - tauto.
Qed.

Lemma filter_ltb_snoc (done : list nat) (gid x : nat) :
  Forall (fun y => y < gid) done -> In x done ->
  filter (fun y => y <? x) (done ++ [gid]) = filter (fun y => y <? x) done.
Proof.
  intros Hall Hx. rewrite filter_app. simpl.
  rewrite Forall_forall in Hall. specialize (Hall _ Hx).
  destruct (Nat.ltb_spec gid x); [lia|]. apply app_nil_r.
Qed.

Lemma filter_ltb_all (done : list nat) (gid : nat) :
  Forall (fun y => y < gid) done ->
  filter (fun y => y <? gid) (done ++ [gid]) = done.
Proof.
  intros Hall. rewrite filter_app. simpl. rewrite Nat.ltb_irrefl, app_nil_r.
  induction Hall as [|y r Hy Hall IH]; simpl; [reflexivity|].
  destruct (Nat.ltb_spec y gid); [|lia]. now rewrite IH.
Qed.

Lemma existsb_eqb_In (x : nat) (l : list nat) :
  existsb (Nat.eqb x) l = true <-> In x l.
Proof.
  rewrite existsb_exists. split.
  - intros (y & Hy & E). apply Nat.eqb_eq in E. now subst.
  - intros H. exists x. split; [assumption | apply Nat.eqb_refl].
Qed.

(** Visiting [gid] after [done] rewrites the array as [resolved_after] says. *)
Lemma resolved_after_snoc (done : list nat) (gid x : nat) :
  In gid gids0 -> Forall (fun y => y < gid) done ->
  resolved_after clusters particles_v (done ++ [gid]) x
  = if demoted clusters particles_v gid
    then (if resolved_after clusters particles_v done x =? gid
          then length clusters + 1
               + length (filter (demoted clusters particles_v) done)
          else resolved_after clusters particles_v done x)
    else resolved_after clusters particles_v done x.
Proof.
  intros Hin Hall.
  assert (Hnot : ~ In gid done).
  { intros H. rewrite Forall_forall in Hall. specialize (Hall _ H). lia. }
  pose proof (resolved_after_eq done gid x Hin Hnot) as Heq.
  destruct (Nat.eq_dec x gid) as [->|Hne].
  - assert (E : resolved_after clusters particles_v done gid = gid) by now apply Heq.
    rewrite E, Nat.eqb_refl. unfold resolved_after, minted.
    rewrite existsb_app. simpl. rewrite Nat.eqb_refl, orb_true_r. simpl.
    rewrite filter_ltb_all by assumption.
    destruct (demoted clusters particles_v gid); reflexivity.
  - assert (E : (resolved_after clusters particles_v done x =? gid) = false).
    { apply Nat.eqb_neq. intros H. apply Heq in H. contradiction. }
    rewrite E.
    assert (E' : resolved_after clusters particles_v (done ++ [gid]) x
                 = resolved_after clusters particles_v done x).
    { unfold resolved_after, minted. rewrite existsb_app. simpl.
      assert ((x =? gid) = false) as -> by now apply Nat.eqb_neq.
      rewrite !orb_false_r.
      destruct (existsb (Nat.eqb x) done) eqn:Ex; simpl; [|reflexivity].
      apply existsb_eqb_In in Ex. rewrite filter_ltb_snoc by assumption.
      reflexivity. }
    rewrite E'. destruct (demoted clusters particles_v gid); reflexivity.
Qed.

Lemma group_loop_char (todo done : list nat) (st : loop_state) :
  StronglySorted lt (done ++ todo) ->
  (forall g, In g todo -> In g gids0) ->
  loop_inv clusters particles_v done st ->
  exists st', group_loop clusters particles_v todo st = Ok st' /\
              loop_inv clusters particles_v (done ++ todo) st'.
Proof.
  revert done st. induction todo as [|gid rest IH]; intros done st Hs Hin [Hg Hn]; fold gids0 in Hg.
  - exists st. rewrite app_nil_r. simpl. split; [reflexivity | split; assumption].
  - assert (Hall : Forall (fun y => y < gid) done).
    { clear - Hs. induction done as [|y r IHr]; [constructor|].
      simpl in Hs. inversion Hs as [|? ? Hr Hf]; subst.
      constructor; [|auto].
      rewrite Forall_forall in Hf. apply Hf. apply in_or_app. right. simpl. auto. }
    assert (Hnot : ~ In gid done).
    { intros H. rewrite Forall_forall in Hall. specialize (Hall _ H). lia. }
    assert (Hgid : In gid gids0) by (apply Hin; simpl; auto).
    simpl. rewrite group_step_char; [|assumption|].
    2:{ rewrite Hg. apply where_eq_from_map. intros x _.
        apply resolved_after_eq; assumption. }
    simpl.
    replace (done ++ gid :: rest) with ((done ++ [gid]) ++ rest) in *
      by (rewrite <- app_assoc; reflexivity).
    apply IH; [assumption | intros; apply Hin; simpl; auto |].
    split.
    + assert (E : forall x, resolved_after clusters particles_v (done ++ [gid]) x
                = if demoted clusters particles_v gid
                  then (if resolved_after clusters particles_v done x =? gid
                        then new_group st
                        else resolved_after clusters particles_v done x)
                  else resolved_after clusters particles_v done x).
      { intros x. rewrite Hn. apply resolved_after_snoc; assumption. }
      destruct (demoted clusters particles_v gid) eqn:Ed; simpl.
      * rewrite Hg, map_map. apply map_ext. intros x. now rewrite E.
      * rewrite Hg. apply map_ext. intros x. now rewrite E.
    + rewrite filter_app, length_app. simpl.
      destruct (demoted clusters particles_v gid); simpl; lia.
Qed.

(** The array after the loop, in closed form. *)
Lemma resolve_group_ids_char :
  resolve_group_ids clusters particles_v
  = Ok (map (resolved_after clusters particles_v (Np.unique gids0)) gids0).
Proof.
  unfold resolve_group_ids. fold gids0.
  destruct (group_loop_char (Np.unique gids0) []
              {| group_ids := gids0; new_group := length clusters + 1 |})
    as (st' & Hst & Hg & _).
  - simpl. apply unique_sorted.
  - intros g Hg. now apply unique_In.
  - split; simpl; [|lia].
    rewrite <- (map_id gids0) at 1. apply map_ext. intros x. reflexivity.
  - rewrite Hst. simpl. simpl in Hg. rewrite Hg. reflexivity.
Qed.

End GroupLoop.

(** ** Minted ids *)

Lemma filter_filter_le (f : nat -> bool) (l : list nat) (x g : nat) :
  x <= g ->
  length (filter f (filter (fun y => y <? x) l))
  <= length (filter f (filter (fun y => y <? g) l)).
Proof.
  intros Hxg. induction l as [|y r IH]; simpl; [lia|].
  destruct (Nat.ltb_spec y x), (Nat.ltb_spec y g); simpl; try lia;
    destruct (f y); simpl; lia.
Qed.

Lemma filter_filter_lt (f : nat -> bool) (l : list nat) (x g : nat) :
  x < g -> In x l -> f x = true ->
  length (filter f (filter (fun y => y <? x) l))
  < length (filter f (filter (fun y => y <? g) l)).
Proof.
  intros Hxg Hin Hf. induction l as [|y r IH]; simpl; [contradiction|].
  pose proof (filter_filter_le f r x g ltac:(lia)) as Hle.
  destruct Hin as [->|Hin].
  - rewrite Nat.ltb_irrefl. destruct (Nat.ltb_spec x g); [|lia].
    simpl. rewrite Hf. simpl. lia.
  - specialize (IH Hin).
    destruct (Nat.ltb_spec y x), (Nat.ltb_spec y g); simpl; try lia;
      destruct (f y); simpl; lia.
Qed.

(** Among demoted groups, the minted id grows with the declared id. *)
Lemma minted_lt (clusters : cluster_event) (particles_v : list particle)
    (done : list nat) (x g : nat) :
  x < g -> In x done -> demoted clusters particles_v x = true ->
  minted clusters particles_v done x < minted clusters particles_v done g.
Proof.
  intros Hxg Hin Hd. unfold minted.
  pose proof (filter_filter_lt (demoted clusters particles_v) done x g Hxg Hin Hd).
  lia.
Qed.

Lemma minted_inj (clusters : cluster_event) (particles_v : list particle)
    (done : list nat) (x g : nat) :
  In x done -> In g done ->
  demoted clusters particles_v x = true -> demoted clusters particles_v g = true ->
  minted clusters particles_v done x = minted clusters particles_v done g -> x = g.
Proof.
  intros Hx Hg Dx Dg E.
  destruct (Nat.lt_trichotomy x g) as [H|[H|H]]; [|assumption|].
  - pose proof (minted_lt clusters particles_v done x g H Hx Dx). lia.
  - pose proof (minted_lt clusters particles_v done g x H Hg Dg). lia.
Qed.

Section Resolved.

Variable clusters : cluster_event.
Variable particles_v : list particle.
Hypothesis Hwf : well_formed clusters particles_v.

Let declared := map group_id particles_v.
Let visited := Np.unique declared.

Lemma resolved_Ok :
  resolve_group_ids clusters particles_v
  = Ok (map (resolved_after clusters particles_v visited) declared).
Proof. now apply resolve_group_ids_char. Qed.

Lemma declared_bound (d : nat) : In d declared -> d < length clusters + 1.
Proof.
  intros H. pose proof (declared_lt clusters particles_v Hwf d H). lia.
Qed.

Lemma member_declared (g m : nat) :
  member particles_v g m <-> nth_error declared m = Some g.
Proof. rewrite member_where. apply where_eq_In. Qed.

Lemma resolved_nth (m : nat) (r : nat) :
  nth_error (map (resolved_after clusters particles_v visited) declared) m = Some r
  <-> exists d, nth_error declared m = Some d /\
                r = resolved_after clusters particles_v visited d.
Proof.
  rewrite nth_error_map. destruct (nth_error declared m) as [d|]; simpl; split.
  - intros H. inversion H. eauto.
  - intros (d' & H & ->). inversion H. reflexivity.
  - discriminate.
  - intros (d' & H & _). discriminate.
Qed.

Lemma resolved_after_kept (d : nat) :
  demoted clusters particles_v d = false ->
  resolved_after clusters particles_v visited d = d.
Proof.
  intros H. unfold resolved_after. rewrite H, andb_false_r. reflexivity.
Qed.

Lemma resolved_after_demoted (d : nat) :
  In d declared -> demoted clusters particles_v d = true ->
  resolved_after clusters particles_v visited d
  = minted clusters particles_v visited d.
Proof.
  intros Hin H. unfold resolved_after. rewrite H, andb_true_r.
  assert (existsb (Nat.eqb d) visited = true) as ->; [|reflexivity].
  apply existsb_eqb_In. now apply unique_In.
Qed.

(** A resolved id differs from the declared one exactly for demoted groups. *)
Lemma resolved_after_changed (d : nat) :
  In d declared ->
  (resolved_after clusters particles_v visited d <> d
   <-> demoted clusters particles_v d = true).
Proof.
  intros Hin. destruct (demoted clusters particles_v d) eqn:E.
  - rewrite resolved_after_demoted by assumption.
    pose proof (declared_bound d Hin). unfold minted. split; [reflexivity|]. lia.
  - rewrite resolved_after_kept by assumption. split; [congruence | discriminate].
Qed.

(** The members of a demoted group are exactly the particles holding its
    minted id, and that id is above every declared id. *)
Lemma demoted_group_resolved (g : nat) :
  In g declared -> demoted clusters particles_v g = true ->
  let fresh := minted clusters particles_v visited g in
  (forall d, In d declared -> d < fresh) /\
  length clusters < fresh /\
  forall m, member particles_v g m <->
            nth_error (map (resolved_after clusters particles_v visited) declared) m
            = Some fresh.
Proof.
  intros Hin Hd fresh. split; [|split].
  - intros d H. apply declared_bound in H. unfold fresh, minted. lia.
  - unfold fresh, minted. lia.
  - intros m. rewrite member_declared, resolved_nth. split.
    + intros H. exists g. split; [assumption|].
      now rewrite resolved_after_demoted.
    + intros (d & Hm & E).
      assert (Hdin : In d declared) by (eapply nth_error_In; eassumption).
      destruct (demoted clusters particles_v d) eqn:Ed.
      * rewrite resolved_after_demoted in E by assumption.
        apply minted_inj in E; try assumption; try (now apply unique_In).
        now subst.
      * rewrite resolved_after_kept in E by assumption.
        apply declared_bound in Hdin. unfold fresh, minted in E. lia.
Qed.

Lemma kept_group_resolved (g : nat) :
  demoted clusters particles_v g = false ->
  forall m, member particles_v g m ->
            nth_error (map (resolved_after clusters particles_v visited) declared) m
            = Some g.
Proof.
  intros Hd m Hm. apply resolved_nth. exists g. split.
  - now apply member_declared.
  - now rewrite resolved_after_kept.
Qed.

End Resolved.

(** ** The vetoes of the group loop *)

Lemma shape_gate_true (p : particle) :
  shape_gate p = true <-> (shape p = 0 \/ shape p = 4)%Z.
Proof.
  unfold shape_gate. rewrite orb_true_iff, !Z.eqb_eq. tauto.
Qed.

Lemma process_veto_true (p : particle) :
  process_veto p = true <->
  str_in "Inelastic"%string (creation_process p) = true \/
  str_in "Capture"%string (creation_process p) = true \/
  Z.abs (parent_pdg_code p) = 13%Z.
Proof.
  unfold process_veto. rewrite !orb_true_iff, Z.eqb_eq. tauto.
Qed.

Lemma process_veto_false (p : particle) :
  process_veto p = false <->
  str_in "Inelastic"%string (creation_process p) = false /\
  str_in "Capture"%string (creation_process p) = false /\
  Z.abs (parent_pdg_code p) <> 13%Z.
Proof.
  unfold process_veto. rewrite !orb_false_iff, Z.eqb_neq. tauto.
Qed.

(** C1. On a well-formed event, let [g] be a declared group id whose
    primary [particles_v[g]] is a shower (0) or low-energy (4) particle
    that passes the process/PDG veto and has a non-empty cluster.  The
    loop does not raise; the group has exactly one earliest member [e],
    the member with the minimal first-step time and, among ties, the
    lowest particle id.  If [e] is not [g], all members of the group, and
    no other particle, end with one common minted id, above every declared
    id; if [e] is [g], every member keeps the group id [g]. *)
Theorem time_ordering_veto (clusters : cluster_event) (particles_v : list particle)
    (g : nat) (p : particle) (c : list voxel) :
  well_formed clusters particles_v ->
  In g (map group_id particles_v) ->
  nth_error particles_v g = Some p ->
  (shape p = 0 \/ shape p = 4)%Z ->
  str_in "Inelastic"%string (creation_process p) = false ->
  str_in "Capture"%string (creation_process p) = false ->
  Z.abs (parent_pdg_code p) <> 13%Z ->
  nth_error clusters g = Some c -> c <> [] ->
  exists resolved e,
    resolve_group_ids clusters particles_v = Ok resolved /\
    earliest particles_v g e /\
    (forall e', earliest particles_v g e' -> e' = e) /\
    (e <> g ->
     exists fresh,
       (forall d, In d (map group_id particles_v) -> d < fresh) /\
       forall m, member particles_v g m <-> nth_error resolved m = Some fresh) /\
    (e = g ->
     forall m, member particles_v g m -> nth_error resolved m = Some g).
Proof.
  intros Hwf Hin Hp Hshape Hin1 Hin2 Hpdg Hc Hne.
  assert (Hveto : process_veto p = false) by (apply process_veto_false; auto).
  assert (Hgate : shape_gate p = true) by (apply shape_gate_true; auto).
  assert (Hempty : empty_primary clusters g = false).
  { unfold empty_primary. rewrite Hc. destruct c; [congruence | reflexivity]. }
  assert (Hdem : demoted clusters particles_v g = late_primary particles_v g).
  { unfold demoted. rewrite Hp, Hgate, Hveto, Hempty. reflexivity. }
  destruct (argmin_earliest particles_v g Hin) as (k & Hk & _ & He).
  set (idxs := Np.where_eq (map group_id particles_v) g) in *.
  exists (map (resolved_after clusters particles_v
                 (Np.unique (map group_id particles_v)))
              (map group_id particles_v)), (nth k idxs 0).
  split; [now apply resolved_Ok|]. split; [assumption|].
  split; [intros e' He'; eapply earliest_unique; eassumption|].
  split.
  - intros Hneq.
    assert (Hlate : late_primary particles_v g = true).
    { unfold late_primary. fold idxs. rewrite Hk.
      apply negb_true_iff, Nat.eqb_neq. assumption. }
    rewrite <- Hdem in Hlate.
    destruct (demoted_group_resolved clusters particles_v Hwf g Hin Hlate)
      as (Hgt & _ & Hmem).
    eexists. split; [exact Hgt | exact Hmem].
  - intros Heq.
    assert (Hlate : late_primary particles_v g = false).
    { unfold late_primary. fold idxs. rewrite Hk.
      apply negb_false_iff, Nat.eqb_eq. assumption. }
    rewrite <- Hdem in Hlate.
    now apply kept_group_resolved.
Qed.

(** C2. On a well-formed event, let [g] be a declared group id whose
    primary is a shower (0) or low-energy (4) particle with "Inelastic" or
    "Capture" in its creation process, or with a parent PDG code of
    absolute value 13.  Whatever the clusters and the times are, the
    iteration for [g] demotes the current members of [g] at once, without
    reading any cluster or time; after the loop all members of the group,
    and no other particle, hold one common minted id, above every declared
    id. *)
Theorem process_pdg_veto (clusters : cluster_event) (particles_v : list particle)
    (g : nat) (p : particle) :
  well_formed clusters particles_v ->
  In g (map group_id particles_v) ->
  nth_error particles_v g = Some p ->
  (shape p = 0 \/ shape p = 4)%Z ->
  (str_in "Inelastic"%string (creation_process p) = true \/
   str_in "Capture"%string (creation_process p) = true \/
   Z.abs (parent_pdg_code p) = 13%Z) ->
  (forall (any_clusters : cluster_event) (st : loop_state),
     group_step any_clusters particles_v st g
     = Ok (demote st (Np.where_eq (group_ids st) g))) /\
  exists resolved fresh,
    resolve_group_ids clusters particles_v = Ok resolved /\
    (forall d, In d (map group_id particles_v) -> d < fresh) /\
    forall m, member particles_v g m <-> nth_error resolved m = Some fresh.
Proof.
  intros Hwf Hin Hp Hshape Hproc.
  assert (Hveto : process_veto p = true) by (apply process_veto_true; auto).
  assert (Hgate : shape_gate p = true) by (apply shape_gate_true; auto).
  split.
  - intros any_clusters st. unfold group_step.
    assert (getitem particles_v g = Ok p) as -> by now apply getitem_Ok.
    simpl. unfold shape_gate in Hgate. apply orb_true_iff in Hgate.
    assert (negb (shape p =? 0)%Z && negb (shape p =? 4)%Z = false) as ->.
    { destruct Hgate as [-> | ->]; simpl; [reflexivity | apply andb_false_r]. }
    fold (process_veto p). rewrite Hveto. reflexivity.
  - assert (Hdem : demoted clusters particles_v g = true).
    { unfold demoted. rewrite Hp, Hgate, Hveto. reflexivity. }
    destruct (demoted_group_resolved clusters particles_v Hwf g Hin Hdem)
      as (Hgt & _ & Hmem).
    eexists. eexists. split; [now apply resolved_Ok|].
    split; [exact Hgt | exact Hmem].
Qed.

(** C4. On a well-formed event, if the primary [particles_v[g]] of a
    declared group is neither a shower (0) nor a low-energy (4) particle,
    the loop does not raise and every member of the group keeps the
    declared group id [g], whatever the clusters hold. *)
Theorem shape_gate_keeps_group (clusters : cluster_event)
    (particles_v : list particle) (g : nat) (p : particle) :
  well_formed clusters particles_v ->
  nth_error particles_v g = Some p ->
  shape p <> 0%Z -> shape p <> 4%Z ->
  exists resolved,
    resolve_group_ids clusters particles_v = Ok resolved /\
    forall m, member particles_v g m -> nth_error resolved m = Some g.
Proof.
  intros Hwf Hp H0 H4.
  eexists. split; [now apply resolved_Ok|].
  apply kept_group_resolved. unfold demoted, shape_gate. rewrite Hp.
  apply Z.eqb_neq in H0, H4. rewrite H0, H4. reflexivity.
Qed.

(** ** The counter of minted ids *)

Lemma sorted_lt_ext (l1 l2 : list nat) :
  StronglySorted lt l1 -> StronglySorted lt l2 ->
  (forall x, In x l1 <-> In x l2) -> l1 = l2.
Proof.
  intros H1. revert l2. induction H1 as [|a r1 Hs1 IH Ha]; intros l2 H2 Hext.
  - destruct l2 as [|b r2]; [reflexivity|].
    exfalso. apply (Hext b). simpl; auto.
  - destruct H2 as [|b r2 Hs2 Hb].
    + exfalso. apply (Hext a). simpl; auto.
    + rewrite Forall_forall in Ha, Hb.
      assert (a = b).
      { destruct (proj1 (Hext a) (or_introl eq_refl)) as [E|Hin]; [auto|].
        destruct (proj2 (Hext b) (or_introl eq_refl)) as [E|Hin']; [auto|].
        specialize (Ha _ Hin'). specialize (Hb _ Hin). lia. }
      subst b. f_equal. apply IH; [assumption|].
      intros x. split; intros Hx.
      * destruct (proj1 (Hext x) (or_intror Hx)) as [E|Hin]; [|assumption].
        specialize (Ha _ Hx). lia.
      * destruct (proj2 (Hext x) (or_intror Hx)) as [E|Hin]; [|assumption].
        specialize (Hb _ Hx). lia.
Qed.

Lemma StronglySorted_filter {A : Type} (R : A -> A -> Prop) (f : A -> bool)
    (l : list A) :
  StronglySorted R l -> StronglySorted R (filter f l).
Proof.
  induction 1 as [|a r Hs IH Ha]; simpl; [constructor|].
  destruct (f a); [|assumption].
  constructor; [assumption|].
  rewrite Forall_forall in *. intros x Hx. apply filter_In in Hx. apply Ha, Hx.
Qed.

Lemma filter_comm {A : Type} (f g : A -> bool) (l : list A) :
  filter f (filter g l) = filter g (filter f l).
Proof.
  induction l as [|a r IH]; simpl; [reflexivity|].
  destruct (f a) eqn:Ef, (g a) eqn:Eg; simpl; rewrite ?Ef, ?Eg, IH; reflexivity.
Qed.

Lemma in_combine_map {A B : Type} (f : A -> B) (l : list A) (x : A) (y : B) :
  In (x, y) (combine l (map f l)) <-> In x l /\ y = f x.
Proof.
  induction l as [|a r IH]; simpl; [tauto|].
  rewrite IH. split.
  - intros [E|[H ->]]; [inversion E; auto | auto].
  - intros [[->|H] ->]; auto.
Qed.

(** The groups whose ids changed are the demoted groups, in visiting order. *)
Lemma demoted_groups_char (clusters : cluster_event) (particles_v : list particle) :
  well_formed clusters particles_v ->
  let declared := map group_id particles_v in
  demoted_groups declared
    (map (resolved_after clusters particles_v (Np.unique declared)) declared)
  = filter (demoted clusters particles_v) (Np.unique declared).
Proof.
  intros Hwf declared. apply sorted_lt_ext.
  - apply unique_sorted.
  - apply StronglySorted_filter, unique_sorted.
  - intros x. unfold demoted_groups. rewrite unique_In, in_map_iff, filter_In, unique_In.
    split.
    + intros ([d r] & <- & H). apply filter_In in H as [H Hne]. simpl in *.
      apply in_combine_map in H as [Hd ->].
      apply negb_true_iff, Nat.eqb_neq in Hne.
      split; [assumption|].
      apply (resolved_after_changed clusters particles_v Hwf d Hd).
      intros E. apply Hne. symmetry. exact E.
    + intros [Hd Hdem].
      exists (x, resolved_after clusters particles_v (Np.unique declared) x).
      split; [reflexivity|]. apply filter_In. split.
      * apply in_combine_map. auto.
      * simpl. apply negb_true_iff, Nat.eqb_neq.
        intros E. symmetry in E. revert E.
        now apply (resolved_after_changed clusters particles_v Hwf x Hd).
Qed.

(** C3. On a well-formed event the loop does not raise, and every id that
    replaces a declared group id [d] is [num_clusters + 1] plus the number
    of demoted groups with a smaller declared id.  Hence it is above every
    declared group id of the event, the members of one demoted group share
    it, and a demoted group with a larger declared id holds a larger
    minted id. *)
Theorem minted_ids_monotone (clusters : cluster_event) (particles_v : list particle) :
  well_formed clusters particles_v ->
  exists resolved,
    resolve_group_ids clusters particles_v = Ok resolved /\
    let declared := map group_id particles_v in
    forall m d r,
      nth_error declared m = Some d -> nth_error resolved m = Some r -> r <> d ->
      r = length clusters + 1
          + length (filter (fun g => g <? d) (demoted_groups declared resolved)) /\
      (forall d', In d' declared -> d' < r) /\
      (forall m' d' r',
         nth_error declared m' = Some d' -> nth_error resolved m' = Some r' ->
         r' <> d' -> (d < d' -> r < r') /\ (d = d' -> r = r')).
Proof.
  intros Hwf. eexists. split; [now apply resolved_Ok|].
  intros declared.
  assert (Hr : forall m d r,
             nth_error declared m = Some d ->
             nth_error (map (resolved_after clusters particles_v (Np.unique declared))
                            declared) m = Some r ->
             r <> d ->
             In d declared /\ demoted clusters particles_v d = true /\
             r = minted clusters particles_v (Np.unique declared) d).
  { intros m d r Hd Hres Hne.
    apply (resolved_nth clusters particles_v) in Hres as (d0 & Hd0 & ->).
    fold declared in Hd0. rewrite Hd in Hd0. inversion Hd0; subst d0.
    assert (Hin : In d declared) by (eapply nth_error_In; eassumption).
    assert (Hdem : demoted clusters particles_v d = true)
      by now apply (resolved_after_changed clusters particles_v Hwf d Hin).
    repeat split; try assumption.
    now apply resolved_after_demoted. }
  intros m d r Hd Hres Hne.
  destruct (Hr m d r Hd Hres Hne) as (Hin & Hdem & ->).
  split; [|split].
  - unfold declared. rewrite demoted_groups_char by assumption.
    unfold minted. rewrite filter_comm. reflexivity.
  - intros d' Hd'. apply (minted_gt clusters particles_v Hwf). exact Hd'.
  - intros m' d' r' Hd' Hres' Hne'.
    destruct (Hr m' d' r' Hd' Hres' Hne') as (Hin' & Hdem' & ->).
    split.
    + intros Hlt. apply minted_lt; [assumption | now apply unique_In | assumption].
    + intros ->. reflexivity.
Qed.

(** ** Shapes of the arrays [parse_cluster3d_full] builds *)

Lemma append_rows_shape (a b : farray) (n1 n2 k : nat) :
  has_shape n1 k a -> has_shape n2 k b ->
  exists r, append_rows a b = Ok r /\ has_shape (n1 + n2) k r.
Proof.
  revert b k. induction a as [|ca ra IH]; intros b k [Hka Ha] [Hkb Hb].
  - destruct b; [|simpl in *; lia]. exists []. split; [reflexivity|].
    split; [assumption | constructor].
  - destruct b as [|cb rb]; [simpl in *; lia|].
    inversion Ha; inversion Hb; subst. simpl in Hkb.
    destruct (IH rb (length ra)) as (r & Hr & Hk & Hall).
    + split; auto.
    + split; [lia | assumption].
    + exists ((ca ++ cb) :: r). simpl. rewrite Hr. simpl. split; [reflexivity|].
      split; [simpl; lia|]. constructor; [|assumption].
      rewrite length_app. lia.
Qed.

Lemma concatenate_rows_from_shape (arrays : list farray) (xyzs : list (list coord))
    (acc : farray) (n k : nat) :
  has_shape n k acc ->
  Forall2 (fun xyz f => has_shape (length xyz) k f) xyzs arrays ->
  exists r, concatenate_rows_from acc arrays = Ok r /\
            has_shape (n + length (concat xyzs)) k r.
Proof.
  intros Hacc H. revert acc n Hacc.
  induction H as [|xyz f xyzs arrays Hf H IH]; intros acc n Hacc; simpl.
  - exists acc. rewrite Nat.add_0_r. auto.
  - destruct (append_rows_shape acc f n (length xyz) k Hacc Hf) as (r & Hr & Hs).
    rewrite Hr. simpl. destruct (IH r _ Hs) as (r' & Hr' & Hs').
    exists r'. split; [assumption|]. rewrite length_app.
    now rewrite Nat.add_assoc.
Qed.

Lemma fill_step_shape (clusters : cluster_event) (particles_v : list particle)
    (gids : list nat) (cv : list (list coord)) (cf : list farray) (i : nat)
    (cv' : list (list coord)) (cf' : list farray) :
  Forall2 (fun xyz f => has_shape (length xyz) 4 f) cv cf ->
  fill_step clusters particles_v gids (cv, cf) i = Ok (cv', cf') ->
  Forall2 (fun xyz f => has_shape (length xyz) 4 f) cv' cf'.
Proof.
  intros Hinv H. unfold fill_step in H.
  apply bind_Ok_inv in H as (cluster & _ & H).
  destruct (0 <? length cluster); [|inversion H; subst; assumption].
  apply bind_Ok_inv in H as (p & _ & H).
  destruct (negb (i =? id p)); [discriminate|].
  apply bind_Ok_inv in H as (g & _ & H).
  inversion H; subst. apply Forall2_app; [assumption|].
  constructor; [|constructor].
  split; [reflexivity|].
  repeat constructor; rewrite ?length_map, ?repeat_length; reflexivity.
Qed.

Lemma foldM_fill_shape (clusters : cluster_event) (particles_v : list particle)
    (gids : list nat) (l : list nat) (cv : list (list coord)) (cf : list farray)
    (cv' : list (list coord)) (cf' : list farray) :
  Forall2 (fun xyz f => has_shape (length xyz) 4 f) cv cf ->
  foldM (fill_step clusters particles_v gids) l (cv, cf) = Ok (cv', cf') ->
  Forall2 (fun xyz f => has_shape (length xyz) 4 f) cv' cf'.
Proof.
  revert cv cf. induction l as [|i l IH]; intros cv cf Hinv H; simpl in H.
  - inversion H; subst; assumption.
  - apply bind_Ok_inv in H as ([cv1 cf1] & H1 & H).
    eapply IH; [|exact H]. eapply fill_step_shape; eassumption.
Qed.

(** The features of [parse_cluster3d_full] have four columns and one row
    per voxel. *)
Lemma parse_cluster3d_full_shape (data : cluster_event * list particle)
    (np_voxels : list coord) (np_features : farray) :
  parse_cluster3d_full data = Ok (np_voxels, np_features) ->
  has_shape (length np_voxels) 4 np_features.
Proof.
  destruct data as [clusters particles_v]. unfold parse_cluster3d_full.
  intros H.
  apply bind_Ok_inv in H as (gids & _ & H).
  apply bind_Ok_inv in H as ([cv cf] & Hfold & H).
  apply foldM_fill_shape in Hfold; [|constructor].
  apply bind_Ok_inv in H as (vox & Hvox & H).
  apply bind_Ok_inv in H as (feats & Hfeats & H).
  inversion H; subst.
  destruct Hfold as [|xyz f cv cf Hf Hrest]; [discriminate|].
  simpl in Hvox. inversion Hvox; subst. simpl in Hfeats.
  destruct (concatenate_rows_from_shape cf cv f _ 4 Hf Hrest) as (r & Hr & Hs).
  rewrite Hr in Hfeats. inversion Hfeats; subst.
  rewrite length_app. exact Hs.
Qed.

(** ** Events without voxels *)

Lemma fill_step_empty (clusters : cluster_event) (particles_v : list particle)
    (gids : list nat) (acc acc' : list (list coord) * list farray) (i : nat) :
  particles_v = [] \/ Forall (fun c => c = []) clusters ->
  fill_step clusters particles_v gids acc i = Ok acc' -> acc' = acc.
Proof.
  intros Hempty H. unfold fill_step in H. destruct acc as [cv cf].
  apply bind_Ok_inv in H as (cluster & Hc & H).
  destruct (0 <? length cluster) eqn:E; [|inversion H; reflexivity].
  exfalso. destruct Hempty as [-> | Hall].
  - apply bind_Ok_inv in H as (p & Hp & _).
    unfold getitem in Hp. destruct i; discriminate.
  - apply getitem_Ok, nth_error_In in Hc.
    rewrite Forall_forall in Hall. rewrite (Hall _ Hc) in E. discriminate.
Qed.

Lemma foldM_fill_empty (clusters : cluster_event) (particles_v : list particle)
    (gids : list nat) (l : list nat) (acc acc' : list (list coord) * list farray) :
  particles_v = [] \/ Forall (fun c => c = []) clusters ->
  foldM (fill_step clusters particles_v gids) l acc = Ok acc' -> acc' = acc.
Proof.
  intros Hempty. revert acc. induction l as [|i l IH]; intros acc H; simpl in H.
  - inversion H; reflexivity.
  - apply bind_Ok_inv in H as (acc1 & H1 & H).
    apply fill_step_empty in H1; [|assumption]. subst acc1. auto.
Qed.

(** An event without particles, or whose clusters are all empty, never
    yields arrays: every path ends in an exception. *)
Lemma parse_cluster3d_full_empty_raises (clusters : cluster_event)
    (particles_v : list particle) :
  particles_v = [] \/ Forall (fun c => c = []) clusters ->
  exists e, parse_cluster3d_full (clusters, particles_v) = Raise e.
Proof.
  intros Hempty. unfold parse_cluster3d_full.
  destruct (resolve_group_ids clusters particles_v) as [gids|e]; simpl; [|eauto].
  destruct (foldM (fill_step clusters particles_v gids) (seq 0 (length clusters))
              ([], [])) as [[cv cf]|e] eqn:E; simpl; [|eauto].
  apply foldM_fill_empty in E; [|assumption]. inversion E; subst.
  simpl. eauto.
Qed.

(** On a well-formed event whose clusters are all empty the exception is
    the [ValueError] of [np.concatenate]. *)
Lemma parse_cluster3d_full_empty_ValueError (clusters : cluster_event)
    (particles_v : list particle) :
  well_formed clusters particles_v ->
  Forall (fun c => c = []) clusters ->
  parse_cluster3d_full (clusters, particles_v) = Raise ValueError.
Proof.
  intros Hwf Hall. unfold parse_cluster3d_full.
  rewrite resolved_Ok by assumption. simpl.
  match goal with
  | |- context [foldM ?f ?l ?a] => destruct (foldM f l a) as [[cv cf]|e] eqn:E
  end.
  - apply foldM_fill_empty in E; [|auto]. inversion E; subst. reflexivity.
  - exfalso. revert E. generalize (@nil (list coord), @nil farray).
    assert (Hseq : forall i, In i (seq 0 (length clusters)) ->
                     nth_error clusters i = Some []).
    { intros i Hi. apply in_seq in Hi.
      destruct (nth_error clusters i) as [c|] eqn:Ec.
      - rewrite Forall_forall in Hall. now rewrite (Hall c (nth_error_In _ _ Ec)).
      - apply nth_error_None in Ec. lia. }
    induction (seq 0 (length clusters)) as [|i l IH]; intros acc E; simpl in E.
    + discriminate.
    + unfold fill_step at 1 in E. destruct acc as [cv cf].
      unfold getitem in E. rewrite (Hseq i (or_introl eq_refl)) in E. simpl in E.
      apply IH in E; [assumption|]. intros; apply Hseq; simpl; auto.
Qed.

(** C5 (the code departs from the claim).  An event without particles and
    an event of two particles whose clusters are both empty do not yield
    empty arrays: [np.concatenate] receives an empty list and raises
    [ValueError]. *)
Theorem empty_event_raises_ValueError :
  parse_cluster3d_full ([], []) = Raise ValueError /\
  parse_cluster3d_full
    ([[]; []],
     [mkParticle 0 0 1 "primary" 0 0; mkParticle 1 0 0 "conv" 22 1])
  = Raise ValueError.
Proof. split; reflexivity. Qed.
(** ** Arrays of four columns *)

Lemma shape4_inv (n : nat) (a : farray) :
  has_shape n 4 a ->
  exists v c g s, a = [v; c; g; s] /\
    length v = n /\ length c = n /\ length g = n /\ length s = n.
Proof.
  intros [Hk Hall].
  destruct a as [|v [|c [|g [|s [|]]]]]; simpl in Hk; try lia.
  inversion Hall as [|? ? Hv H1]; subst.
  inversion H1 as [|? ? Hc H2]; subst.
  inversion H2 as [|? ? Hg H3]; subst.
  inversion H3 as [|? ? Hs _]; subst.
  exists v, c, g, s. auto.
Qed.


(** ** [np.argmax] *)

Lemma argmax_from_spec (l full : list Q) (bi i : nat) (b : Q) :
  bi < i -> i + length l = length full ->
  nth bi full 0%Q = b -> skipn i full = l ->
  (forall j, j < i -> (nth j full 0 <= b)%Q /\ (j < bi -> (nth j full 0 < b)%Q)) ->
  let k := Np.argmax_from bi b i l in
  k < length full /\
  forall j, j < length full ->
    (nth j full 0 <= nth k full 0)%Q /\ (j < k -> (nth j full 0 < nth k full 0)%Q).
Proof.
  revert bi i b. induction l as [|x r IH]; intros bi i b Hbi Hlen Hb Hskip Hinv; simpl.
  - simpl in Hlen. split; [lia|]. intros j Hj. rewrite Hb. apply Hinv. lia.
  - simpl in Hlen. apply (skipn_cons_nth 0%Q) in Hskip as [Hx Hskip].
    destruct (Qltb b x) eqn:E.
    + apply Qltb_lt in E. apply IH; try lia; try assumption.
      intros j Hj. destruct (Nat.eq_dec j i) as [->|Hne].
      * rewrite Hx. split; [apply Qle_refl | lia].
      * destruct (Hinv j ltac:(lia)) as [H1 _].
        assert (nth j full 0 < x)%Q by (eapply Qle_lt_trans; eassumption).
        split; [apply Qlt_le_weak|]; auto.
    + apply Qltb_ge in E. apply IH; try lia; try assumption.
      intros j Hj. destruct (Nat.eq_dec j i) as [->|Hne].
      * rewrite Hx. split; [assumption | lia].
      * apply Hinv. lia.
Qed.

(** [np.argmax] of a non-empty array is the first position of its maximum. *)
Lemma argmax_spec (l : list Q) :
  l <> [] ->
  exists k, Np.argmax l = Ok k /\ k < length l /\
    forall j, j < length l ->
      (nth j l 0 <= nth k l 0)%Q /\ (j < k -> (nth j l 0 < nth k l 0)%Q).
Proof.
  destruct l as [|x r]; [congruence|]. intros _.
  exists (Np.argmax_from 0 x 1 r). split; [reflexivity|].
  apply (argmax_from_spec r (x :: r) 0 1 x); simpl; auto.
  intros j Hj. assert (j = 0) as -> by lia. simpl.
  split; [apply Qle_refl | lia].
Qed.

(** ** The particle record *)

(** Whatever is assigned to [depositions], the [depositions_sum] property
    reads [_size], which the assignment does not touch. *)
Lemma depositions_sum_reads_size (self : Particle.t) (depositions : list Q) :
  Particle.depositions_sum (Particle.set_depositions self depositions)
  = Particle._size self /\
  Particle._depositions_sum (Particle.set_depositions self depositions)
  = Particle.PyFloat (Particle.np_sum depositions).
Proof. split; reflexivity. Qed.

(** C9 (the code departs from the claim).  A particle built with an empty
    voxel index and the depositions [1.5, 2.0] stores their sum 3.5 in
    [_depositions_sum], but its [depositions_sum] property returns the
    integer 0, the voxel count; assigning [4.0, 1.0] through the setter
    stores 5.0 and the property still returns 0. *)
Theorem depositions_sum_returns_size :
  exists self,
    Particle.init
      (Particle.mk_args 3 [] (-1) (-1) (-1) (-1) (-1) (-1) (-1) []
         [1.5%Q; 2%Q] [-1; -1; -1; -1; -1]%Q [-1; -1]%Q) = Ok self /\
    Particle._depositions_sum self = Particle.PyFloat 3.5%Q /\
    Particle.depositions_sum self = Particle.PyInt 0 /\
    Particle._depositions_sum (Particle.set_depositions self [4%Q; 1%Q])
    = Particle.PyFloat 5%Q /\
    Particle.depositions_sum (Particle.set_depositions self [4%Q; 1%Q])
    = Particle.PyInt 0.
Proof.
  eexists. split; [reflexivity|]. repeat split; reflexivity.
Qed.

(** C10.  For a non-empty scores array [s], the [pid_scores] setter does
    not raise, stores [s] and leaves [pid] at [np.argmax(s)], the first
    position of the maximum, whether or not [s[0]] is negative.  After
    [__init__] with non-empty score arrays, [pid] is the [pid] argument
    when all scores are negative and [np.argmax] of the scores
    otherwise. *)
Theorem pid_scores_setter_argmax (self : Particle.t) (s : list Q)
    (a : Particle.init_args) :
  s <> [] ->
  Particle.arg_pid_scores a <> [] ->
  Particle.arg_primary_scores a <> [] ->
  (exists k self',
     Np.argmax s = Ok k /\
     k < length s /\
     (forall j, j < length s ->
        (nth j s 0 <= nth k s 0)%Q /\ (j < k -> (nth j s 0 < nth k s 0)%Q)) /\
     Particle.set_pid_scores self s = Ok self' /\
     Particle.pid self' = Particle.PyInt (Z.of_nat k) /\
     Particle._pid_scores self' = Some s) /\
  (exists k built,
     Np.argmax (Particle.arg_pid_scores a) = Ok k /\
     Particle.init a = Ok built /\
     Particle.pid built
     = if Particle.all_negative (Particle.arg_pid_scores a)
       then Particle.PyInt (Particle.arg_pid a)
       else Particle.PyInt (Z.of_nat k)).
Proof.
  intros Hs Hpid Hprim. split.
  - destruct s as [|s0 r]; [congruence|].
    destruct (argmax_spec (s0 :: r) Hs) as (k & Hk & Hlen & Hmax).
    exists k. eexists. split; [exact Hk|]. split; [exact Hlen|].
    split; [exact Hmax|].
    unfold Particle.set_pid_scores. rewrite Hk. cbn.
    split; [reflexivity|]. split; reflexivity.
  - destruct a as [gi fi ii ni vi mi st p ip ix dp ps prs]. cbn in *.
    destruct ps as [|s0 r]; [congruence|].
    destruct prs as [|t0 r']; [congruence|].
    destruct (argmax_spec _ Hpid) as (k & Hk & _).
    destruct (argmax_spec _ Hprim) as (k' & Hk' & _).
    exists k. unfold Particle.init, Particle.set_pid_scores,
      Particle.set_primary_scores.
    cbn [Particle.arg_pid_scores Particle.arg_primary_scores].
    rewrite Hk, Hk'. cbn.
    eexists. split; [reflexivity|]. split; [reflexivity|].
    destruct (Qltb s0 0), (forallb (fun s1 => Qltb s1 0) r),
             (Qltb t0 0), (forallb (fun s1 => Qltb s1 0) r'); reflexivity.
Qed.

(** ** Stable sorting *)

Section SortFacts.

Context {A : Type} (leb : A -> A -> bool).

Lemma insert_sorted_perm (x : A) (l : list A) :
  Permutation (insert_sorted leb x l) (x :: l).
Proof.
  induction l as [|y r IH]; simpl; [reflexivity|].
  destruct (leb x y); [reflexivity|].
  rewrite IH. apply perm_swap.
Qed.

Lemma stable_sort_perm (l : list A) : Permutation (stable_sort leb l) l.
Proof.
  induction l as [|x r IH]; simpl; [reflexivity|].
  rewrite insert_sorted_perm. now constructor.
Qed.

Lemma stable_sort_length (l : list A) : length (stable_sort leb l) = length l.
Proof. apply Permutation_length, stable_sort_perm. Qed.

Lemma stable_sort_In (l : list A) (x : A) : In x (stable_sort leb l) <-> In x l.
Proof.
  split; apply Permutation_in; [|symmetry]; apply stable_sort_perm.
Qed.

(** A predicate that holds on elements of one key only sees the same first
    element before and after a stable sort. *)
Lemma find_insert_sorted (P : A -> bool) (x : A) (l : list A) :
  (forall y, P x = true -> P y = true -> leb x y = true) ->
  find P (insert_sorted leb x l) = if P x then Some x else find P l.
Proof.
  intros HP. induction l as [|y r IH]; simpl; [reflexivity|].
  destruct (leb x y) eqn:E; simpl; [reflexivity|].
  rewrite IH. destruct (P y) eqn:Ey, (P x) eqn:Ex; try reflexivity.
  rewrite (HP y eq_refl Ey) in E. discriminate.
Qed.

Lemma find_stable_sort (P : A -> bool) (l : list A) :
  (forall x y, P x = true -> P y = true -> leb x y = true) ->
  find P (stable_sort leb l) = find P l.
Proof.
  intros HP. induction l as [|x r IH]; simpl; [reflexivity|].
  rewrite find_insert_sorted by (intros; now apply HP).
  now rewrite IH.
Qed.

Hypothesis leb_total : forall a b, leb a b = true \/ leb b a = true.
Hypothesis leb_trans : forall a b c, leb a b = true -> leb b c = true -> leb a c = true.

Lemma insert_sorted_sorted (x : A) (l : list A) :
  StronglySorted (fun a b => leb a b = true) l ->
  StronglySorted (fun a b => leb a b = true) (insert_sorted leb x l).
Proof.
  induction 1 as [|y r Hs IH Hall]; simpl; [repeat constructor|].
  destruct (leb x y) eqn:E.
  - constructor; [constructor; assumption|].
    constructor; [assumption|].
    eapply Forall_impl; [|exact Hall]. simpl. intros z Hz. eapply leb_trans; eassumption.
  - constructor; [assumption|].
    assert (Hyx : leb y x = true) by (destruct (leb_total x y); congruence).
    apply Forall_forall. intros z Hz.
    apply (Permutation_in _ (insert_sorted_perm x r)) in Hz.
    destruct Hz as [<-|Hz]; [assumption|].
    rewrite Forall_forall in Hall. auto.
Qed.

Lemma stable_sort_sorted (l : list A) :
  StronglySorted (fun a b => leb a b = true) (stable_sort leb l).
Proof.
  induction l as [|x r IH]; simpl; [constructor|].
  now apply insert_sorted_sorted.
Qed.

Hypothesis leb_antisym : forall a b, leb a b = true -> leb b a = true -> a = b.

(** Two sorted arrangements of the same elements are equal. *)
Lemma sorted_perm_eq (l m : list A) :
  StronglySorted (fun a b => leb a b = true) l ->
  StronglySorted (fun a b => leb a b = true) m ->
  Permutation l m -> l = m.
Proof.
  intros Hl. revert m. induction Hl as [|a l Hl IH Ha]; intros m Hm Hp.
  - apply Permutation_nil in Hp. now subst.
  - destruct Hm as [|b m Hm Hb].
    + symmetry in Hp. apply Permutation_nil in Hp. discriminate.
    + assert (a = b).
      { rewrite Forall_forall in Ha, Hb.
        assert (Hin : In a (b :: m)) by (eapply Permutation_in; [exact Hp | simpl; auto]).
        assert (Hin' : In b (a :: l))
          by (eapply Permutation_in; [symmetry; exact Hp | simpl; auto]).
        destruct Hin as [E|Hin]; [auto|].
        destruct Hin' as [E|Hin']; [auto|].
        apply leb_antisym; auto. }
      subst b. f_equal. apply IH; [assumption|].
      eapply Permutation_cons_inv; eassumption.
Qed.

End SortFacts.

Lemma insert_sorted_map {A B : Type} (leA : A -> A -> bool) (leB : B -> B -> bool)
    (h : A -> B) (x : A) (l : list A) :
  (forall a b, leB (h a) (h b) = leA a b) ->
  insert_sorted leB (h x) (map h l) = map h (insert_sorted leA x l).
Proof.
  intros H. induction l as [|y r IH]; simpl; [reflexivity|].
  rewrite H. destruct (leA x y); simpl; [reflexivity|]. now rewrite IH.
Qed.

(** Sorting commutes with a map that preserves the comparison. *)
Lemma stable_sort_map {A B : Type} (leA : A -> A -> bool) (leB : B -> B -> bool)
    (h : A -> B) (l : list A) :
  (forall a b, leB (h a) (h b) = leA a b) ->
  stable_sort leB (map h l) = map h (stable_sort leA l).
Proof.
  intros H. induction l as [|x r IH]; simpl; [reflexivity|].
  rewrite IH. now apply insert_sorted_map.
Qed.

(** ** Index arrays and masks *)

Lemma enumerate_from_map {A B : Type} (h : A -> B) (l : list A) (i : nat) :
  combine (seq i (length (map h l))) (map h l)
  = map (fun p => (fst p, h (snd p))) (combine (seq i (length l)) l).
Proof.
  revert i. induction l as [|x r IH]; intros i; simpl; [reflexivity|].
  now rewrite IH.
Qed.

Lemma in_enumerate_from {A : Type} (l : list A) (i j : nat) (x : A) :
  In (j, x) (combine (seq i (length l)) l) -> i <= j /\ nth_error l (j - i) = Some x.
Proof.
  revert i. induction l as [|y r IH]; intros i H; simpl in H; [contradiction|].
  destruct H as [E|H].
  - inversion E; subst. rewrite Nat.sub_diag. auto.
  - apply IH in H as [Hle H]. split; [lia|].
    replace (j - i) with (S (j - S i)) by lia. exact H.
Qed.

Lemma in_enumerate {A : Type} (l : list A) (j : nat) (x : A) :
  In (j, x) (enumerate l) -> nth_error l j = Some x.
Proof.
  intros H. apply in_enumerate_from in H as [_ H]. now rewrite Nat.sub_0_r in H.
Qed.

Lemma enumerate_snd {A : Type} (l : list A) : map snd (enumerate l) = l.
Proof.
  unfold enumerate. generalize 0. induction l as [|x r IH]; intros i; simpl;
    [reflexivity | now rewrite IH].
Qed.

(** Indexing the image of [l] with the argsort of its keys yields the
    image of the stably sorted [l]. *)
Lemma take_argsort {A B C : Type} (leb : A -> A -> bool) (k : B -> A) (f : B -> C)
    (l : list B) :
  take (map f l) (argsort leb (map k l))
  = Ok (map f (stable_sort (fun x y => leb (k x) (k y)) l)).
Proof.
  unfold argsort, enumerate. rewrite enumerate_from_map.
  rewrite (stable_sort_map (fun p q : nat * B => leb (k (snd p)) (k (snd q))))
    by reflexivity.
  rewrite map_map. cbn [fst].
  set (S := stable_sort (fun p q : nat * B => leb (k (snd p)) (k (snd q)))
              (combine (seq 0 (length l)) l)).
  assert (Hsnd : map snd S = stable_sort (fun x y => leb (k x) (k y)) l).
  { unfold S. rewrite <- (stable_sort_map
      (fun p q : nat * B => leb (k (snd p)) (k (snd q)))
      (fun x y => leb (k x) (k y)) snd) by reflexivity.
    f_equal. apply enumerate_snd. }
  rewrite <- Hsnd, map_map. unfold take.
  assert (HS : forall p, In p S -> nth_error l (fst p) = Some (snd p)).
  { intros [j x] Hp. apply stable_sort_In in Hp. now apply in_enumerate. }
  clearbody S. clear Hsnd.
  induction S as [|p S IH]; simpl; [reflexivity|].
  unfold getitem at 1. rewrite nth_error_map, (HS p (or_introl eq_refl)). simpl.
  rewrite IH by (intros; apply HS; simpl; auto). reflexivity.
Qed.

Lemma take_argsort_id {A : Type} (leb : A -> A -> bool) (l : list A) :
  take l (argsort leb l) = Ok (stable_sort leb l).
Proof.
  pose proof (take_argsort leb (fun x => x) (fun x => x) l) as H.
  rewrite !map_id in H. exact H.
Qed.

Lemma take_Ok_length {A : Type} (a : list A) (idxs : list nat) (r : list A) :
  take a idxs = Ok r -> length r = length idxs.
Proof. apply mapM_Ok_length. Qed.

Lemma take_rows_shape (a : farray) (idxs : list nat) (r : farray) :
  take_rows a idxs = Ok r -> has_shape (length idxs) (length a) r.
Proof.
  unfold take_rows. revert r. induction a as [|c a IH]; simpl; intros r H.
  - inversion H. split; [reflexivity | constructor].
  - apply bind_Ok_inv in H as (c' & Hc & H).
    apply bind_Ok_inv in H as (r' & Hr & H). inversion H; subst.
    destruct (IH _ Hr) as [Hk Hall]. split; [simpl; lia|].
    constructor; [eapply take_Ok_length; eassumption | assumption].
Qed.

Lemma bool_index_compress {A : Type} (l : list A) (mask : list bool) :
  length mask = length l -> bool_index l mask = Ok (compress l mask).
Proof.
  revert mask. induction l as [|x r IH]; intros [|b m] H; simpl in *;
    try discriminate; [reflexivity|].
  rewrite IH by lia. destruct b; reflexivity.
Qed.

Lemma compress_map {A B : Type} (f : A -> B) (l : list A) (mask : list bool) :
  compress (map f l) mask = map f (compress l mask).
Proof.
  revert mask. induction l as [|x r IH]; intros [|b m]; simpl; try reflexivity.
  destruct b; simpl; now rewrite IH.
Qed.

Lemma compress_filter {A : Type} (p : A -> bool) (l : list A) :
  compress l (map p l) = filter p l.
Proof.
  induction l as [|x r IH]; simpl; [reflexivity|].
  destruct (p x); now rewrite IH.
Qed.

Lemma take_where_true_from {A : Type} (pre l : list A) (mask : list bool) :
  length mask = length l ->
  take (pre ++ l) (where_true_from (length pre) mask) = Ok (compress l mask).
Proof.
  revert pre mask. induction l as [|x r IH]; intros pre [|b m] H; simpl in *;
    try discriminate; [reflexivity|].
  assert (E : take (pre ++ x :: r) (where_true_from (S (length pre)) m)
              = Ok (compress r m)).
  { replace (pre ++ x :: r) with ((pre ++ [x]) ++ r) by now rewrite <- app_assoc.
    replace (S (length pre)) with (length (pre ++ [x]))
      by (rewrite length_app; simpl; lia).
    apply IH. lia. }
  destruct b; [|exact E].
  unfold take in *. simpl. unfold getitem at 1.
  rewrite nth_error_app2, Nat.sub_diag by lia. simpl. rewrite E. reflexivity.
Qed.

(** [a[np.where(mask)[0]]] keeps the rows the mask selects. *)
Lemma take_where_true {A : Type} (l : list A) (mask : list bool) :
  length mask = length l -> take l (where_true mask) = Ok (compress l mask).
Proof. exact (take_where_true_from [] l mask). Qed.

Lemma argsort_pairs {A B : Type} (leb : A -> A -> bool) (k : B -> A) (l : list B) :
  exists S : list (nat * B),
    argsort leb (map k l) = map fst S /\
    stable_sort (fun x y => leb (k x) (k y)) l = map snd S /\
    forall p, In p S -> nth_error l (fst p) = Some (snd p).
Proof.
  exists (stable_sort (fun p q : nat * B => leb (k (snd p)) (k (snd q))) (enumerate l)).
  split; [|split].
  - unfold argsort, enumerate. rewrite enumerate_from_map.
    rewrite (stable_sort_map (fun p q : nat * B => leb (k (snd p)) (k (snd q))))
      by reflexivity.
    rewrite map_map. reflexivity.
  - rewrite <- (stable_sort_map
      (fun p q : nat * B => leb (k (snd p)) (k (snd q)))
      (fun x y => leb (k x) (k y)) snd) by reflexivity.
    now rewrite enumerate_snd.
  - intros [j x] Hp. apply stable_sort_In in Hp. now apply in_enumerate.
Qed.

Lemma take_pairs {B C : Type} (f : B -> C) (l : list B) (S : list (nat * B)) :
  (forall p, In p S -> nth_error l (fst p) = Some (snd p)) ->
  take (map f l) (map fst S) = Ok (map f (map snd S)).
Proof.
  intros HS. unfold take. induction S as [|p S IH]; simpl; [reflexivity|].
  unfold getitem at 1. rewrite nth_error_map, (HS p (or_introl eq_refl)). simpl.
  rewrite IH by (intros; apply HS; simpl; auto). reflexivity.
Qed.

Lemma compress_In {A : Type} (l : list A) (mask : list bool) (x : A) :
  In x (compress l mask) -> In x l.
Proof.
  revert mask. induction l as [|y r IH]; intros [|b m] H; simpl in *;
    try contradiction.
  destruct b; simpl in H; [destruct H; eauto | eauto].
Qed.

(** Indexing with a masked argsort selects the masked rows of the sorted
    array. *)
Lemma take_argsort_compress {A B C : Type} (leb : A -> A -> bool) (k : B -> A)
    (f : B -> C) (l : list B) (mask : list bool) :
  take (map f l) (compress (argsort leb (map k l)) mask)
  = Ok (map f (compress (stable_sort (fun x y => leb (k x) (k y)) l) mask)).
Proof.
  destruct (argsort_pairs leb k l) as (S & -> & -> & HS).
  rewrite !compress_map. apply take_pairs.
  intros p Hp. apply HS. eapply compress_In; eassumption.
Qed.

Lemma argsort_length {A : Type} (leb : A -> A -> bool) (l : list A) :
  length (argsort leb l) = length l.
Proof.
  unfold argsort, enumerate.
  rewrite length_map, stable_sort_length, length_combine, length_seq. lia.
Qed.

Lemma run_starts_length (prev : option coord) (l : list coord) :
  length (run_starts prev l) = length l.
Proof.
  revert prev. induction l as [|c r IH]; intros prev; simpl; [reflexivity|].
  now rewrite IH.
Qed.

Lemma compress_run_starts (prev : option coord) (l : list voxel) :
  compress l (run_starts prev (map vcoord l)) = run_firsts prev l.
Proof.
  revert prev. induction l as [|w r IH]; intros prev; simpl; [reflexivity|].
  rewrite IH. destruct prev as [p|]; [|reflexivity].
  destruct (coord_eqb p (vcoord w)); reflexivity.
Qed.

(** [np.unique(..., axis=0, return_index=True)] on the coordinates of a
    list of voxels, together with the rows its index array selects. *)
Lemma unique_rows_char {C : Type} (f : voxel -> C) (l : list voxel) :
  exists idx,
    unique_rows (map vcoord l)
    = Ok (map vcoord (run_firsts None (stable_sort (by_coord row_leb) l)), idx) /\
    take (map f l) idx
    = Ok (map f (run_firsts None (stable_sort (by_coord row_leb) l))).
Proof.
  set (R := stable_sort (by_coord row_leb) l).
  set (mask := run_starts None (map vcoord R)).
  exists (compress (argsort row_leb (map vcoord l)) mask).
  assert (Hlen : length mask = length l).
  { unfold mask. rewrite run_starts_length, length_map. apply stable_sort_length. }
  split.
  - unfold unique_rows.
    rewrite (take_argsort row_leb vcoord vcoord l). fold (by_coord row_leb). fold R.
    simpl. fold mask.
    rewrite bool_index_compress by (rewrite length_map; unfold R;
                                    rewrite stable_sort_length; exact Hlen).
    simpl.
    rewrite bool_index_compress by (rewrite argsort_length, length_map; exact Hlen).
    simpl. rewrite compress_map. unfold mask. rewrite compress_run_starts.
    reflexivity.
  - rewrite (take_argsort_compress row_leb vcoord f l mask).
    fold (by_coord row_leb). fold R. unfold mask. now rewrite compress_run_starts.
Qed.

(** The result of [parse_sparse3d_fragment] on one tensor, in closed form. *)
Lemma parse_sparse3d_fragment_char (t : sparse_tensor) :
  parse_sparse3d_fragment [t]
  = Ok (map vcoord (fragment_rows t), [map vvalue (fragment_rows t)]).
Proof.
  unfold parse_sparse3d_fragment, parse_sparse3d_scn. cbn [scn_loop bind].
  cbn [concatenate_cols concatenate_cols_from bind].
  unfold lexsort_T at 1.
  rewrite (take_argsort lexsort_leb vcoord vcoord). cbn [bind].
  unfold take_rows at 1. cbn [mapM bind].
  rewrite (take_argsort lexsort_leb vcoord vvalue). cbn [bind].
  fold (by_coord lexsort_leb).
  set (rows1 := stable_sort (by_coord lexsort_leb) (as_vector t)).
  destruct (unique_rows_char vvalue rows1) as (idx & -> & Hidx). cbn [bind].
  unfold take_rows at 1. cbn [mapM bind]. rewrite Hidx. cbn [bind squeeze1].
  set (rows2 := run_firsts None (stable_sort (by_coord row_leb) rows1)).
  rewrite map_map.
  rewrite (bool_index_compress (map vcoord rows2))
    by (now rewrite !length_map).
  cbn [bind mapM].
  rewrite (bool_index_compress (map vvalue rows2))
    by (now rewrite !length_map).
  cbn [bind]. rewrite !compress_map, compress_filter.
  unfold lexsort_T.
  rewrite (take_argsort lexsort_leb vcoord vcoord). cbn [bind].
  unfold take_rows. cbn [mapM bind].
  rewrite (take_argsort lexsort_leb vcoord vvalue). cbn [bind].
  reflexivity.
Qed.

(** ** The two orders on coordinates *)

Ltac coord_order :=
  repeat match goal with
         | c : coord |- _ => destruct c as [[? ?] ?]
         end;
  unfold lexsort_leb, row_leb, coord_eqb in *;
  repeat rewrite ?orb_true_iff, ?andb_true_iff, ?Z.ltb_lt, ?Z.eqb_eq, ?Z.leb_le in *.

Lemma coord_eqb_eq (a b : coord) : coord_eqb a b = true <-> a = b.
Proof.
  coord_order. split.
  - intros [[-> ->] ->]. reflexivity.
  - intros E. inversion E. auto.
Qed.

Lemma coord_eqb_refl (a : coord) : coord_eqb a a = true.
Proof. now apply coord_eqb_eq. Qed.

Lemma coord_eqb_neq (a b : coord) : coord_eqb a b = false <-> a <> b.
Proof.
  rewrite <- coord_eqb_eq. destruct (coord_eqb a b); split; congruence.
Qed.

Lemma lexsort_leb_total (a b : coord) : lexsort_leb a b = true \/ lexsort_leb b a = true.
Proof. coord_order. lia. Qed.

Lemma lexsort_leb_trans (a b c : coord) :
  lexsort_leb a b = true -> lexsort_leb b c = true -> lexsort_leb a c = true.
Proof. coord_order. lia. Qed.

Lemma lexsort_leb_antisym (a b : coord) :
  lexsort_leb a b = true -> lexsort_leb b a = true -> a = b.
Proof.
  coord_order. intros H1 H2.
  assert (z = z2 /\ z0 = z3 /\ z1 = z4) as (-> & -> & ->) by lia. reflexivity.
Qed.

Lemma lexsort_leb_refl (a : coord) : lexsort_leb a a = true.
Proof. destruct (lexsort_leb_total a a); assumption. Qed.

Lemma row_leb_total (a b : coord) : row_leb a b = true \/ row_leb b a = true.
Proof. coord_order. lia. Qed.

Lemma row_leb_trans (a b c : coord) :
  row_leb a b = true -> row_leb b c = true -> row_leb a c = true.
Proof. coord_order. lia. Qed.

Lemma row_leb_antisym (a b : coord) :
  row_leb a b = true -> row_leb b a = true -> a = b.
Proof.
  coord_order. intros H1 H2.
  assert (z = z2 /\ z0 = z3 /\ z1 = z4) as (-> & -> & ->) by lia. reflexivity.
Qed.

Lemma row_leb_refl (a : coord) : row_leb a a = true.
Proof. destruct (row_leb_total a a); assumption. Qed.

Lemma StronglySorted_map {A B : Type} (R : B -> B -> Prop) (f : A -> B) (l : list A) :
  StronglySorted (fun x y => R (f x) (f y)) l -> StronglySorted R (map f l).
Proof.
  induction 1 as [|x r Hs IH Hall]; simpl; constructor; [assumption|].
  apply Forall_map. exact Hall.
Qed.

Lemma sorted_by_coord (leb : coord -> coord -> bool) (l : list voxel) :
  (forall a b, leb a b = true \/ leb b a = true) ->
  (forall a b c, leb a b = true -> leb b c = true -> leb a c = true) ->
  StronglySorted (fun v w => leb (vcoord v) (vcoord w) = true)
    (stable_sort (by_coord leb) l).
Proof.
  intros Htot Htrans.
  apply (stable_sort_sorted (by_coord leb)); unfold by_coord.
  - intros a b. apply Htot.
  - intros a b c. apply Htrans.
Qed.

(** ** First voxel of every coordinate *)

Lemma first_at_stable_sort (leb : coord -> coord -> bool) (c : coord) (l : list voxel) :
  (forall a, leb a a = true) ->
  first_at c (stable_sort (by_coord leb) l) = first_at c l.
Proof.
  intros Hrefl. unfold first_at. apply find_stable_sort.
  intros x y Hx Hy. apply coord_eqb_eq in Hx, Hy. unfold by_coord.
  rewrite Hx, Hy. apply Hrefl.
Qed.

(** In a list sorted by rows, the run heads have pairwise distinct
    coordinates and each is the first voxel at its coordinate. *)
Lemma run_firsts_spec (prev : option coord) (l : list voxel) :
  StronglySorted (fun v w => row_leb (vcoord v) (vcoord w) = true) l ->
  (forall p, prev = Some p -> Forall (fun w => row_leb p (vcoord w) = true) l) ->
  NoDup (map vcoord (run_firsts prev l)) /\
  forall w, In w (run_firsts prev l) ->
    first_at (vcoord w) l = Some w /\ prev <> Some (vcoord w).
Proof.
  intros Hs. revert prev. induction Hs as [|x r Hs IH Hall]; intros prev Hprev.
  - simpl. split; [constructor | contradiction].
  - destruct (IH (Some (vcoord x))) as [Hnd Hfirst].
    { intros p Hp. inversion Hp; subst. exact Hall. }
    assert (Hrest : forall w, In w (run_firsts (Some (vcoord x)) r) ->
              first_at (vcoord w) (x :: r) = Some w /\ vcoord w <> vcoord x).
    { intros w Hw. destruct (Hfirst w Hw) as [Hf Hne].
      assert (Hne' : vcoord w <> vcoord x) by congruence.
      split; [|assumption]. unfold first_at in *. simpl.
      assert (coord_eqb (vcoord x) (vcoord w) = false) as ->; [|assumption].
      apply coord_eqb_neq. congruence. }
    assert (Hprev' : forall p w, prev = Some p ->
              In w (run_firsts (Some (vcoord x)) r) -> p <> vcoord w).
    { intros p w Hp Hw Epw. destruct (Hrest w Hw) as [Hf Hne].
      apply Hne. specialize (Hprev p Hp). apply Forall_inv in Hprev.
      rewrite Epw in Hprev. apply row_leb_antisym; [assumption|].
      apply find_some in Hf as [Hin _]. destruct Hin as [<-|Hin]; [congruence|].
      rewrite Forall_forall in Hall. auto. }
    assert (Hkeep : NoDup (map vcoord (x :: run_firsts (Some (vcoord x)) r))).
    { simpl. constructor; [|assumption]. intros Hin.
      apply in_map_iff in Hin as (w & Ew & Hw).
      destruct (Hrest w Hw) as [_ Hne]. congruence. }
    assert (Hx : first_at (vcoord x) (x :: r) = Some x).
    { unfold first_at. simpl. now rewrite coord_eqb_refl. }
    destruct prev as [p|]; simpl.
    + destruct (coord_eqb p (vcoord x)) eqn:E.
      * apply coord_eqb_eq in E. subst p. split; [assumption|].
        intros w Hw. destruct (Hrest w Hw). split; [assumption | congruence].
      * apply coord_eqb_neq in E. split; [exact Hkeep|].
        intros w [<-|Hw]; [split; [assumption | congruence]|].
        destruct (Hrest w Hw). split; [assumption|].
        intros Ep. inversion Ep. eapply Hprev'; eauto.
    + split; [exact Hkeep|].
      intros w [<-|Hw]; [split; [assumption | discriminate]|].
      destruct (Hrest w Hw). split; [assumption | discriminate].
Qed.

(** Dropping voxels keeps the coordinates pairwise distinct. *)
Lemma distinct_coords_filter (keep : voxel -> bool) (rows : list voxel) :
  NoDup (map vcoord rows) -> NoDup (map vcoord (filter keep rows)).
Proof.
  induction rows as [|w rows IH]; simpl; intros H; [constructor|].
  apply NoDup_cons_iff in H as [Hnin Hnd].
  destruct (keep w); simpl; [|auto].
  apply NoDup_cons; [|auto].
  rewrite in_map_iff. intros (w' & Ew & Hw'). apply filter_In in Hw' as [Hw' _].
  apply Hnin. rewrite <- Ew. now apply in_map.
Qed.

Lemma nth_error_voxel (l : list voxel) (i : nat) (c : coord) (v : Q) :
  nth_error (map vcoord l) i = Some c ->
  nth_error (map vvalue l) i = Some v ->
  nth_error l i = Some (mkVoxel c v).
Proof.
  rewrite !nth_error_map. destruct (nth_error l i) as [[c' v']|]; simpl;
    intros H1 H2; congruence.
Qed.

Lemma first_at_coord (c : coord) (l : list voxel) (w : voxel) :
  first_at c l = Some w -> vcoord w = c /\ In w l.
Proof.
  unfold first_at. intros H. apply find_some in H as [Hin E].
  apply coord_eqb_eq in E. auto.
Qed.

(** The first voxel at a coordinate heads a run, in any list. *)
Lemma run_firsts_complete (prev : option coord) (l : list voxel) (c : coord)
    (w : voxel) :
  first_at c l = Some w -> prev <> Some c -> In w (run_firsts prev l).
Proof.
  revert prev. induction l as [|x r IH]; intros prev Hf Hprev; [discriminate|].
  unfold first_at in Hf. simpl in Hf.
  destruct (coord_eqb (vcoord x) c) eqn:E.
  - inversion Hf; subst x. apply coord_eqb_eq in E.
    destruct prev as [p|]; simpl; [|auto].
    destruct (coord_eqb p (vcoord w)) eqn:Ep; [|simpl; auto].
    apply coord_eqb_eq in Ep. congruence.
  - apply coord_eqb_neq in E.
    assert (Hin : In w (run_firsts (Some (vcoord x)) r)).
    { apply IH; [exact Hf | congruence]. }
    destruct prev as [p|]; simpl; [|auto].
    destruct (coord_eqb p (vcoord x)); simpl; auto.
Qed.

Lemma fragment_rows_facts (t : sparse_tensor) :
  StronglySorted (fun v w => lexsort_leb (vcoord v) (vcoord w) = true)
    (fragment_rows t) /\
  NoDup (map vcoord (fragment_rows t)) /\
  forall w, In w (fragment_rows t) <->
            first_at (vcoord w) (as_vector t) = Some w /\ Qltb (vvalue w) 4 = true.
Proof.
  set (rows1 := stable_sort (by_coord lexsort_leb) (as_vector t)).
  set (R := stable_sort (by_coord row_leb) rows1).
  destruct (run_firsts_spec None R) as [Hnd Hfirst].
  { apply sorted_by_coord; [apply row_leb_total | apply row_leb_trans]. }
  { discriminate. }
  assert (Hf : forall c, first_at c R = first_at c (as_vector t)).
  { intros c. unfold R, rows1.
    rewrite first_at_stable_sort by apply row_leb_refl.
    apply first_at_stable_sort, lexsort_leb_refl. }
  split; [|split].
  - unfold fragment_rows.
    apply sorted_by_coord; [apply lexsort_leb_total | apply lexsort_leb_trans].
  - unfold fragment_rows. fold rows1. fold R.
    eapply Permutation_NoDup.
    + apply Permutation_map. symmetry. apply stable_sort_perm.
    + apply distinct_coords_filter. exact Hnd.
  - intros w. unfold fragment_rows. fold rows1. fold R.
    rewrite stable_sort_In, filter_In, <- Hf. split.
    + intros [Hw Hlt]. split; [|assumption]. now apply Hfirst.
    + intros [Hw Hlt]. split; [|assumption].
      eapply run_firsts_complete; [eassumption | discriminate].
Qed.

Lemma in_rows_columns (l : list voxel) (c : coord) (v : Q) :
  (exists i, nth_error (map vcoord l) i = Some c /\
             nth_error (map vvalue l) i = Some v) <->
  In (mkVoxel c v) l.
Proof.
  split.
  - intros (i & Hc & Hv). eapply nth_error_In. apply nth_error_voxel; eassumption.
  - intros H. apply In_nth_error in H as [i Hi]. exists i.
    rewrite !nth_error_map, Hi. auto.
Qed.

Lemma first_at_found (l : list voxel) (w : voxel) :
  In w l -> exists v0, first_at (vcoord w) l = Some (mkVoxel (vcoord w) v0).
Proof.
  intros Hw. destruct (first_at (vcoord w) l) as [w0|] eqn:E.
  - apply first_at_coord in E as [Ec _]. destruct w0 as [c0 v0].
    simpl in Ec. subst c0. now exists v0.
  - unfold first_at in E. apply (find_none _ _ E) in Hw.
    now rewrite coord_eqb_refl in Hw.
Qed.

(** C7.  On one tensor, [parse_sparse3d_fragment] returns the coordinates
    and a single column of values, one per coordinate.  The coordinates
    are sorted in the order of [np.lexsort(voxels.T)] (by z, then y, then
    x) and pairwise distinct.  Every returned value is below 4 and is the
    value of the first voxel at that coordinate in the lexsorted input,
    which is also the first voxel at that coordinate in the input.
    Conversely every coordinate of the input is accounted for: if the
    first voxel at it holds a value below 4, the coordinate is returned
    with that value, and if it holds 4 or more, the coordinate is not
    returned at all, whatever the later voxels at it hold. *)
Theorem sparse3d_fragment_sorted_unique (t : sparse_tensor) :
  exists img_voxels img_values,
    parse_sparse3d_fragment [t] = Ok (img_voxels, [img_values]) /\
    length img_values = length img_voxels /\
    StronglySorted lexsort_le img_voxels /\
    NoDup img_voxels /\
    (forall i c v,
       nth_error img_voxels i = Some c -> nth_error img_values i = Some v ->
       (v < 4)%Q /\
       first_at c (stable_sort (by_coord lexsort_leb) (as_vector t))
       = Some (mkVoxel c v) /\
       first_at c (as_vector t) = Some (mkVoxel c v)) /\
    (forall w, In w (as_vector t) ->
       exists v0,
         first_at (vcoord w) (stable_sort (by_coord lexsort_leb) (as_vector t))
         = Some (mkVoxel (vcoord w) v0) /\
         first_at (vcoord w) (as_vector t) = Some (mkVoxel (vcoord w) v0) /\
         ((v0 < 4)%Q ->
          exists i, nth_error img_voxels i = Some (vcoord w) /\
                    nth_error img_values i = Some v0) /\
         (~ (v0 < 4)%Q -> ~ In (vcoord w) img_voxels)).
Proof.
  exists (map vcoord (fragment_rows t)), (map vvalue (fragment_rows t)).
  split; [apply parse_sparse3d_fragment_char|].
  split; [now rewrite !length_map|].
  destruct (fragment_rows_facts t) as (Hsorted & Hnd & Hin).
  assert (Hsame : forall c, first_at c (stable_sort (by_coord lexsort_leb) (as_vector t))
                            = first_at c (as_vector t)).
  { intros c. apply first_at_stable_sort, lexsort_leb_refl. }
  split; [|split; [|split]].
  - apply StronglySorted_map. exact Hsorted.
  - exact Hnd.
  - intros i c v Hc Hv.
    pose proof (nth_error_voxel _ _ _ _ Hc Hv) as Hw.
    apply nth_error_In, Hin in Hw as [Hf Hlt]. simpl in Hf, Hlt.
    apply Qltb_lt in Hlt. rewrite Hsame. auto.
  - intros w Hw. destruct (first_at_found _ _ Hw) as [v0 Hf].
    exists v0. rewrite Hsame.
    split; [exact Hf|]. split; [exact Hf|]. split.
    + intros Hlt. apply in_rows_columns, Hin. simpl.
      split; [exact Hf | now apply Qltb_lt].
    + intros Hge Hc. apply in_map_iff in Hc as (w' & Ec & Hw').
      apply Hin in Hw' as [Hf' Hlt]. rewrite Ec, Hf in Hf'.
      inversion Hf'; subst w'. simpl in Hlt. apply Qltb_lt in Hlt. contradiction.
Qed.

(** Six voxels on four coordinates: (1,0,0) keeps its first value 1 and
    not the later 3, (0,1,0) and (0,0,0) keep their only values, and
    (0,0,1), whose first voxel holds 5, is dropped although a later one
    holds 1. *)
Lemma sparse3d_fragment_sorted_unique_witness :
  parse_sparse3d_fragment [duplicate_tensor]
  = Ok ([(0, 0, 0); (1, 0, 0); (0, 1, 0)]%Z, [[0; 1; 2]%Q]) /\
  exists img_voxels img_values,
    parse_sparse3d_fragment [duplicate_tensor] = Ok (img_voxels, [img_values]) /\
    length img_values = length img_voxels /\
    StronglySorted lexsort_le img_voxels /\
    NoDup img_voxels /\
    (forall i c v,
       nth_error img_voxels i = Some c -> nth_error img_values i = Some v ->
       (v < 4)%Q /\
       first_at c (stable_sort (by_coord lexsort_leb) (as_vector duplicate_tensor))
       = Some (mkVoxel c v) /\
       first_at c (as_vector duplicate_tensor) = Some (mkVoxel c v)) /\
    (forall w, In w (as_vector duplicate_tensor) ->
       exists v0,
         first_at (vcoord w)
           (stable_sort (by_coord lexsort_leb) (as_vector duplicate_tensor))
         = Some (mkVoxel (vcoord w) v0) /\
         first_at (vcoord w) (as_vector duplicate_tensor)
         = Some (mkVoxel (vcoord w) v0) /\
         ((v0 < 4)%Q ->
          exists i, nth_error img_voxels i = Some (vcoord w) /\
                    nth_error img_values i = Some v0) /\
         (~ (v0 < 4)%Q -> ~ In (vcoord w) img_voxels)).
Proof.
  split; [reflexivity|].
  apply (sparse3d_fragment_sorted_unique duplicate_tensor).
Defined.

(** ** Calls with another number of tensors *)

Lemma scn_loop_length (meta0 : nat) (data : list sparse_tensor)
    (output out : list farray) :
  scn_loop meta0 data output = Ok out ->
  length out = length output + length data /\
  (Forall (fun b => length b = 1) output -> Forall (fun b => length b = 1) out).
Proof.
  revert output. induction data as [|t data IH]; intros output H; simpl in H.
  - inversion H; subst. split; [simpl; lia | auto].
  - destruct (meta0 =? meta t); [|discriminate].
    apply IH in H as [Hlen Hall]. rewrite length_app in Hlen. simpl in *.
    split; [lia|]. intros Ho. apply Hall. apply Forall_app. split; [assumption|].
    repeat constructor.
Qed.

Lemma concatenate_cols_from_length (arrays : list farray) (acc r : farray) :
  Forall (fun b => length b = 1) arrays ->
  concatenate_cols_from acc arrays = Ok r ->
  length r = length acc + length arrays.
Proof.
  intros Hall. revert acc. induction Hall as [|b arrays Hb Hall IH]; intros acc H;
    simpl in H.
  - inversion H; subst. simpl. lia.
  - destruct (nrows acc =? nrows b); [|discriminate].
    apply IH in H. rewrite length_app in H. simpl. lia.
Qed.

Lemma take_rows_length (a : farray) (idxs : list nat) (r : farray) :
  take_rows a idxs = Ok r -> length r = length a.
Proof. intros H. apply take_rows_shape in H. apply H. Qed.

(** [parse_sparse3d_fragment] returns on one tensor only. *)
Lemma parse_sparse3d_fragment_one_tensor (data : list sparse_tensor)
    (r : list coord * farray) :
  parse_sparse3d_fragment data = Ok r -> exists t, data = [t].
Proof.
  unfold parse_sparse3d_fragment. intros H.
  apply bind_Ok_inv in H as ([img_voxels img_data] & Hscn & H).
  assert (Hcols : length img_data = length data).
  { unfold parse_sparse3d_scn in Hscn. destruct data as [|t0 rest]; [discriminate|].
    apply bind_Ok_inv in Hscn as (output & Hout & Hscn).
    apply bind_Ok_inv in Hscn as (np_data & Hcat & Hscn).
    inversion Hscn; subst.
    apply scn_loop_length in Hout as [Hlen Hall].
    specialize (Hall ltac:(repeat constructor)).
    destruct output as [|a out]; [discriminate|].
    simpl in Hcat. inversion Hall as [|? ? Ha Hall']; subst.
    apply concatenate_cols_from_length in Hcat; [|assumption].
    simpl in *. lia. }
  apply bind_Ok_inv in H as (v1 & _ & H).
  apply bind_Ok_inv in H as (d1 & Hd1 & H).
  apply take_rows_length in Hd1.
  apply bind_Ok_inv in H as ([v2 uidx] & _ & H).
  apply bind_Ok_inv in H as (d2 & Hd2 & H).
  apply take_rows_length in Hd2.
  apply bind_Ok_inv in H as (sq & Hsq & _).
  destruct d2 as [|c [|]]; try discriminate.
  simpl in Hd2. assert (Hone : length data = 1) by lia.
  destruct data as [|t [|]]; simpl in Hone; try discriminate.
  now exists t.
Qed.

(** ** Duplicate removal and cross-filtering *)

Lemma existsb_coord_In (c : coord) (l : list coord) :
  existsb (coord_eqb c) l = true <-> In c l.
Proof.
  rewrite existsb_exists. split.
  - intros (y & Hy & E). apply coord_eqb_eq in E. now subst.
  - intros H. exists c. split; [assumption | apply coord_eqb_refl].
Qed.

Lemma first_occurrences_length (seen l : list coord) :
  length (first_occurrences seen l) = length l.
Proof.
  revert seen. induction l as [|c r IH]; intros seen; simpl; [reflexivity|].
  now rewrite IH.
Qed.

Lemma compress_first_occurrences (seen l : list coord) :
  compress l (first_occurrences seen l) = keep_first seen l.
Proof.
  revert seen. induction l as [|c r IH]; intros seen; simpl; [reflexivity|].
  rewrite IH. destruct (existsb (coord_eqb c) seen); reflexivity.
Qed.

Lemma keep_first_In (seen l : list coord) (c : coord) :
  In c (keep_first seen l) <-> In c l /\ ~ In c seen.
Proof.
  revert seen. induction l as [|x r IH]; intros seen; simpl; [tauto|].
  destruct (existsb (coord_eqb x) seen) eqn:E.
  - apply existsb_coord_In in E. rewrite IH. simpl. split.
    + intros [H Hn]. split; [auto|tauto].
    + intros [[->|H] Hn]; [contradiction|]. split; [assumption|].
      intros [->|Hs]; contradiction.
  - assert (Hx : ~ In x seen).
    { intros H. apply existsb_coord_In in H. congruence. }
    simpl. rewrite IH. simpl. split.
    + intros [->|[H Hn]]; [auto | split; [auto | tauto]].
    + intros [[->|H] Hn]; [auto|].
      destruct (coord_eq_dec x c) as [->|Hne]; [auto|right].
      split; [assumption|]. intros [E'|Hs]; tauto.
Qed.

Lemma keep_first_NoDup (seen l : list coord) : NoDup (keep_first seen l).
Proof.
  revert seen. induction l as [|x r IH]; intros seen; simpl; [constructor|].
  destruct (existsb (coord_eqb x) seen); [apply IH|].
  constructor; [|apply IH].
  intros H. apply keep_first_In in H as [_ H]. apply H. simpl. auto.
Qed.

Lemma keep_first_sorted (R : coord -> coord -> Prop) (seen l : list coord) :
  StronglySorted R l -> StronglySorted R (keep_first seen l).
Proof.
  intros Hs. revert seen. induction Hs as [|x r Hs IH Hall]; intros seen; simpl;
    [constructor|].
  destruct (existsb (coord_eqb x) seen); [apply IH|].
  constructor; [apply IH|].
  rewrite Forall_forall in *. intros c Hc. apply keep_first_In in Hc as [Hc _]. auto.
Qed.

Lemma NoDup_map_inj {A B : Type} (f : A -> B) (l : list A) (x y : A) :
  NoDup (map f l) -> In x l -> In y l -> f x = f y -> x = y.
Proof.
  induction l as [|a r IH]; simpl; intros Hnd Hx Hy E; [contradiction|].
  inversion Hnd as [|? ? Hnin Hnd']; subst.
  destruct Hx as [->|Hx], Hy as [->|Hy]; auto.
  - exfalso. apply Hnin. rewrite E. now apply in_map.
  - exfalso. apply Hnin. rewrite <- E. now apply in_map.
Qed.

Lemma sorted_incl_eq (l m : list coord) :
  StronglySorted lexsort_le l -> NoDup l ->
  StronglySorted lexsort_le m ->
  incl l m -> length m <= length l -> l = m.
Proof.
  intros Hl Hnd Hm Hincl Hlen.
  apply (sorted_perm_eq lexsort_leb lexsort_leb_antisym); try assumption.
  apply NoDup_Permutation; [assumption | |].
  - eapply NoDup_incl_NoDup; eassumption.
  - intros c. split; [apply Hincl|].
    apply NoDup_length_incl; assumption.
Qed.

(** The voxels [parse_cluster3d_clean_full] keeps, and the column it writes. *)
Lemma clean_full_char (clusters : cluster_event) (particles_v : list particle)
    (image : sparse_tensor) (grp_voxels : list coord) (grp_data : farray)
    (out_voxels : list coord) (out_data : farray) :
  parse_cluster3d_full (clusters, particles_v) = Ok (grp_voxels, grp_data) ->
  parse_cluster3d_clean_full (clusters, particles_v, image) = Ok (out_voxels, out_data) ->
  let img_rows := stable_sort (by_coord lexsort_leb) (as_vector image) in
  out_voxels
  = filter (fun c => existsb (coord_eqb c) (map vcoord img_rows))
      (keep_first [] (stable_sort lexsort_leb grp_voxels)) /\
  exists value cluster_id group_id sem,
    out_data = [value; cluster_id; group_id; sem] /\
    length value = length out_voxels /\
    length cluster_id = length out_voxels /\
    length group_id = length out_voxels /\
    broadcast_to (length out_voxels) (map vvalue img_rows) = Ok sem.
Proof.
  intros Hfull H img_rows. unfold parse_cluster3d_clean_full in H.
  rewrite Hfull in H. cbn [bind] in H.
  unfold parse_sparse3d_scn in H.
  cbn [scn_loop bind concatenate_cols concatenate_cols_from] in H.
  unfold lexsort_T in H.
  rewrite take_argsort_id in H. cbn [bind] in H.
  apply bind_Ok_inv in H as (gd1 & Hgd1 & H).
  rewrite (take_argsort lexsort_leb vcoord vcoord) in H. cbn [bind] in H.
  fold (by_coord lexsort_leb) in H. fold img_rows in H.
  unfold take_rows at 1 in H. cbn [mapM bind] in H.
  rewrite (take_argsort lexsort_leb vcoord vvalue) in H. cbn [bind] in H.
  fold (by_coord lexsort_leb) in H. fold img_rows in H.
  set (gv1 := stable_sort lexsort_leb grp_voxels) in *.
  unfold filter_duplicate_voxels in H.
  rewrite take_where_true in H by apply first_occurrences_length.
  rewrite compress_first_occurrences in H. cbn [bind] in H.
  apply bind_Ok_inv in H as (gd2 & Hgd2 & H).
  unfold filter_nonimg_voxels in H.
  rewrite take_where_true in H by now rewrite length_map.
  rewrite compress_filter in H. cbn [bind] in H.
  set (gv3 := filter (fun c => existsb (coord_eqb c) (map vcoord img_rows))
                (keep_first [] gv1)) in *.
  apply bind_Ok_inv in H as (gd3 & Hgd3 & H).
  apply take_rows_shape in Hgd3.
  assert (Hlen3 : length (where_true
            (map (fun c => existsb (coord_eqb c) (map vcoord img_rows))
                 (keep_first [] gv1))) = length gv3).
  { pose proof (take_where_true (keep_first [] gv1)
                  (map (fun c => existsb (coord_eqb c) (map vcoord img_rows))
                       (keep_first [] gv1)) (length_map _ _)) as Ht.
    rewrite compress_filter in Ht. apply take_Ok_length in Ht.
    symmetry. exact Ht. }
  rewrite Hlen3 in Hgd3.
  apply take_rows_shape in Hgd2. apply take_rows_shape in Hgd1.
  pose proof (parse_cluster3d_full_shape _ _ _ Hfull) as [Hk _].
  destruct Hgd1 as [Hk1 _]. destruct Hgd2 as [Hk2 _].
  rewrite Hk2, Hk1, Hk in Hgd3.
  apply shape4_inv in Hgd3 as (v & c & g & s & -> & Hv & Hc & Hg & Hs).
  cbn [last_column length Nat.sub getitem nth_error bind] in H.
  unfold set_column in H. cbn [length Nat.ltb Nat.leb nrows] in H.
  rewrite Hv in H.
  destruct (broadcast_to (length gv3) (map vvalue img_rows)) as [sem|e] eqn:Eb;
    cbn [bind replace_nth] in H; [|discriminate].
  inversion H; subst out_voxels out_data.
  split; [reflexivity|].
  exists v, c, g, sem. auto.
Qed.

(** C6.  Whenever [parse_cluster3d_clean_full] returns, its rows are the
    distinct coordinates of the cluster voxels that are voxels of the
    image, in lexsort order, so their number is the deduplicated,
    image-filtered voxel count; the features are four columns with one
    entry per row, and the last entry of every row is the value the image
    holds at the coordinate of that row, the image holding no other value
    there. *)
Theorem clean_full_semantics_from_image (clusters : cluster_event)
    (particles_v : list particle) (image : sparse_tensor)
    (grp_voxels : list coord) (grp_data : farray)
    (out_voxels : list coord) (out_data : farray) :
  parse_cluster3d_full (clusters, particles_v) = Ok (grp_voxels, grp_data) ->
  parse_cluster3d_clean_full (clusters, particles_v, image) = Ok (out_voxels, out_data) ->
  exists value cluster_id group_id sem,
    out_data = [value; cluster_id; group_id; sem] /\
    (length value = length out_voxels /\ length cluster_id = length out_voxels /\
     length group_id = length out_voxels /\ length sem = length out_voxels) /\
    StronglySorted lexsort_le out_voxels /\
    NoDup out_voxels /\
    (forall c, In c out_voxels <->
               In c grp_voxels /\ In c (map vcoord (as_vector image))) /\
    length out_voxels
    = length (nodup coord_eq_dec (filter (in_image image) grp_voxels)) /\
    forall i c v,
      nth_error out_voxels i = Some c -> nth_error sem i = Some v ->
      In (mkVoxel c v) (as_vector image) /\
      forall v', In (mkVoxel c v') (as_vector image) -> v' = v.
Proof.
  intros Hfull H.
  destruct (clean_full_char _ _ _ _ _ _ _ Hfull H)
    as (-> & value & cluster_id & group_id & sem & -> & Hv & Hc & Hg & Hb).
  set (img_rows := stable_sort (by_coord lexsort_leb) (as_vector image)) in *.
  set (gv3 := filter (fun c => existsb (coord_eqb c) (map vcoord img_rows))
                (keep_first [] (stable_sort lexsort_leb grp_voxels))) in *.
  assert (Hperm : Permutation (map vcoord img_rows) (map vcoord (as_vector image))).
  { apply Permutation_map, stable_sort_perm. }
  assert (Hsorted : StronglySorted lexsort_le gv3).
  { apply StronglySorted_filter, keep_first_sorted.
    apply (stable_sort_sorted lexsort_leb lexsort_leb_total lexsort_leb_trans). }
  assert (Hnd : NoDup gv3) by (apply NoDup_filter, keep_first_NoDup).
  assert (Hin : forall c, In c gv3 <->
                  In c grp_voxels /\ In c (map vcoord (as_vector image))).
  { intros c. unfold gv3.
    rewrite filter_In, existsb_coord_In, keep_first_In, stable_sort_In.
    split.
    - intros [[Hg' _] Hi]. split; [assumption|].
      eapply Permutation_in; eassumption.
    - intros [Hg' Hi]. split; [split; [assumption | simpl; tauto]|].
      eapply Permutation_in; [symmetry|]; eassumption. }
  assert (Hsem : length sem = length gv3).
  { unfold broadcast_to in Hb.
    destruct (length (map vvalue img_rows) =? length gv3) eqn:E.
    - inversion Hb; subst. now apply Nat.eqb_eq.
    - destruct (map vvalue img_rows) as [|v0 [|]]; try discriminate.
      inversion Hb. apply repeat_length. }
  exists value, cluster_id, group_id, sem.
  split; [reflexivity|]. split; [auto|]. split; [assumption|].
  split; [assumption|]. split; [assumption|]. split.
  - apply Permutation_length, NoDup_Permutation; [assumption | apply NoDup_nodup |].
    intros c. rewrite Hin, nodup_In, filter_In. unfold in_image.
    rewrite existsb_coord_In. reflexivity.
  - intros i c v Hci Hvi.
    assert (Hincl : incl gv3 (map vcoord img_rows)).
    { intros x Hx. apply Hin in Hx as [_ Hx].
      eapply Permutation_in; [symmetry|]; eassumption. }
    unfold broadcast_to in Hb.
    destruct (length (map vvalue img_rows) =? length gv3) eqn:E.
    + apply Nat.eqb_eq in E. inversion Hb; subst sem.
      assert (Heq : gv3 = map vcoord img_rows).
      { apply sorted_incl_eq; try assumption.
        - apply StronglySorted_map. unfold lexsort_le.
          apply sorted_by_coord; [apply lexsort_leb_total | apply lexsort_leb_trans].
        - rewrite length_map in *. lia. }
      rewrite Heq in Hci, Hnd.
      pose proof (nth_error_voxel _ _ _ _ Hci Hvi) as Hw.
      apply nth_error_In, stable_sort_In in Hw.
      split; [assumption|]. intros v' Hv'.
      assert (Hnd' : NoDup (map vcoord (as_vector image)))
        by (eapply Permutation_NoDup; eassumption).
      pose proof (NoDup_map_inj vcoord _ _ _ Hnd' Hv' Hw eq_refl) as Ev.
      now inversion Ev.
    + exfalso.
      destruct img_rows as [|w [|]]; try discriminate. simpl in Hincl.
      pose proof (NoDup_incl_length Hnd Hincl) as Hle. simpl in Hle, E.
      destruct gv3 as [|x [|]]; simpl in *; try lia; try discriminate.
      destruct i; discriminate.
Qed.

(** ** The statements on the example events *)

Ltac solve_wf :=
  unfold well_formed; repeat constructor; simpl; lia.

(** Scenario 1: the declared primary 0 is later than particle 1, and the
    three showers move to the minted id 4. *)
Lemma time_ordering_veto_witness :
  resolve_group_ids (fst shower_event) (snd shower_event) = Ok [4; 4; 4] /\
  exists resolved e,
    resolve_group_ids (fst shower_event) (snd shower_event) = Ok resolved /\
    earliest (snd shower_event) 0 e /\
    (forall e', earliest (snd shower_event) 0 e' -> e' = e) /\
    (e <> 0 ->
     exists fresh,
       (forall d, In d (map group_id (snd shower_event)) -> d < fresh) /\
       forall m, member (snd shower_event) 0 m <-> nth_error resolved m = Some fresh) /\
    (e = 0 ->
     forall m, member (snd shower_event) 0 m -> nth_error resolved m = Some 0).
Proof.
  split; [reflexivity|].
  apply (time_ordering_veto (fst shower_event) (snd shower_event) 0
           (mkParticle 0 0 0 "primary" 0 5) (one_voxel 0 0 0 1)).
  - solve_wf.
  - simpl. auto.
  - reflexivity.
  - left. reflexivity.
  - reflexivity.
  - reflexivity.
  - discriminate.
  - reflexivity.
  - discriminate.
Defined.

(** Scenario 3: the capture shower 4 is demoted although its cluster is
    empty. *)
Lemma process_pdg_veto_witness :
  resolve_group_ids (fst capture_event) (snd capture_event) = Ok [0; 1; 2; 3; 6] /\
  (forall (any_clusters : cluster_event) (st : loop_state),
     group_step any_clusters (snd capture_event) st 4
     = Ok (demote st (Np.where_eq (group_ids st) 4))) /\
  exists resolved fresh,
    resolve_group_ids (fst capture_event) (snd capture_event) = Ok resolved /\
    (forall d, In d (map group_id (snd capture_event)) -> d < fresh) /\
    forall m, member (snd capture_event) 4 m <-> nth_error resolved m = Some fresh.
Proof.
  split; [reflexivity|].
  apply (process_pdg_veto (fst capture_event) (snd capture_event) 4
           (mkParticle 4 4 0 "muMinusCaptureAtRest" 13 3)).
  - solve_wf.
  - simpl. auto 6.
  - reflexivity.
  - left. reflexivity.
  - right. left. reflexivity.
Defined.

(** Groups 0 and 2 are demoted in this order: they receive 5 and 6. *)
Lemma minted_ids_monotone_witness :
  resolve_group_ids (fst two_demoted_event) (snd two_demoted_event)
  = Ok [5; 1; 6; 6] /\
  exists resolved,
    resolve_group_ids (fst two_demoted_event) (snd two_demoted_event) = Ok resolved /\
    let declared := map group_id (snd two_demoted_event) in
    forall m d r,
      nth_error declared m = Some d -> nth_error resolved m = Some r -> r <> d ->
      r = length (fst two_demoted_event) + 1
          + length (filter (fun g => g <? d) (demoted_groups declared resolved)) /\
      (forall d', In d' declared -> d' < r) /\
      (forall m' d' r',
         nth_error declared m' = Some d' -> nth_error resolved m' = Some r' ->
         r' <> d' -> (d < d' -> r < r') /\ (d = d' -> r = r')).
Proof.
  split; [reflexivity|].
  apply (minted_ids_monotone (fst two_demoted_event) (snd two_demoted_event)).
  solve_wf.
Defined.

(** Scenario 2: the track 7, alone in its group and without voxels, keeps
    the group id 7. *)
Lemma shape_gate_keeps_group_witness :
  resolve_group_ids (fst track_event) (snd track_event)
  = Ok [0; 1; 2; 3; 4; 5; 6; 7] /\
  nth_error (fst track_event) 7 = Some [] /\
  exists resolved,
    resolve_group_ids (fst track_event) (snd track_event) = Ok resolved /\
    forall m, member (snd track_event) 7 m -> nth_error resolved m = Some 7.
Proof.
  split; [reflexivity|]. split; [reflexivity|].
  apply (shape_gate_keeps_group (fst track_event) (snd track_event) 7
           (mkParticle 7 7 1 "primary" 0 0)).
  - solve_wf.
  - reflexivity.
  - discriminate.
  - discriminate.
Defined.

(** The shapes of the particles put 0 in the last column; the image puts
    its own values 4 and 3 there. *)
Lemma clean_full_semantics_from_image_witness :
  parse_cluster3d_clean_full clean_event
  = Ok ([(0, 0, 0); (1, 0, 0)]%Z, [[1; 1]; [0; 1]; [0; 0]; [4; 3]]%Q) /\
  exists value cluster_id group_id sem,
    [[1; 1]; [0; 1]; [0; 0]; [4; 3]]%Q = [value; cluster_id; group_id; sem] /\
    (length value = 2 /\ length cluster_id = 2 /\
     length group_id = 2 /\ length sem = 2) /\
    StronglySorted lexsort_le [(0, 0, 0); (1, 0, 0)]%Z /\
    NoDup [(0, 0, 0); (1, 0, 0)]%Z /\
    (forall c, In c [(0, 0, 0); (1, 0, 0)]%Z <->
               In c [(0, 0, 0); (1, 0, 0); (0, 0, 0)]%Z /\
               In c (map vcoord (as_vector (snd clean_event)))) /\
    2 = length (nodup coord_eq_dec
                  (filter (in_image (snd clean_event))
                          [(0, 0, 0); (1, 0, 0); (0, 0, 0)]%Z)) /\
    forall i c v,
      nth_error [(0, 0, 0); (1, 0, 0)]%Z i = Some c -> nth_error sem i = Some v ->
      In (mkVoxel c v) (as_vector (snd clean_event)) /\
      forall v', In (mkVoxel c v') (as_vector (snd clean_event)) -> v' = v.
Proof.
  split; [reflexivity|].
  apply (clean_full_semantics_from_image
           (fst (fst clean_event)) (snd (fst clean_event)) (snd clean_event)
           [(0, 0, 0); (1, 0, 0); (0, 0, 0)]%Z
           [[1; 1; 7]; [0; 1; 1]; [0; 0; 0]; [0; 0; 0]]%Q
           [(0, 0, 0); (1, 0, 0)]%Z
           [[1; 1]; [0; 1]; [0; 0]; [4; 3]]%Q).
  - reflexivity.
  - reflexivity.
Defined.

(** The scores [-1, -3, -0.5] start with a negative entry and still set
    [pid] to 2; the default arguments of [__init__] end with [pid = -1]. *)
Lemma pid_scores_setter_argmax_witness :
  Particle.set_pid_scores blank_particle [-1; -3; -1 # 2]%Q
  = Ok (Particle.with_pid
          (Particle.with_pid_scores blank_particle [-1; -3; -1 # 2]%Q)
          (Particle.PyInt 2)) /\
  (exists k self',
     Np.argmax [-1; -3; -1 # 2]%Q = Ok k /\
     k < 3 /\
     (forall j, j < 3 ->
        (nth j [-1; -3; -1 # 2] 0 <= nth k [-1; -3; -1 # 2] 0)%Q /\
        (j < k -> (nth j [-1; -3; -1 # 2] 0 < nth k [-1; -3; -1 # 2] 0)%Q)) /\
     Particle.set_pid_scores blank_particle [-1; -3; -1 # 2]%Q = Ok self' /\
     Particle.pid self' = Particle.PyInt (Z.of_nat k) /\
     Particle._pid_scores self' = Some [-1; -3; -1 # 2]%Q) /\
  (exists k built,
     Np.argmax (Particle.arg_pid_scores default_args) = Ok k /\
     Particle.init default_args = Ok built /\
     Particle.pid built = Particle.PyInt (-1)).
Proof.
  split; [reflexivity|].
  apply (pid_scores_setter_argmax blank_particle [-1; -3; -1 # 2]%Q default_args);
    discriminate.
Defined.

(** ** Further evaluations *)

(** Two showers with the same first-step time: the lower id counts as
    the earlier one, so a group declared on particle 1 is demoted and a
    group declared on particle 0 is kept; neither raises. *)
Example time_tie_prefers_lowest_id :
  resolve_group_ids [one_voxel 0 0 0 1; one_voxel 1 0 0 1]
    [mkParticle 0 1 0 "conv" 22 2; mkParticle 1 1 0 "primary" 0 2]
  = Ok [3; 3] /\
  resolve_group_ids [one_voxel 0 0 0 1; one_voxel 1 0 0 1]
    [mkParticle 0 0 0 "primary" 0 2; mkParticle 1 0 0 "conv" 22 2]
  = Ok [0; 0].
Proof. split; reflexivity. Qed.

(** A single shower without voxels is demoted by the empty-primary veto. *)
Example empty_shower_demoted :
  resolve_group_ids [[]] [mkParticle 0 0 0 "primary" 0 0] = Ok [2].
Proof. reflexivity. Qed.

(** An image voxel that no cluster holds makes the assignment of step 4
    fail: the two columns differ in length. *)
Example clean_full_extra_image_voxel_raises :
  parse_cluster3d_clean_full
    (fst (fst clean_event), snd (fst clean_event),
     mkTensor 0 [mkVoxel (1, 0, 0)%Z 3; mkVoxel (0, 0, 0)%Z 4; mkVoxel (5, 5, 5)%Z 1])
  = Raise ValueError.
Proof. reflexivity. Qed.

(** [parse_sparse3d_fragment] takes exactly one tensor: [squeeze(1)]
    refuses two columns and [np.concatenate] refuses none. *)
Example fragment_needs_one_tensor :
  parse_sparse3d_fragment [mkTensor 0 []; mkTensor 0 []] = Raise ValueError /\
  parse_sparse3d_fragment [] = Raise ValueError.
Proof. split; reflexivity. Qed.

(** A coordinate whose first occurrence holds a value of 4 or more is
    dropped, whatever its later occurrences hold. *)
Example fragment_first_wins :
  parse_sparse3d_fragment
    [mkTensor 0 [mkVoxel (1, 0, 0)%Z 1; mkVoxel (0, 0, 1)%Z 5;
                 mkVoxel (0, 1, 0)%Z 2; mkVoxel (1, 0, 0)%Z 3;
                 mkVoxel (0, 0, 0)%Z 0; mkVoxel (0, 0, 1)%Z 1]]
  = Ok ([(0, 0, 0); (1, 0, 0); (0, 1, 0)]%Z, [[0; 1; 2]%Q]).
Proof. reflexivity. Qed.

(** A cosmic-only event: both particles resolve to group 1, no particle
    to group 0, and the flag is 0 even though the voxel's interaction id is
    the one [interaction_id_of] gives group 0. *)
Example no_group0_no_flag :
  parse_cluster3d_full_extended2 (fun _ => 0%Z)
    ([[]; one_voxel 1 0 0 1], [mkParticle 0 1 1 "primary" 0 0;
                               mkParticle 1 1 1 "primary" 0 0])
  = Ok ([(1, 0, 0)%Z], [[1]; [1]; [0]; [1]; [0]]%Q).
Proof. reflexivity. Qed.

(** Group 0 without a voxel: particle 0 resolves to group 0 and has an
    empty cluster; the voxel of group 1 shares its interaction and is
    flagged. *)
Example voxelless_group0_flags_its_interaction :
  parse_cluster3d_full_extended2 (fun _ => 0%Z)
    ([[]; one_voxel 1 0 0 1], [mkParticle 0 0 1 "primary" 0 0;
                               mkParticle 1 1 1 "primary" 0 0])
  = Ok ([(1, 0, 0)%Z], [[1]; [1]; [0]; [1]; [1]]%Q).
Proof. reflexivity. Qed.

(** With more particles than clusters a declared group id can lie above
    the number of clusters, and the counter, which starts at
    [num_clusters + 1], then reaches it: here the capture shower 0 is
    given the id 2 that the tracks 1 and 2 declare. *)
Example minted_id_relies_on_parallel_indexing :
  resolve_group_ids [one_voxel 0 0 0 1]
    [mkParticle 0 0 0 "muMinusCaptureAtRest" 13 0;
     mkParticle 1 2 1 "primary" 0 0;
     mkParticle 2 2 1 "primary" 0 0]
  = Ok [2; 2; 2].
Proof. reflexivity. Qed.

(** * Further properties of the parsers *)

(** ** The group loop *)

(** X1.  On a well-formed event, a declared group whose primary is a
    shower (0) or low-energy (4) particle with an empty cluster is demoted
    whatever the creation processes and the times are: its members, and
    only they, end with one minted id above every declared id. *)
Theorem empty_primary_veto (clusters : cluster_event) (particles_v : list particle)
    (g : nat) (p : particle) :
  well_formed clusters particles_v ->
  In g (map group_id particles_v) ->
  nth_error particles_v g = Some p ->
  (shape p = 0 \/ shape p = 4)%Z ->
  nth_error clusters g = Some [] ->
  exists resolved fresh,
    resolve_group_ids clusters particles_v = Ok resolved /\
    (forall d, In d (map group_id particles_v) -> d < fresh) /\
    forall m, member particles_v g m <-> nth_error resolved m = Some fresh.
Proof.
  intros Hwf Hin Hp Hshape Hc.
  assert (Hdem : demoted clusters particles_v g = true).
  { unfold demoted, empty_primary. rewrite Hp, Hc.
    rewrite (proj2 (shape_gate_true p) Hshape). simpl.
    destruct (process_veto p); reflexivity. }
  destruct (demoted_group_resolved clusters particles_v Hwf g Hin Hdem)
    as (Hgt & _ & Hmem).
  eexists. eexists. split; [now apply resolved_Ok|].
  split; [exact Hgt | exact Hmem].
Qed.

Lemma empty_primary_veto_witness :
  resolve_group_ids (fst empty_primary_event) (snd empty_primary_event) = Ok [3; 3] /\
  exists resolved fresh,
    resolve_group_ids (fst empty_primary_event) (snd empty_primary_event)
    = Ok resolved /\
    (forall d, In d (map group_id (snd empty_primary_event)) -> d < fresh) /\
    forall m, member (snd empty_primary_event) 0 m <->
              nth_error resolved m = Some fresh.
Proof.
  split; [reflexivity|].
  apply (empty_primary_veto (fst empty_primary_event) (snd empty_primary_event) 0
           (mkParticle 0 0 0 "primary" 0 0)).
  - solve_wf.
  - simpl. auto.
  - reflexivity.
  - left. reflexivity.
  - reflexivity.
Defined.

(** X2.  On a well-formed event the loop neither merges nor splits
    declared groups: two particles end with the same id exactly when they
    were declared in the same group; every particle keeps its declared id
    or receives an id above the number of clusters, and the array keeps
    its length. *)
Theorem groups_neither_merged_nor_split (clusters : cluster_event)
    (particles_v : list particle) :
  well_formed clusters particles_v ->
  exists resolved,
    resolve_group_ids clusters particles_v = Ok resolved /\
    length resolved = length particles_v /\
    forall m m' d d' r r',
      nth_error (map group_id particles_v) m = Some d ->
      nth_error (map group_id particles_v) m' = Some d' ->
      nth_error resolved m = Some r ->
      nth_error resolved m' = Some r' ->
      (r = r' <-> d = d') /\ (r = d \/ length clusters < r).
Proof.
  intros Hwf. eexists. split; [now apply resolved_Ok|].
  split; [now rewrite !length_map|].
  set (declared := map group_id particles_v).
  set (visited := Np.unique declared).
  assert (Hcases : forall x, In x declared ->
            (demoted clusters particles_v x = false /\
             resolved_after clusters particles_v visited x = x /\
             x < length clusters + 1) \/
            (demoted clusters particles_v x = true /\
             resolved_after clusters particles_v visited x
             = minted clusters particles_v visited x)).
  { intros x Hx. destruct (demoted clusters particles_v x) eqn:E.
    - right. split; [reflexivity|]. now apply resolved_after_demoted.
    - left. split; [reflexivity|]. split.
      + now apply resolved_after_kept.
      + now apply (declared_bound clusters particles_v Hwf). }
  intros m m' d d' r r' Hd Hd' Hr Hr'.
  apply (resolved_nth clusters particles_v) in Hr as (d0 & Hd0 & ->).
  apply (resolved_nth clusters particles_v) in Hr' as (d0' & Hd0' & ->).
  fold declared in Hd0, Hd0'. rewrite Hd in Hd0. rewrite Hd' in Hd0'.
  inversion Hd0; inversion Hd0'; subst d0 d0'. fold visited.
  assert (Hin : In d declared) by (eapply nth_error_In; eassumption).
  assert (Hin' : In d' declared) by (eapply nth_error_In; eassumption).
  assert (Hm : forall x, length clusters + 1 <= minted clusters particles_v visited x)
    by (intros x; unfold minted; lia).
  subst visited declared.
  split.
  - split; [|intros ->; reflexivity].
    intros E.
    destruct (Hcases d Hin) as [(_ & Ed & Hb)|(Dd & Ed)],
             (Hcases d' Hin') as [(_ & Ed' & Hb')|(Dd' & Ed')];
      rewrite Ed, Ed' in E.
    + exact E.
    + pose proof (Hm d'). lia.
    + pose proof (Hm d). lia.
    + apply minted_inj in E; try assumption; now apply unique_In.
  - destruct (Hcases d Hin) as [(_ & Ed & _)|(_ & Ed)]; rewrite Ed.
    + now left.
    + right. pose proof (Hm d). lia.
Qed.

Lemma groups_neither_merged_nor_split_witness :
  exists resolved,
    resolve_group_ids (fst two_demoted_event) (snd two_demoted_event) = Ok resolved /\
    length resolved = length (snd two_demoted_event) /\
    forall m m' d d' r r',
      nth_error (map group_id (snd two_demoted_event)) m = Some d ->
      nth_error (map group_id (snd two_demoted_event)) m' = Some d' ->
      nth_error resolved m = Some r ->
      nth_error resolved m' = Some r' ->
      (r = r' <-> d = d') /\ (r = d \/ length (fst two_demoted_event) < r).
Proof.
  apply (groups_neither_merged_nor_split (fst two_demoted_event)
           (snd two_demoted_event)).
  solve_wf.
Defined.

(** ** Blocks appended by a loop over the clusters *)

Lemma foldM_blocks {V F : Type}
    (step : list V * list F -> nat -> result (list V * list F))
    (ne : nat -> bool) (X : nat -> V) (B : nat -> F) (l : list nat) :
  (forall acc i, In i l ->
     step acc i = Ok (if ne i then (fst acc ++ [X i], snd acc ++ [B i]) else acc)) ->
  forall acc,
    foldM step l acc
    = Ok (fst acc ++ map X (filter ne l), snd acc ++ map B (filter ne l)).
Proof.
  induction l as [|i l IH]; intros Hstep [cv cf]; simpl.
  - now rewrite !app_nil_r.
  - rewrite Hstep by (simpl; auto). simpl.
    rewrite IH by (intros; apply Hstep; simpl; auto).
    destruct (ne i); simpl; [|reflexivity].
    now rewrite <- !app_assoc.
Qed.

Lemma append_rows_cols {I : Type} (cols : list (I -> list Q))
    (G : (I -> list Q) -> list Q) (i : I) :
  append_rows (map G cols) (map (fun c => c i) cols)
  = Ok (map (fun c => G c ++ c i) cols).
Proof.
  induction cols as [|c cols IH]; simpl; [reflexivity|].
  now rewrite IH.
Qed.

Lemma concatenate_rows_from_cols (cols : list (nat -> list Q)) (l pre : list nat) :
  concatenate_rows_from (map (fun c => flat_map c pre) cols)
    (map (fun i => map (fun c => c i) cols) l)
  = Ok (map (fun c => flat_map c (pre ++ l)) cols).
Proof.
  revert pre. induction l as [|i l IH]; intros pre; simpl.
  - now rewrite app_nil_r.
  - rewrite append_rows_cols. simpl.
    replace (map (fun c => flat_map c pre ++ c i) cols)
      with (map (fun c => flat_map c (pre ++ [i])) cols).
    + rewrite IH, <- app_assoc. reflexivity.
    + apply map_ext. intros c. rewrite flat_map_app. simpl. now rewrite app_nil_r.
Qed.

(** Stacking the blocks of a non-empty list of indices concatenates every
    column over the indices. *)
Lemma concatenate_rows_cols (cols : list (nat -> list Q)) (i : nat) (l : list nat) :
  concatenate_rows (map (fun i => map (fun c => c i) cols) (i :: l))
  = Ok (map (fun c => flat_map c (i :: l)) cols).
Proof.
  simpl.
  replace (map (fun c => c i) cols) with (map (fun c => flat_map c [i]) cols)
    by (apply map_ext; intros c; simpl; apply app_nil_r).
  apply (concatenate_rows_from_cols cols l [i]).
Qed.

Lemma flat_map_filter_ne {A : Type} (ne : nat -> bool) (c : nat -> list A)
    (l : list nat) :
  (forall i, In i l -> ne i = false -> c i = []) ->
  flat_map c (filter ne l) = flat_map c l.
Proof.
  induction l as [|i l IH]; intros H; simpl; [reflexivity|].
  rewrite <- IH by (intros; apply H; simpl; auto).
  destruct (ne i) eqn:E; simpl; [reflexivity|].
  now rewrite (H i (or_introl eq_refl) E).
Qed.

Lemma flat_map_seq_nth {A B : Type} (f : list A -> list B) (pre l : list (list A)) :
  flat_map (fun i => f (nth i (pre ++ l) [])) (seq (length pre) (length l))
  = flat_map f l.
Proof.
  revert pre. induction l as [|x l IH]; intros pre; simpl; [reflexivity|].
  rewrite app_nth2, Nat.sub_diag by lia. simpl. f_equal.
  replace (pre ++ x :: l) with ((pre ++ [x]) ++ l) by now rewrite <- app_assoc.
  replace (S (length pre)) with (length (pre ++ [x]))
    by (rewrite length_app; simpl; lia).
  apply IH.
Qed.

Lemma all_voxels_by_index {B : Type} (g : voxel -> B) (clusters : cluster_event) :
  flat_map (fun i => map g (nth i clusters [])) (seq 0 (length clusters))
  = map g (all_voxels clusters).
Proof.
  pose proof (flat_map_seq_nth (map g) [] clusters) as H. simpl in H. rewrite H.
  unfold all_voxels. rewrite flat_map_concat_map, concat_map. reflexivity.
Qed.

Lemma nonempty_at_false (clusters : cluster_event) (i : nat) :
  nonempty_at clusters i = false -> nth i clusters [] = [].
Proof.
  unfold nonempty_at. destruct (nth i clusters []); [reflexivity | discriminate].
Qed.

Lemma filter_nonempty_nil (clusters : cluster_event) :
  filter (nonempty_at clusters) (seq 0 (length clusters)) = [] <->
  Forall (fun c => c = []) clusters.
Proof.
  split.
  - intros H. apply Forall_forall. intros c Hc.
    apply (In_nth _ _ []) in Hc as (i & Hi & <-).
    apply nonempty_at_false.
    destruct (nonempty_at clusters i) eqn:E; [|reflexivity].
    assert (Hin : In i (filter (nonempty_at clusters) (seq 0 (length clusters)))).
    { apply filter_In. split; [apply in_seq; lia | assumption]. }
    rewrite H in Hin. contradiction.
  - intros H. rewrite Forall_forall in H.
    destruct (filter _ _) as [|i l] eqn:E; [reflexivity|exfalso].
    assert (Hin : In i (filter (nonempty_at clusters) (seq 0 (length clusters))))
      by (rewrite E; simpl; auto).
    apply filter_In in Hin as [Hi Hne]. apply in_seq in Hi.
    unfold nonempty_at in Hne. rewrite (H (nth i clusters [])) in Hne.
    + discriminate.
    + apply nth_In. lia.
Qed.

Lemma some_voxel_not_all_empty (clusters : cluster_event) :
  some_voxel clusters <-> ~ Forall (fun c => c = []) clusters.
Proof.
  unfold some_voxel. rewrite Forall_forall. split.
  - intros (c & Hc & Hne) H. apply Hne. auto.
  - intros H. induction clusters as [|x r IH].
    + exfalso. apply H. intros c [].
    + destruct x as [|v x].
      * destruct IH as (c & Hc & Hne).
        { intros H'. apply H. intros c [<-|Hc]; auto. }
        exists c. simpl. auto.
      * exists (v :: x). simpl. split; [auto | discriminate].
Qed.

(** ** [parse_cluster3d] and the rows of [parse_cluster3d_full] *)

Lemma getitem_nth {A : Type} (l : list A) (i : nat) (d : A) :
  i < length l -> getitem l i = Ok (nth i l d).
Proof.
  intros H. unfold getitem. now rewrite (nth_error_nth' l d H).
Qed.

Lemma concatenate_flat {V : Type} (X : nat -> list V) (i : nat) (l : list nat) :
  Np.concatenate (map X (i :: l)) = Ok (flat_map X (i :: l)).
Proof.
  unfold Np.concatenate. simpl. now rewrite flat_map_concat_map.
Qed.

Lemma per_cluster_filter (clusters : cluster_event) (f : nat -> Q) :
  flat_map (fun i => repeat (f i) (length (nth i clusters [])))
    (filter (nonempty_at clusters) (seq 0 (length clusters)))
  = per_cluster clusters f.
Proof.
  unfold per_cluster. apply flat_map_filter_ne.
  intros i _ H. now rewrite (nonempty_at_false _ _ H).
Qed.

Lemma voxels_filter {B : Type} (g : voxel -> B) (clusters : cluster_event) :
  flat_map (fun i => map g (nth i clusters []))
    (filter (nonempty_at clusters) (seq 0 (length clusters)))
  = map g (all_voxels clusters).
Proof.
  rewrite flat_map_filter_ne.
  - apply all_voxels_by_index.
  - intros i _ H. now rewrite (nonempty_at_false _ _ H).
Qed.

Lemma forallb_empty (clusters : cluster_event) :
  forallb (fun c => length c =? 0) clusters = true <->
  Forall (fun c => c = []) clusters.
Proof.
  rewrite forallb_forall, Forall_forall. split; intros H c Hc.
  - specialize (H c Hc). destruct c; [reflexivity | discriminate].
  - now rewrite (H c Hc).
Qed.

(** The result of [parse_cluster3d], in closed form. *)
Lemma parse_cluster3d_eq (clusters : cluster_event) (rest : list cluster_event) :
  parse_cluster3d (clusters :: rest)
  = if forallb (fun c => length c =? 0) clusters
    then Raise ValueError
    else Ok (map vcoord (all_voxels clusters),
             [map vvalue (all_voxels clusters); per_cluster clusters Qnat]).
Proof.
  unfold parse_cluster3d. cbn [getitem nth_error bind].
  set (cols := [fun i => map vvalue (nth i clusters []);
                fun i => repeat (Qnat i) (length (nth i clusters []))]).
  rewrite (foldM_blocks (cluster_step clusters) (nonempty_at clusters)
             (fun i => map vcoord (nth i clusters []))
             (fun i => map (fun c => c i) cols)).
  2:{ intros [cv cf] i Hi. apply in_seq in Hi. unfold cluster_step.
      rewrite (getitem_nth clusters i []) by lia. cbn [bind].
      unfold nonempty_at. destruct (0 <? length (nth i clusters [])); reflexivity. }
  cbn [fst snd app bind].
  destruct (forallb (fun c => length c =? 0) clusters) eqn:E.
  - apply forallb_empty, filter_nonempty_nil in E. rewrite E. reflexivity.
  - destruct (filter (nonempty_at clusters) (seq 0 (length clusters)))
      as [|i l] eqn:Ef.
    + apply filter_nonempty_nil, forallb_empty in Ef. congruence.
    + rewrite concatenate_flat, concatenate_rows_cols. cbn [bind].
      rewrite <- Ef. unfold cols. cbn [map].
      now rewrite !voxels_filter, per_cluster_filter.
Qed.



(** X3.  [parse_cluster3d] reads the first element of [data] only.  It
    raises [ValueError] when no cluster holds a voxel; otherwise it
    returns every voxel of every cluster, in cluster order, with the
    columns value and cluster index. *)
Theorem parse_cluster3d_rows (clusters : cluster_event) (rest : list cluster_event) :
  parse_cluster3d (clusters :: rest)
  = if forallb (fun c => length c =? 0) clusters
    then Raise ValueError
    else Ok (map vcoord (all_voxels clusters),
             [map vvalue (all_voxels clusters); per_cluster clusters Qnat]).
Proof. apply parse_cluster3d_eq. Qed.

Lemma set_at_length (a : list nat) (i v : nat) :
  length (Np.set_at a i v) = length a.
Proof.
  revert i. induction a as [|x r IH]; intros [|i]; simpl; auto.
Qed.

Lemma put_length (a idxs : list nat) (v : nat) :
  length (Np.put a idxs v) = length a.
Proof.
  unfold Np.put. revert a. induction idxs as [|i r IH]; intros a; simpl;
    [reflexivity|]. now rewrite IH, set_at_length.
Qed.

Lemma group_step_length (clusters : cluster_event) (particles_v : list particle)
    (st st' : loop_state) (gid : nat) :
  group_step clusters particles_v st gid = Ok st' ->
  length (group_ids st') = length (group_ids st).
Proof.
  unfold group_step. intros H.
  apply bind_Ok_inv in H as (p & _ & H).
  assert (Hd : forall idxs, length (group_ids (demote st idxs)) = length (group_ids st))
    by (intros; apply put_length).
  destruct (negb (shape p =? 0)%Z && negb (shape p =? 4)%Z);
    [inversion H; reflexivity|].
  destruct (str_in "Inelastic" (creation_process p) || _ || _);
    [inversion H; apply Hd|].
  apply bind_Ok_inv in H as (c & _ & H).
  destruct (length c =? 0); [inversion H; apply Hd|].
  apply bind_Ok_inv in H as (ts & _ & H).
  apply bind_Ok_inv in H as (k & _ & H).
  apply bind_Ok_inv in H as (e & _ & H).
  destruct (negb (e =? gid)); inversion H; [apply Hd | reflexivity].
Qed.

(** The loop keeps the length of [group_ids], on every event. *)
Lemma resolve_group_ids_length (clusters : cluster_event)
    (particles_v : list particle) (resolved : list nat) :
  resolve_group_ids clusters particles_v = Ok resolved ->
  length resolved = length particles_v.
Proof.
  unfold resolve_group_ids. intros H.
  apply bind_Ok_inv in H as (st & Hloop & H). inversion H; subst resolved.
  assert (Hgen : forall gids st0 st1,
            group_loop clusters particles_v gids st0 = Ok st1 ->
            length (group_ids st1) = length (group_ids st0)).
  { induction gids as [|g gids IH]; intros st0 st1 Hl; simpl in Hl.
    - inversion Hl; reflexivity.
    - apply bind_Ok_inv in Hl as (st2 & Hs & Hl).
      apply IH in Hl. apply group_step_length in Hs. congruence. }
  apply Hgen in Hloop. simpl in Hloop. now rewrite length_map in Hloop.
Qed.

Lemma fill_step_checks (clusters : cluster_event) (particles_v : list particle)
    (gids : list nat) (acc acc' : list (list coord) * list farray) (i : nat) :
  fill_step clusters particles_v gids acc i = Ok acc' ->
  nonempty_at clusters i = true ->
  exists p, nth_error particles_v i = Some p /\ id p = i /\ i < length gids.
Proof.
  unfold fill_step, nonempty_at. destruct acc as [cv cf]. intros H Hne.
  apply bind_Ok_inv in H as (c & Hc & H).
  apply getitem_Ok in Hc. rewrite (nth_error_nth _ _ [] Hc) in Hne.
  rewrite Hne in H.
  apply bind_Ok_inv in H as (p & Hp & H).
  destruct (Nat.eqb_spec i (id p)) as [E|E]; simpl in H; [|discriminate].
  apply bind_Ok_inv in H as (g & Hg & _).
  exists p. apply getitem_Ok in Hp, Hg. repeat split; auto.
  eapply nth_error_lt; eassumption.
Qed.

Lemma foldM_fill_checks (clusters : cluster_event) (particles_v : list particle)
    (gids : list nat) (l : list nat) (acc acc' : list (list coord) * list farray) :
  foldM (fill_step clusters particles_v gids) l acc = Ok acc' ->
  forall i, In i l -> nonempty_at clusters i = true ->
    exists p, nth_error particles_v i = Some p /\ id p = i /\ i < length gids.
Proof.
  revert acc. induction l as [|j l IH]; intros acc H i Hi Hne; [contradiction|].
  simpl in H. apply bind_Ok_inv in H as (acc1 & H1 & H).
  destruct Hi as [->|Hi]; [eapply fill_step_checks | eapply IH]; eassumption.
Qed.

Lemma fill_step_block (clusters : cluster_event) (particles_v : list particle)
    (gids : list nat) (acc : list (list coord) * list farray) (i : nat) :
  i < length clusters ->
  (nonempty_at clusters i = true ->
   exists p, nth_error particles_v i = Some p /\ id p = i /\ i < length gids) ->
  fill_step clusters particles_v gids acc i
  = Ok (if nonempty_at clusters i
        then (fst acc ++ [map vcoord (nth i clusters [])],
              snd acc ++ [map (fun c => c i) (full_columns clusters particles_v gids)])
        else acc).
Proof.
  intros Hi Hchk. unfold fill_step. destruct acc as [cv cf].
  rewrite (getitem_nth clusters i []) by assumption. cbn [bind].
  unfold nonempty_at in *. destruct (0 <? length (nth i clusters [])); [|reflexivity].
  destruct (Hchk eq_refl) as (p & Hp & Hid & Hg).
  unfold getitem at 1. rewrite Hp. cbn [bind].
  rewrite Hid, Nat.eqb_refl. cbn [negb].
  rewrite (getitem_nth gids i 0) by assumption. cbn [bind fst snd map full_columns].
  unfold shape_feature. rewrite Hp. reflexivity.
Qed.

(** When [parse_cluster3d_full] returns, and what. *)
Lemma parse_cluster3d_full_iff (clusters : cluster_event)
    (particles_v : list particle) (np_voxels : list coord) (np_features : farray) :
  parse_cluster3d_full (clusters, particles_v) = Ok (np_voxels, np_features) <->
  exists resolved,
    resolve_group_ids clusters particles_v = Ok resolved /\
    ids_match clusters particles_v /\
    some_voxel clusters /\
    np_voxels = map vcoord (all_voxels clusters) /\
    np_features
    = [map vvalue (all_voxels clusters);
       per_cluster clusters Qnat;
       per_cluster clusters (fun i => Qnat (nth i resolved 0));
       per_cluster clusters (shape_feature particles_v)].
Proof.
  assert (Hrun : forall resolved,
    (forall i, In i (seq 0 (length clusters)) -> nonempty_at clusters i = true ->
       exists p, nth_error particles_v i = Some p /\ id p = i /\ i < length resolved) ->
    (cf <- foldM (fill_step clusters particles_v resolved)
             (seq 0 (length clusters)) ([], []) ;;
     (let '(clusters_voxels, clusters_features) := cf in
      v <- Np.concatenate clusters_voxels ;;
      f <- concatenate_rows clusters_features ;; Ok (v, f)))
    = if forallb (fun c => length c =? 0) clusters
      then Raise ValueError
      else Ok (map vcoord (all_voxels clusters),
               [map vvalue (all_voxels clusters);
                per_cluster clusters Qnat;
                per_cluster clusters (fun i => Qnat (nth i resolved 0));
                per_cluster clusters (shape_feature particles_v)])).
  { intros resolved Hchk.
    rewrite (foldM_blocks (fill_step clusters particles_v resolved)
               (nonempty_at clusters)
               (fun i => map vcoord (nth i clusters []))
               (fun i => map (fun c => c i)
                             (full_columns clusters particles_v resolved))).
    2:{ intros acc i Hi. apply fill_step_block.
        - apply in_seq in Hi. lia.
        - intros Hne. now apply Hchk. }
    cbn [fst snd app bind].
    destruct (forallb (fun c => length c =? 0) clusters) eqn:E.
    - apply forallb_empty, filter_nonempty_nil in E. rewrite E. reflexivity.
    - destruct (filter (nonempty_at clusters) (seq 0 (length clusters)))
        as [|i l] eqn:Ef.
      + apply filter_nonempty_nil, forallb_empty in Ef. congruence.
      + rewrite concatenate_flat, concatenate_rows_cols. cbn [bind].
        rewrite <- Ef. unfold full_columns. cbn [map].
        now rewrite !voxels_filter, !per_cluster_filter. }
  unfold parse_cluster3d_full. split.
  - intros H. apply bind_Ok_inv in H as (resolved & Hres & H).
    assert (Hchk : forall i, In i (seq 0 (length clusters)) ->
              nonempty_at clusters i = true ->
              exists p, nth_error particles_v i = Some p /\ id p = i /\
                        i < length resolved).
    { destruct (foldM (fill_step clusters particles_v resolved)
                  (seq 0 (length clusters)) ([], [])) as [acc|e] eqn:Ef;
        [|discriminate].
      intros i Hi Hne. eapply foldM_fill_checks; eassumption. }
    rewrite (Hrun resolved Hchk) in H.
    destruct (forallb (fun c => length c =? 0) clusters) eqn:E; [discriminate|].
    inversion H; subst. exists resolved.
    split; [assumption|]. split; [|split; [|split; reflexivity]].
    + intros i c Hc Hne.
      destruct (Hchk i) as (p & Hp & Hid & _).
      * apply in_seq. apply nth_error_lt in Hc. lia.
      * unfold nonempty_at. rewrite (nth_error_nth _ _ [] Hc).
        destruct c; [congruence | reflexivity].
      * eauto.
    + apply some_voxel_not_all_empty. intros Hall.
      apply forallb_empty in Hall. congruence.
  - intros (resolved & Hres & Hids & Hsome & -> & ->).
    rewrite Hres. cbn [bind]. rewrite Hrun.
    + destruct (forallb (fun c => length c =? 0) clusters) eqn:E; [|reflexivity].
      apply forallb_empty in E. apply some_voxel_not_all_empty in Hsome.
      contradiction.
    + intros i Hi Hne. apply in_seq in Hi.
      destruct (nth_error clusters i) as [c|] eqn:Ec.
      2:{ apply nth_error_None in Ec. lia. }
      destruct (Hids i c Ec) as (p & Hp & Hid).
      { unfold nonempty_at in Hne. rewrite (nth_error_nth _ _ [] Ec) in Hne.
        destruct c; [discriminate | discriminate]. }
      exists p. repeat split; auto.
      rewrite (resolve_group_ids_length _ _ _ Hres).
      eapply nth_error_lt; eassumption.
Qed.

(** X4.  [parse_cluster3d_full] returns exactly when the group loop
    returns, every non-empty cluster has a particle of its index whose id
    is that index, and some cluster holds a voxel.  It then returns every
    voxel of every cluster, in cluster order, with the columns value,
    cluster index, resolved group id of the particle of that index, and
    shape of that particle. *)
Theorem parse_cluster3d_full_rows (clusters : cluster_event)
    (particles_v : list particle) (np_voxels : list coord) (np_features : farray) :
  parse_cluster3d_full (clusters, particles_v) = Ok (np_voxels, np_features) <->
  exists resolved,
    resolve_group_ids clusters particles_v = Ok resolved /\
    ids_match clusters particles_v /\
    some_voxel clusters /\
    np_voxels = map vcoord (all_voxels clusters) /\
    np_features
    = [map vvalue (all_voxels clusters);
       per_cluster clusters Qnat;
       per_cluster clusters (fun i => Qnat (nth i resolved 0));
       per_cluster clusters (shape_feature particles_v)].
Proof. apply parse_cluster3d_full_iff. Qed.

(** X5.  Whenever [parse_cluster3d_full] returns, [parse_cluster3d] on
    the same cluster event returns the same voxels and the first two of
    its four feature columns. *)
Theorem full_extends_parse_cluster3d (clusters : cluster_event)
    (particles_v : list particle) (np_voxels : list coord) (np_features : farray) :
  parse_cluster3d_full (clusters, particles_v) = Ok (np_voxels, np_features) ->
  exists value cluster_id group_id sem_type,
    np_features = [value; cluster_id; group_id; sem_type] /\
    parse_cluster3d [clusters] = Ok (np_voxels, [value; cluster_id]).
Proof.
  intros H. apply parse_cluster3d_full_iff in H
    as (resolved & _ & _ & Hsome & -> & ->).
  eexists _, _, _, _. split; [reflexivity|].
  rewrite parse_cluster3d_eq.
  destruct (forallb (fun c => length c =? 0) clusters) eqn:E; [|reflexivity].
  apply forallb_empty in E. apply some_voxel_not_all_empty in Hsome. contradiction.
Qed.

Lemma full_extends_parse_cluster3d_witness :
  exists value cluster_id group_id sem_type,
    [[1; 2; 3]; [0; 0; 2]; [0; 0; 2]; [1; 1; 1]]%Q
    = [value; cluster_id; group_id; sem_type] /\
    parse_cluster3d [fst gap_event]
    = Ok ([(0, 0, 0); (0, 0, 1); (5, 5, 5)]%Z, [value; cluster_id]).
Proof.
  apply (full_extends_parse_cluster3d (fst gap_event) (snd gap_event)
           [(0, 0, 0); (0, 0, 1); (5, 5, 5)]%Z
           [[1; 2; 3]; [0; 0; 2]; [0; 0; 2]; [1; 1; 1]]%Q).
  reflexivity.
Defined.
(** ** The neutrino flag *)

Lemma nat_of_Q_Qnat (n : nat) : nat_of_Q (Qnat n) = n.
Proof.
  unfold nat_of_Q, Qnat. rewrite Qfloor_Z. apply Nat2Z.id.
Qed.

Lemma per_cluster_map (clusters : cluster_event) (f : nat -> Q) (h : Q -> Q) :
  map h (per_cluster clusters f) = per_cluster clusters (fun i => h (f i)).
Proof.
  unfold per_cluster. induction (seq 0 (length clusters)) as [|i r IH]; simpl.
  - reflexivity.
  - rewrite map_app, IH. f_equal.
    induction (length (nth i clusters [])) as [|k IHk]; simpl; congruence.
Qed.

Lemma per_cluster_ext (clusters : cluster_event) (f g : nat -> Q) :
  (forall i, f i = g i) -> per_cluster clusters f = per_cluster clusters g.
Proof.
  intros H. unfold per_cluster.
  induction (seq 0 (length clusters)) as [|i r IH]; simpl;
    [reflexivity | now rewrite H, IH].
Qed.

Lemma existsb_zero (l : list nat) : existsb (Nat.eqb 0) l = true <-> In 0 l.
Proof.
  rewrite existsb_exists. split.
  - intros (x & Hx & E). apply Nat.eqb_eq in E. now subst.
  - intros H. exists 0. auto.
Qed.

(** C8.  Whenever [parse_cluster3d_full_extended2] returns on an event,
    the group ids of the event resolve, and the features are the five
    columns value, resolved group id, interaction id, semantic type and
    neutrino flag, one row per voxel of the cluster event in cluster
    order: a voxel of cluster [i] carries the resolved group id of
    particle [i] and the interaction id [interaction_id_of] gives that
    group.  The flag of a voxel is 1 when some particle of the event has
    resolved group id 0 and the voxel's interaction id is
    [interaction_id_of 0], and 0 otherwise; so all flags are 0 when no
    particle resolves to group 0. *)
Theorem nu_flag_marks_group0_interaction (interaction_id_of : nat -> Z)
    (data : cluster_event * list particle)
    (np_voxels : list coord) (np_features : farray) :
  parse_cluster3d_full_extended2 interaction_id_of data
  = Ok (np_voxels, np_features) ->
  exists resolved value groups inter sem nu,
    resolve_group_ids (fst data) (snd data) = Ok resolved /\
    np_voxels = map vcoord (all_voxels (fst data)) /\
    np_features = [value; groups; inter; sem; nu] /\
    value = map vvalue (all_voxels (fst data)) /\
    groups = per_cluster (fst data) (fun i => Qnat (nth i resolved 0)) /\
    inter = per_cluster (fst data)
              (fun i => inject_Z (interaction_id_of (nth i resolved 0))) /\
    sem = per_cluster (fst data) (shape_feature (snd data)) /\
    length nu = length np_voxels /\
    (forall i x, nth_error inter i = Some x ->
       (In 0 resolved /\ Qeq x (inject_Z (interaction_id_of 0)) ->
        nth_error nu i = Some 1%Q) /\
       (~ (In 0 resolved /\ Qeq x (inject_Z (interaction_id_of 0))) ->
        nth_error nu i = Some 0%Q)) /\
    (~ In 0 resolved -> forall i, i < length np_voxels -> nth_error nu i = Some 0%Q).
Proof.
  destruct data as [clusters particles_v].
  unfold parse_cluster3d_full_extended2. cbn [fst snd]. intros H.
  apply bind_Ok_inv in H as ([vox f0] & Hfull & H).
  pose proof (parse_cluster3d_full_shape _ _ _ Hfull) as Hshape.
  apply parse_cluster3d_full_iff in Hfull as (resolved & Hres & _ & _ & Evox & Ef0).
  apply shape4_inv in Hshape as (v & c & g & s & E4 & Hv & Hc & Hg & Hs).
  rewrite E4 in Ef0. injection Ef0 as Ev Ec Eg Es.
  subst f0.
  apply bind_Ok_inv in H as (inter & Hi & H).
  unfold get_interaction_id in Hi. cbn in Hi. inversion Hi as [Einter]; clear Hi.
  assert (Hinter : length inter = length vox)
    by (rewrite <- Einter, length_map; exact Hg).
  rewrite Hres in H. cbn [bind] in H.
  apply bind_Ok_inv in H as (nu_ids & Hnu & H).
  assert (Hset : forall nu_col, nu_ids = [nu_col] -> length nu_col = length vox ->
                 np_voxels = vox /\ np_features = [v; g; inter; s; nu_col]).
  { intros nu_col -> Hlen. revert H. cbn. unfold set_column, broadcast_to. cbn.
    rewrite Hv, Hg, Nat.eqb_refl. cbn.
    rewrite Hv, Hinter, Nat.eqb_refl. cbn.
    rewrite Hv, Hlen, Nat.eqb_refl. cbn. intros H. inversion H. auto. }
  clear H.
  assert (Einter' : inter = per_cluster clusters
            (fun i => inject_Z (interaction_id_of (nth i resolved 0)))).
  { rewrite <- Einter, Eg, per_cluster_map. apply per_cluster_ext.
    intros i. now rewrite nat_of_Q_Qnat. }
  unfold get_nu_id in Hnu.
  destruct (existsb (Nat.eqb 0) resolved) eqn:E0.
  - apply existsb_zero in E0.
    inversion Hnu as [Enu]; clear Hnu. symmetry in Enu.
    destruct (Hset _ Enu ltac:(rewrite length_map; exact Hinter)) as [-> ->].
    exists resolved. eexists v, g, inter, s, _.
    rewrite length_map.
    repeat match goal with |- _ /\ _ => split end;
      try reflexivity; try assumption.
    + intros i x H. split.
      * intros [_ Hx]. rewrite nth_error_map, H. cbn.
        apply Qeq_bool_iff in Hx. now rewrite Hx.
      * intros Hno. rewrite nth_error_map, H. cbn.
        destruct (Qeq_bool x (inject_Z (interaction_id_of 0))) eqn:E; [|reflexivity].
        exfalso. apply Hno. apply Qeq_bool_iff in E. auto.
    + intros Hno. contradiction.
  - assert (Hno0 : ~ In 0 resolved).
    { intros Hin. apply existsb_zero in Hin. congruence. }
    inversion Hnu as [Enu]; clear Hnu. symmetry in Enu.
    destruct (Hset _ Enu ltac:(rewrite length_map; exact Hinter)) as [-> ->].
    exists resolved. eexists v, g, inter, s, _.
    rewrite length_map.
    repeat match goal with |- _ /\ _ => split end;
      try reflexivity; try assumption.
    + intros i x H. split.
      * intros [Hin _]. contradiction.
      * intros _. rewrite nth_error_map, H. reflexivity.
    + intros _ i Hi. rewrite nth_error_map.
      destruct (nth_error inter i) eqn:E; [reflexivity|].
      apply nth_error_None in E. lia.
Qed.

(** Groups 0 and 1 share the interaction of group 0 and are flagged;
    group 2 is not. *)
Lemma nu_flag_marks_group0_interaction_witness :
  parse_cluster3d_full_extended2 (fun g => Z.of_nat (g / 2)) nu_event
  = Ok ([(0, 0, 0); (1, 0, 0); (2, 0, 0)]%Z,
        [[1; 1; 1]; [0; 1; 2]; [0; 0; 1]; [1; 1; 1]; [1; 1; 0]]%Q) /\
  exists resolved value groups inter sem nu,
    resolve_group_ids (fst nu_event) (snd nu_event) = Ok resolved /\
    [(0, 0, 0); (1, 0, 0); (2, 0, 0)]%Z = map vcoord (all_voxels (fst nu_event)) /\
    [[1; 1; 1]; [0; 1; 2]; [0; 0; 1]; [1; 1; 1]; [1; 1; 0]]%Q
    = [value; groups; inter; sem; nu] /\
    value = map vvalue (all_voxels (fst nu_event)) /\
    groups = per_cluster (fst nu_event) (fun i => Qnat (nth i resolved 0)) /\
    inter = per_cluster (fst nu_event)
              (fun i => inject_Z (Z.of_nat (nth i resolved 0 / 2))) /\
    sem = per_cluster (fst nu_event) (shape_feature (snd nu_event)) /\
    length nu = 3 /\
    (forall i x, nth_error inter i = Some x ->
       (In 0 resolved /\ Qeq x (inject_Z (Z.of_nat (0 / 2))) ->
        nth_error nu i = Some 1%Q) /\
       (~ (In 0 resolved /\ Qeq x (inject_Z (Z.of_nat (0 / 2)))) ->
        nth_error nu i = Some 0%Q)) /\
    (~ In 0 resolved -> forall i, i < 3 -> nth_error nu i = Some 0%Q).
Proof.
  split; [reflexivity|].
  apply (nu_flag_marks_group0_interaction (fun g => Z.of_nat (g / 2)) nu_event
           [(0, 0, 0); (1, 0, 0); (2, 0, 0)]%Z
           [[1; 1; 1]; [0; 1; 2]; [0; 0; 1]; [1; 1; 1]; [1; 1; 0]]%Q).
  reflexivity.
Defined.

(** ** [parse_sparse3d_scn] and [parse_sparse3d] *)

Lemma scn_loop_char (meta0 : nat) (data : list sparse_tensor) (output : list farray) :
  scn_loop meta0 data output
  = if forallb (fun t => meta0 =? meta t) data
    then Ok (output ++ map (fun t => [map vvalue (as_vector t)]) data)
    else Raise AssertionError.
Proof.
  revert output. induction data as [|t data IH]; intros output; simpl.
  - now rewrite app_nil_r.
  - destruct (meta0 =? meta t); simpl; [|reflexivity].
    rewrite IH. destruct (forallb _ data); [|reflexivity].
    now rewrite <- app_assoc.
Qed.

Lemma nrows_app (acc b : farray) : acc <> [] -> nrows (acc ++ b) = nrows acc.
Proof. destruct acc; [congruence | reflexivity]. Qed.

Lemma concatenate_cols_from_char (acc : farray) (data : list sparse_tensor) :
  acc <> [] ->
  concatenate_cols_from acc (map (fun t => [map vvalue (as_vector t)]) data)
  = if forallb (fun t => length (as_vector t) =? nrows acc) data
    then Ok (acc ++ map (fun t => map vvalue (as_vector t)) data)
    else Raise ValueError.
Proof.
  revert acc. induction data as [|t data IH]; intros acc Hacc; simpl.
  - now rewrite app_nil_r.
  - rewrite length_map, (Nat.eqb_sym (nrows acc)).
    destruct (length (as_vector t) =? nrows acc); simpl; [|reflexivity].
    rewrite IH by (destruct acc; [congruence | discriminate]).
    rewrite nrows_app by assumption.
    destruct (forallb _ data); [|reflexivity].
    now rewrite <- app_assoc.
Qed.

(** The result of [parse_sparse3d_scn], in closed form. *)
Lemma parse_sparse3d_scn_eq (data : list sparse_tensor) :
  parse_sparse3d_scn data
  = match data with
    | [] => Raise ValueError
    | t0 :: rest =>
        if forallb (fun t => meta t0 =? meta t) rest then
          if forallb (fun t => length (as_vector t) =? length (as_vector t0)) rest
          then Ok (map vcoord (as_vector t0),
                   map (fun t => map vvalue (as_vector t)) data)
          else Raise ValueError
        else Raise AssertionError
    end.
Proof.
  destruct data as [|t0 rest]; [reflexivity|].
  unfold parse_sparse3d_scn. rewrite scn_loop_char.
  destruct (forallb (fun t => meta t0 =? meta t) rest); [|reflexivity].
  cbn [bind app concatenate_cols].
  rewrite concatenate_cols_from_char by discriminate.
  cbn [nrows]. rewrite length_map.
  destruct (forallb _ rest); reflexivity.
Qed.

(** X6.  [parse_sparse3d_scn] raises [ValueError] on an empty list,
    [AssertionError] when the meta of some tensor differs from that of the
    first one, and [ValueError] when the metas agree but some tensor has
    another number of voxels than the first; otherwise it returns the
    coordinates of the first tensor and one column of values per tensor,
    in the order of the list. *)
Theorem parse_sparse3d_scn_char (data : list sparse_tensor) :
  parse_sparse3d_scn data
  = match data with
    | [] => Raise ValueError
    | t0 :: rest =>
        if forallb (fun t => meta t0 =? meta t) rest then
          if forallb (fun t => length (as_vector t) =? length (as_vector t0)) rest
          then Ok (map vcoord (as_vector t0),
                   map (fun t => map vvalue (as_vector t)) data)
          else Raise ValueError
        else Raise AssertionError
    end.
Proof. apply parse_sparse3d_scn_eq. Qed.

(** X7.  [parse_sparse3d] fails and returns as [parse_sparse3d_scn] does
    on the same list, and its array is the three coordinate columns of
    that result followed by its value columns. *)
Theorem parse_sparse3d_from_scn (data : list sparse_tensor) :
  parse_sparse3d data
  = ('(np_voxels, np_data) <- parse_sparse3d_scn data ;;
     Ok (coord_columns np_voxels ++ np_data)).
Proof.
  rewrite parse_sparse3d_scn_eq.
  destruct data as [|t0 rest]; [reflexivity|].
  unfold parse_sparse3d. rewrite scn_loop_char.
  destruct (forallb (fun t => meta t0 =? meta t) rest); [|reflexivity].
  cbn [bind app concatenate_cols concatenate_cols_from].
  assert (Hn : nrows (coord_columns (map vcoord (as_vector t0)))
               = length (as_vector t0)).
  { unfold coord_columns. cbn [nrows]. now rewrite !length_map. }
  rewrite Hn. cbn [nrows]. rewrite length_map, Nat.eqb_refl.
  rewrite concatenate_cols_from_char
    by (unfold coord_columns; discriminate).
  rewrite nrows_app, Hn by (unfold coord_columns; discriminate).
  destruct (forallb _ rest); [|reflexivity].
  cbn [bind map]. now rewrite <- app_assoc.
Qed.

(** ** [parse_cluster3d_fragment] *)

(** X8.  [parse_cluster3d_fragment] never returns: its call of
    [parse_cluster3d_full] passes a list of one element, whose second
    element the callee reads first, so every input ends in [IndexError]. *)
Theorem parse_cluster3d_fragment_raises (data : cluster_event * sparse_tensor) :
  parse_cluster3d_fragment data = Raise IndexError.
Proof. destruct data as [data0 data1]. reflexivity. Qed.

(** ** [parse_particle_graph] *)

Lemma graph_step_edge (particles : list particle_node) (edges : list (nat * nat))
    (c : nat) :
  c < length particles ->
  graph_step particles edges c = Ok (edges ++ edges_into particles c).
Proof.
  intros Hc. unfold graph_step, edges_into, edge_into.
  destruct (getitem_lt particles c Hc) as (p & -> & ->). cbn [bind].
  destruct (node_parent_id p =? node_id p); cbn [negb andb].
  - destruct (node_group_id p =? node_id p); cbn [negb];
      [now rewrite app_nil_r | reflexivity].
  - reflexivity.
Qed.

Lemma foldM_graph (particles : list particle_node) (l : list nat)
    (edges : list (nat * nat)) :
  (forall c, In c l -> c < length particles) ->
  foldM (graph_step particles) l edges
  = Ok (edges ++ flat_map (edges_into particles) l).
Proof.
  revert edges. induction l as [|c l IH]; intros edges H; simpl.
  - now rewrite app_nil_r.
  - rewrite graph_step_edge by (apply H; simpl; auto). cbn [bind].
    rewrite IH by (intros; apply H; simpl; auto).
    now rewrite <- app_assoc.
Qed.

Lemma edges_into_snd (particles : list particle_node) (c : nat) (e : nat * nat) :
  In e (edges_into particles c) -> snd e = c.
Proof.
  unfold edges_into, edge_into.
  destruct (nth_error particles c) as [p|]; [|contradiction].
  destruct (negb (node_parent_id p =? node_id p)).
  - intros [<-|[]]. reflexivity.
  - destruct (negb (node_group_id p =? node_id p)); [|contradiction].
    intros [<-|[]]. reflexivity.
Qed.

Lemma edges_into_length (particles : list particle_node) (c : nat) :
  length (edges_into particles c) <= 1.
Proof.
  unfold edges_into. destruct (edge_into particles c); simpl; lia.
Qed.

Lemma flat_map_edges_sorted (particles : list particle_node) (s n : nat) :
  StronglySorted lt (map snd (flat_map (edges_into particles) (seq s n))) /\
  Forall (fun c => s <= c < s + n)
         (map snd (flat_map (edges_into particles) (seq s n))) /\
  length (flat_map (edges_into particles) (seq s n)) <= n.
Proof.
  revert s. induction n as [|n IH]; intros s; simpl.
  - repeat split; [constructor | constructor | lia].
  - destruct (IH (S s)) as (Hs & Hb & Hl).
    rewrite map_app, length_app.
    pose proof (edges_into_length particles s) as Hl1.
    pose proof (edges_into_snd particles s) as Hsnd.
    destruct (edges_into particles s) as [|e [|]]; simpl in *; try lia.
    + repeat split; [assumption | | lia].
      eapply Forall_impl; [|exact Hb]. simpl. intros; lia.
    + rewrite (Hsnd e (or_introl eq_refl)).
      repeat split; [| | lia].
      * constructor; [assumption|].
        eapply Forall_impl; [|exact Hb]. simpl. intros; lia.
      * constructor; [lia|].
        eapply Forall_impl; [|exact Hb]. simpl. intros; lia.
Qed.

(** The edges of [parse_particle_graph]. *)
Lemma parse_particle_graph_eq (particles : list particle_node)
    (rest : list (list particle_node)) :
  exists edges,
    parse_particle_graph (particles :: rest) = Ok edges /\
    length edges <= length particles /\
    StronglySorted lt (map snd edges) /\
    forall a c,
      In (a, c) edges <->
      exists p, nth_error particles c = Some p /\
        ((node_parent_id p <> node_id p /\ a = node_parent_id p) \/
         (node_parent_id p = node_id p /\ node_group_id p <> node_id p /\
          a = node_group_id p)).
Proof.
  exists (flat_map (edges_into particles) (seq 0 (length particles))).
  split.
  - unfold parse_particle_graph. cbn [getitem nth_error bind].
    rewrite foldM_graph by (intros c Hc; apply in_seq in Hc; lia).
    reflexivity.
  - destruct (flat_map_edges_sorted particles 0 (length particles)) as (Hs & _ & Hl).
    split; [assumption|]. split; [assumption|].
    intros a c. rewrite in_flat_map. split.
    + intros (c' & Hc' & Hin).
      pose proof (edges_into_snd _ _ _ Hin) as E. simpl in E. subst c'.
      unfold edges_into, edge_into in Hin.
      destruct (nth_error particles c) as [p|]; [|contradiction].
      exists p. split; [reflexivity|].
      destruct (Nat.eqb_spec (node_parent_id p) (node_id p)) as [Ep|Ep]; simpl in Hin.
      * destruct (Nat.eqb_spec (node_group_id p) (node_id p)) as [Eg|Eg];
          simpl in Hin; [contradiction|].
        destruct Hin as [E|[]]. inversion E. right. auto.
      * destruct Hin as [E|[]]. inversion E. left. auto.
    + intros (p & Hp & Hcase). exists c. split.
      * apply in_seq. apply nth_error_lt in Hp. lia.
      * unfold edges_into, edge_into. rewrite Hp.
        destruct Hcase as [(Hne & ->)|(He & Hne & ->)].
        -- apply Nat.eqb_neq in Hne. rewrite Hne. simpl. auto.
        -- apply Nat.eqb_eq in He. apply Nat.eqb_neq in Hne.
           rewrite He, Hne. simpl. auto.
Qed.

(** X9.  [parse_particle_graph] reads the first element of [data] and
    never raises.  Cluster [c] receives the edge [(parent_id, c)] when its
    particle is not its own parent, the edge [(group_id, c)] when it is
    its own parent but not its own group, and no edge otherwise; so the
    edges come in increasing order of the child, every cluster has at most
    one incoming edge, and there are at most as many edges as particles. *)
Theorem parse_particle_graph_edges (particles : list particle_node)
    (rest : list (list particle_node)) :
  exists edges,
    parse_particle_graph (particles :: rest) = Ok edges /\
    length edges <= length particles /\
    StronglySorted lt (map snd edges) /\
    forall a c,
      In (a, c) edges <->
      exists p, nth_error particles c = Some p /\
        ((node_parent_id p <> node_id p /\ a = node_parent_id p) \/
         (node_parent_id p = node_id p /\ node_group_id p <> node_id p /\
          a = node_group_id p)).
Proof. apply parse_particle_graph_eq. Qed.

(** X10.  When every particle's id is its index in the list, no edge of
    [parse_particle_graph] joins a cluster to itself. *)
Theorem parse_particle_graph_no_loop (particles : list particle_node)
    (rest : list (list particle_node)) (edges : list (nat * nat)) :
  (forall c p, nth_error particles c = Some p -> node_id p = c) ->
  parse_particle_graph (particles :: rest) = Ok edges ->
  forall a c, In (a, c) edges -> a <> c.
Proof.
  intros Hdense Hparse a c Hin.
  destruct (parse_particle_graph_eq particles rest) as (edges' & He & _ & _ & Hchar).
  rewrite Hparse in He. inversion He; subst edges'.
  apply Hchar in Hin as (p & Hp & Hcase).
  rewrite <- (Hdense c p Hp).
  destruct Hcase as [(Hne & ->)|(_ & Hne & ->)]; assumption.
Qed.

Lemma parse_particle_graph_no_loop_witness :
  parse_particle_graph [family] = Ok [(0, 1); (0, 2); (1, 3); (0, 4)] /\
  forall a c, In (a, c) [(0, 1); (0, 2); (1, 3); (0, 4)] -> a <> c.
Proof.
  split; [reflexivity|].
  apply (parse_particle_graph_no_loop family [] [(0, 1); (0, 2); (1, 3); (0, 4)]).
  - intros c p H.
    do 5 (destruct c as [|c]; [inversion H; reflexivity|]).
    destruct c; discriminate.
  - reflexivity.
Defined.

(** ** More on [parse_sparse3d_fragment] *)

(** X11.  On one tensor, [parse_sparse3d_fragment] returns the coordinate
    [c] with the value [v] exactly when the first voxel of the input at
    [c] holds [v] and [v] is below 4: a coordinate is dropped if and only
    if its first voxel holds 4 or more. *)
Theorem sparse3d_fragment_keeps_exactly (t : sparse_tensor) :
  exists img_voxels img_values,
    parse_sparse3d_fragment [t] = Ok (img_voxels, [img_values]) /\
    forall c v,
      (exists i, nth_error img_voxels i = Some c /\ nth_error img_values i = Some v)
      <-> first_at c (as_vector t) = Some (mkVoxel c v) /\ (v < 4)%Q.
Proof.
  exists (map vcoord (fragment_rows t)), (map vvalue (fragment_rows t)).
  split; [apply parse_sparse3d_fragment_char|].
  intros c v. rewrite in_rows_columns.
  destruct (fragment_rows_facts t) as (_ & _ & Hin).
  rewrite Hin. simpl. now rewrite Qltb_lt.
Qed.

Section SortedAgain.

Context {A : Type} (leb : A -> A -> bool).

(** Sorting a sorted list leaves it as it is. *)
Lemma stable_sort_sorted_id (l : list A) :
  StronglySorted (fun a b => leb a b = true) l -> stable_sort leb l = l.
Proof.
  induction 1 as [|x r Hs IH Hall]; simpl; [reflexivity|].
  rewrite IH. destruct r as [|y r']; simpl; [reflexivity|].
  inversion Hall as [|? ? Hxy _]; subst. now rewrite Hxy.
Qed.

(** Two sorted arrangements of a list are equal when the order separates
    the elements of the list. *)
Lemma sorted_perm_eq_in (l m : list A) :
  (forall a b, In a l -> In b l -> leb a b = true -> leb b a = true -> a = b) ->
  StronglySorted (fun a b => leb a b = true) l ->
  StronglySorted (fun a b => leb a b = true) m ->
  Permutation l m -> l = m.
Proof.
  intros Hanti Hl. revert m Hanti.
  induction Hl as [|a l Hl IH Ha]; intros m Hanti Hm Hp.
  - apply Permutation_nil in Hp. now subst.
  - destruct Hm as [|b m Hm Hb].
    + symmetry in Hp. apply Permutation_nil in Hp. discriminate.
    + assert (Hin : In a (b :: m)) by (eapply Permutation_in; [exact Hp | simpl; auto]).
      assert (Hin' : In b (a :: l))
        by (eapply Permutation_in; [symmetry; exact Hp | simpl; auto]).
      assert (a = b).
      { rewrite Forall_forall in Ha, Hb.
        destruct Hin as [E|Hi]; [auto|].
        destruct Hin' as [E|Hi']; [auto|].
        apply Hanti; simpl; auto. }
      subst b. f_equal. apply IH.
      * intros x y Hx Hy. apply Hanti; simpl; auto.
      * assumption.
      * eapply Permutation_cons_inv; eassumption.
Qed.

End SortedAgain.

Lemma run_firsts_all (prev : option coord) (l : list voxel) :
  NoDup (map vcoord l) ->
  (forall p, prev = Some p -> ~ In p (map vcoord l)) ->
  run_firsts prev l = l.
Proof.
  revert prev. induction l as [|x r IH]; intros prev Hnd Hprev; [reflexivity|].
  simpl in Hnd. apply NoDup_cons_iff in Hnd as [Hnin Hnd].
  assert (Hr : run_firsts (Some (vcoord x)) r = r).
  { apply IH; [assumption|]. intros p Hp. inversion Hp; subst. assumption. }
  destruct prev as [p|]; simpl; [|now rewrite Hr].
  destruct (coord_eqb p (vcoord x)) eqn:E; [|now rewrite Hr].
  apply coord_eqb_eq in E. exfalso. apply (Hprev p eq_refl). simpl. auto.
Qed.

Lemma filter_all {A : Type} (p : A -> bool) (l : list A) :
  (forall x, In x l -> p x = true) -> filter p l = l.
Proof.
  induction l as [|x r IH]; intros H; simpl; [reflexivity|].
  rewrite (H x (or_introl eq_refl)), IH by (intros; apply H; simpl; auto).
  reflexivity.
Qed.

(** The rows of a result are their own result. *)
Lemma fragment_rows_fixed (t : sparse_tensor) (m : nat) :
  fragment_rows (mkTensor m (fragment_rows t)) = fragment_rows t.
Proof.
  destruct (fragment_rows_facts t) as (Hs & Hnd & Hin).
  set (rows := fragment_rows t) in *.
  unfold fragment_rows at 1. cbn [as_vector].
  rewrite (stable_sort_sorted_id (by_coord lexsort_leb) rows) by exact Hs.
  set (R := stable_sort (by_coord row_leb) rows).
  assert (Hperm : Permutation R rows) by apply stable_sort_perm.
  assert (HndR : NoDup (map vcoord R)).
  { eapply Permutation_NoDup; [|exact Hnd]. apply Permutation_map. now symmetry. }
  rewrite run_firsts_all by (assumption || discriminate).
  rewrite filter_all.
  2:{ intros w Hw. apply (Permutation_in _ Hperm), Hin in Hw. apply Hw. }
  symmetry. apply (sorted_perm_eq_in (by_coord lexsort_leb)).
  - intros a b Ha Hb Hab Hba.
    apply (NoDup_map_inj vcoord rows); try assumption.
    apply lexsort_leb_antisym; assumption.
  - exact Hs.
  - apply sorted_by_coord; [apply lexsort_leb_total | apply lexsort_leb_trans].
  - etransitivity; [symmetry; exact Hperm|]. symmetry. apply stable_sort_perm.
Qed.

(** X12.  [parse_sparse3d_fragment] is idempotent: a tensor made of the
    rows it returned, under any meta, is returned unchanged. *)
Theorem sparse3d_fragment_idempotent (t : sparse_tensor) (m : nat) :
  exists img_voxels img_values,
    parse_sparse3d_fragment [t] = Ok (img_voxels, [img_values]) /\
    parse_sparse3d_fragment
      [mkTensor m (map (fun cv => mkVoxel (fst cv) (snd cv))
                       (combine img_voxels img_values))]
    = Ok (img_voxels, [img_values]).
Proof.
  exists (map vcoord (fragment_rows t)), (map vvalue (fragment_rows t)).
  split; [apply parse_sparse3d_fragment_char|].
  assert (E : map (fun cv => mkVoxel (fst cv) (snd cv))
                (combine (map vcoord (fragment_rows t))
                         (map vvalue (fragment_rows t)))
              = fragment_rows t).
  { induction (fragment_rows t) as [|[c v] r IH]; simpl; [reflexivity|].
    now rewrite IH. }
  rewrite E, parse_sparse3d_fragment_char, fragment_rows_fixed. reflexivity.
Qed.

(** ** More on the particle record *)

(** X13.  For a non-empty scores array [s], the [primary_scores] setter
    does not raise, stores [s], leaves [pid] alone and sets [is_primary]
    to [np.argmax(s)], a position of [s], whether or not [s[0]] is
    negative.  After [__init__] with non-empty score arrays, [is_primary]
    is the [is_primary] argument when all primary scores are negative and
    [np.argmax] of them otherwise. *)
Theorem primary_scores_setter_argmax (self : Particle.t) (s : list Q)
    (a : Particle.init_args) :
  s <> [] ->
  Particle.arg_pid_scores a <> [] ->
  Particle.arg_primary_scores a <> [] ->
  (exists k self',
     Np.argmax s = Ok k /\
     k < length s /\
     Particle.set_primary_scores self s = Ok self' /\
     Particle.is_primary self' = Particle.PyInt (Z.of_nat k) /\
     Particle._primary_scores self' = Some s /\
     Particle.pid self' = Particle.pid self) /\
  (exists k built,
     Np.argmax (Particle.arg_primary_scores a) = Ok k /\
     Particle.init a = Ok built /\
     Particle.is_primary built
     = if Particle.all_negative (Particle.arg_primary_scores a)
       then Particle.PyInt (Particle.arg_is_primary a)
       else Particle.PyInt (Z.of_nat k)).
Proof.
  intros Hs Hpid Hprim. split.
  - destruct s as [|s0 r]; [congruence|].
    destruct (argmax_spec (s0 :: r) Hs) as (k & Hk & Hlen & _).
    exists k. eexists. split; [exact Hk|]. split; [exact Hlen|].
    unfold Particle.set_primary_scores. rewrite Hk. cbn.
    split; [reflexivity|]. split; [reflexivity|]. split; [reflexivity|].
    destruct (Qltb s0 0); reflexivity.
  - destruct a as [gi fi ii ni vi mi st p ip ix dp ps prs]. cbn in *.
    destruct ps as [|s0 r]; [congruence|].
    destruct prs as [|t0 r']; [congruence|].
    destruct (argmax_spec _ Hpid) as (k & Hk & _).
    destruct (argmax_spec _ Hprim) as (k' & Hk' & _).
    exists k'. unfold Particle.init, Particle.set_pid_scores,
      Particle.set_primary_scores.
    cbn [Particle.arg_pid_scores Particle.arg_primary_scores].
    rewrite Hk, Hk'. cbn.
    eexists. split; [reflexivity|]. split; [reflexivity|].
    destruct (Qltb s0 0), (forallb (fun s1 => Qltb s1 0) r),
             (Qltb t0 0), (forallb (fun s1 => Qltb s1 0) r'); reflexivity.
Qed.

Lemma primary_scores_setter_argmax_witness :
  Particle.set_primary_scores blank_particle [-1; 1 # 2]%Q
  = Ok (Particle.with_is_primary
          (Particle.with_primary_scores blank_particle [-1; 1 # 2]%Q)
          (Particle.PyInt 1)) /\
  (exists k self',
     Np.argmax [-1; 1 # 2]%Q = Ok k /\
     k < 2 /\
     Particle.set_primary_scores blank_particle [-1; 1 # 2]%Q = Ok self' /\
     Particle.is_primary self' = Particle.PyInt (Z.of_nat k) /\
     Particle._primary_scores self' = Some [-1; 1 # 2]%Q /\
     Particle.pid self' = Particle.PyNone) /\
  (exists k built,
     Np.argmax (Particle.arg_primary_scores default_args) = Ok k /\
     Particle.init default_args = Ok built /\
     Particle.is_primary built = Particle.PyInt (-1)).
Proof.
  split; [reflexivity|].
  apply (primary_scores_setter_argmax blank_particle [-1; 1 # 2]%Q default_args);
    discriminate.
Defined.

(** X14.  [__init__] raises exactly when [pid_scores] or [primary_scores]
    is empty, and then with the [IndexError] of reading [scores[0]]. *)
Theorem init_raises_on_empty_scores (a : Particle.init_args) :
  (Particle.init a = Raise IndexError <->
   Particle.arg_pid_scores a = [] \/ Particle.arg_primary_scores a = []) /\
  ((exists self, Particle.init a = Ok self) <->
   Particle.arg_pid_scores a <> [] /\ Particle.arg_primary_scores a <> []).
Proof.
  destruct a as [gi fi ii ni vi mi st p ip ix dp ps prs]. cbn.
  destruct ps as [|s0 r].
  - split; split; try (intros; reflexivity); auto.
    + intros [self H]. discriminate.
    + intros [H _]. congruence.
  - destruct prs as [|t0 r'].
    + split; split; auto.
      * intros [self H]. unfold Particle.init, Particle.set_pid_scores in H.
        cbn in H. discriminate.
      * intros [_ H]. congruence.
    + split; split.
      * unfold Particle.init, Particle.set_pid_scores,
          Particle.set_primary_scores. cbn. discriminate.
      * intros [H|H]; discriminate.
      * intros _. split; discriminate.
      * intros _. unfold Particle.init, Particle.set_pid_scores,
          Particle.set_primary_scores. cbn. eexists. reflexivity.
Qed.

(** X15.  After construction, [size] is the length of the index array,
    [num_fragments] the length of the fragment ids, [index] and
    [depositions] return the arrays given; the [fragment_ids] property
    returns the index array, while the fragment ids given sit in
    [_fragment_ids]. *)
Theorem constructed_particle_fields (a : Particle.init_args) (self : Particle.t) :
  Particle.init a = Ok self ->
  Particle.size self = Particle.PyInt (Z.of_nat (length (Particle.arg_index a))) /\
  ParticleProperties.num_fragments self
  = Particle.PyInt (Z.of_nat (length (Particle.arg_fragment_ids a))) /\
  ParticleProperties.index self = Some (Particle.arg_index a) /\
  ParticleProperties.depositions self = Some (Particle.arg_depositions a) /\
  ParticleProperties.fragment_ids self = Some (Particle.arg_index a) /\
  Particle._fragment_ids self = Some (Particle.arg_fragment_ids a).
Proof.
  destruct a as [gi fi ii ni vi mi st p ip ix dp ps prs].
  unfold Particle.init. cbn [Particle.arg_group_id Particle.arg_fragment_ids
    Particle.arg_interaction_id Particle.arg_nu_id Particle.arg_volume_id
    Particle.arg_image_id Particle.arg_semantic_type Particle.arg_pid
    Particle.arg_is_primary Particle.arg_index Particle.arg_depositions
    Particle.arg_pid_scores Particle.arg_primary_scores].
  intros H.
  apply bind_Ok_inv in H as (s1 & H1 & H).
  apply bind_Ok_inv in H as (s2 & H2 & H).
  unfold Particle.set_pid_scores in H1.
  apply bind_Ok_inv in H1 as (x0 & _ & H1).
  apply bind_Ok_inv in H1 as (k & _ & H1).
  unfold Particle.set_primary_scores in H2.
  apply bind_Ok_inv in H2 as (y0 & _ & H2).
  apply bind_Ok_inv in H2 as (k' & _ & H2).
  inversion H; subst self. inversion H2; subst s2. inversion H1; subst s1.
  destruct (Particle.all_negative prs), (Particle.all_negative ps),
           (Qltb x0 0), (Qltb y0 0); repeat split.
Qed.

Lemma constructed_particle_fields_witness :
  exists self,
    Particle.init
      (Particle.mk_args 3 [7; 8; 9]%Z (-1) (-1) (-1) (-1) 1 (-1) (-1) [10; 11]%Z
         [1.5; 2]%Q [-1; -1; -1; -1; -1]%Q [-1; -1]%Q) = Ok self /\
    Particle.size self = Particle.PyInt 2 /\
    ParticleProperties.num_fragments self = Particle.PyInt 3 /\
    ParticleProperties.index self = Some [10; 11]%Z /\
    ParticleProperties.depositions self = Some [1.5; 2]%Q /\
    ParticleProperties.fragment_ids self = Some [10; 11]%Z /\
    Particle._fragment_ids self = Some [7; 8; 9]%Z.
Proof.
  eexists. split; [reflexivity|].
  apply (constructed_particle_fields
           (Particle.mk_args 3 [7; 8; 9]%Z (-1) (-1) (-1) (-1) 1 (-1) (-1) [10; 11]%Z
              [1.5; 2]%Q [-1; -1; -1; -1; -1]%Q [-1; -1]%Q)).
  reflexivity.
Defined.

(** X16.  Every setter keeps the derived counts in step with their
    arrays: once [_size] and [_num_fragments] are the lengths of [_index]
    and [_fragment_ids], they still are after any of the five setters. *)
Theorem setters_keep_derived_in_step (self : Particle.t) :
  derived_in_step self ->
  (forall ix, derived_in_step (Particle.set_index self ix)) /\
  (forall fr, derived_in_step (Particle.set_fragment_ids self fr)) /\
  (forall dp, derived_in_step (Particle.set_depositions self dp)) /\
  (forall s self', Particle.set_pid_scores self s = Ok self' ->
                   derived_in_step self') /\
  (forall s self', Particle.set_primary_scores self s = Ok self' ->
                   derived_in_step self').
Proof.
  intros (Hi & Hf). repeat split.
  all: try (cbn; intros x E; inversion E; reflexivity).
  all: try (cbn; assumption).
  - unfold Particle.set_pid_scores in H.
    apply bind_Ok_inv in H as (x0 & _ & H). apply bind_Ok_inv in H as (k & _ & H).
    inversion H. destruct (Qltb x0 0); cbn; assumption.
  - unfold Particle.set_pid_scores in H.
    apply bind_Ok_inv in H as (x0 & _ & H). apply bind_Ok_inv in H as (k & _ & H).
    inversion H. destruct (Qltb x0 0); cbn; assumption.
  - unfold Particle.set_primary_scores in H.
    apply bind_Ok_inv in H as (x0 & _ & H). apply bind_Ok_inv in H as (k & _ & H).
    inversion H. destruct (Qltb x0 0); cbn; assumption.
  - unfold Particle.set_primary_scores in H.
    apply bind_Ok_inv in H as (x0 & _ & H). apply bind_Ok_inv in H as (k & _ & H).
    inversion H. destruct (Qltb x0 0); cbn; assumption.
Qed.

Lemma setters_keep_derived_in_step_witness :
  (forall ix, derived_in_step
                (Particle.set_index (Particle.set_index blank_particle [4; 5; 6]%Z) ix)) /\
  (forall fr, derived_in_step
                (Particle.set_fragment_ids
                   (Particle.set_index blank_particle [4; 5; 6]%Z) fr)) /\
  (forall dp, derived_in_step
                (Particle.set_depositions
                   (Particle.set_index blank_particle [4; 5; 6]%Z) dp)) /\
  (forall s self',
     Particle.set_pid_scores (Particle.set_index blank_particle [4; 5; 6]%Z) s
     = Ok self' -> derived_in_step self') /\
  (forall s self',
     Particle.set_primary_scores (Particle.set_index blank_particle [4; 5; 6]%Z) s
     = Ok self' -> derived_in_step self').
Proof.
  apply (setters_keep_derived_in_step (Particle.set_index blank_particle [4; 5; 6]%Z)).
  unfold derived_in_step. cbn. repeat split.
  - intros ix E. inversion E. reflexivity.
  - intros fr E. discriminate.
Defined.

(** ** Exceptions of the group loop, on any event *)

Lemma group_step_outcome (clusters : cluster_event) (particles_v : list particle)
    (st : loop_state) (gid : nat) :
  length (group_ids st) = length particles_v ->
  (exists m, nth_error (group_ids st) m = Some gid) ->
  (length particles_v <= gid ->
   group_step clusters particles_v st gid = Raise IndexError) /\
  (group_step clusters particles_v st gid = Raise IndexError \/
   exists st',
     group_step clusters particles_v st gid = Ok st' /\
     length (group_ids st') = length particles_v /\
     forall g' m, g' <> gid -> nth_error (group_ids st) m = Some g' ->
                  nth_error (group_ids st') m = Some g').
Proof.
  intros Hlen (m0 & Hm0).
  destruct (nth_error particles_v gid) as [p|] eqn:Ep.
  2:{ assert (E : group_step clusters particles_v st gid = Raise IndexError).
      { unfold group_step, getitem. now rewrite Ep. }
      auto. }
  split.
  { intros Hge. apply nth_error_lt in Ep. lia. }
  enough (H : forall r, r = group_step clusters particles_v st gid ->
            r = Raise IndexError \/
            exists st', r = Ok st' /\
              length (group_ids st') = length particles_v /\
              forall g' m, g' <> gid -> nth_error (group_ids st) m = Some g' ->
                           nth_error (group_ids st') m = Some g')
    by (apply H; reflexivity).
  intros r Hr. unfold group_step in Hr.
  unfold getitem at 1 in Hr. rewrite Ep in Hr. cbn [bind] in Hr.
  assert (Hkeep : exists st', Ok st = Ok st' /\
            length (group_ids st') = length particles_v /\
            forall g' m, g' <> gid -> nth_error (group_ids st) m = Some g' ->
                         nth_error (group_ids st') m = Some g').
  { exists st. auto. }
  assert (Hdem : exists st',
            Ok (demote st (Np.where_eq (group_ids st) gid)) = Ok st' /\
            length (group_ids st') = length particles_v /\
            forall g' m, g' <> gid -> nth_error (group_ids st) m = Some g' ->
                         nth_error (group_ids st') m = Some g').
  { eexists. split; [reflexivity|]. unfold demote. cbn [group_ids].
    rewrite put_where_eq. split; [now rewrite length_map|].
    intros g' m Hne Hm. rewrite nth_error_map, Hm. cbn.
    apply Nat.eqb_neq in Hne. now rewrite Hne. }
  destruct (negb (shape p =? 0)%Z && negb (shape p =? 4)%Z);
    [subst r; right; exact Hkeep|].
  destruct (str_in "Inelastic" (creation_process p) || _ || _);
    [subst r; right; exact Hdem|].
  destruct (nth_error clusters gid) as [c|] eqn:Ec.
  2:{ unfold getitem at 1 in Hr. rewrite Ec in Hr. cbn in Hr. auto. }
  unfold getitem at 1 in Hr. rewrite Ec in Hr. cbn [bind] in Hr.
  destruct (length c =? 0); [subst r; right; exact Hdem|].
  set (idxs := Np.where_eq (group_ids st) gid) in *.
  rewrite clust_times_Ok in Hr.
  2:{ intros j Hj. apply where_eq_In, nth_error_lt in Hj. lia. }
  cbn [bind] in Hr.
  assert (Hne : map (time_of particles_v) idxs <> []).
  { apply where_eq_In in Hm0. fold idxs in Hm0.
    destruct idxs; [contradiction | discriminate]. }
  destruct (argmin_spec _ Hne) as (k & Hk & Hklen & _).
  rewrite Hk in Hr. cbn [bind] in Hr. rewrite length_map in Hklen.
  destruct (getitem_lt idxs k Hklen) as (e & He & _).
  rewrite He in Hr. cbn [bind] in Hr.
  destruct (negb (e =? gid)); subst r; right; assumption.
Qed.

Lemma group_loop_outcome (clusters : cluster_event) (particles_v : list particle)
    (todo : list nat) (st : loop_state) :
  NoDup todo ->
  length (group_ids st) = length particles_v ->
  (forall g, In g todo -> exists m, nth_error (group_ids st) m = Some g) ->
  (group_loop clusters particles_v todo st = Raise IndexError \/
   exists st', group_loop clusters particles_v todo st = Ok st') /\
  ((exists g, In g todo /\ length particles_v <= g) ->
   group_loop clusters particles_v todo st = Raise IndexError).
Proof.
  intros Hnd. revert st. induction Hnd as [|gid todo Hnin Hnd IH];
    intros st Hlen Hmem.
  - simpl. split; [right; eauto | intros (g & [] & _)].
  - simpl.
    destruct (group_step_outcome clusters particles_v st gid Hlen
                (Hmem gid (or_introl eq_refl))) as [Hbad [Hr|(st' & Hs & Hlen' & Hkeep)]].
    + rewrite Hr. cbn. auto.
    + rewrite Hs. cbn [bind].
      destruct (IH st' Hlen') as [Hout Hraise].
      { intros g Hg. destruct (Hmem g (or_intror Hg)) as (m & Hm).
        exists m. apply Hkeep; [|assumption]. intros ->. contradiction. }
      split; [assumption|].
      intros (g & [->|Hg] & Hge).
      * rewrite (Hbad Hge) in Hs. discriminate.
      * apply Hraise. eauto.
Qed.

Lemma resolve_group_ids_outcome (clusters : cluster_event)
    (particles_v : list particle) :
  (resolve_group_ids clusters particles_v = Raise IndexError \/
   exists resolved, resolve_group_ids clusters particles_v = Ok resolved) /\
  ((exists p, In p particles_v /\ length particles_v <= group_id p) ->
   resolve_group_ids clusters particles_v = Raise IndexError).
Proof.
  unfold resolve_group_ids.
  destruct (group_loop_outcome clusters particles_v
              (Np.unique (map group_id particles_v))
              {| group_ids := map group_id particles_v;
                 new_group := length clusters + 1 |}) as [Hout Hraise].
  - apply StronglySorted_lt_NoDup, unique_sorted.
  - simpl. apply length_map.
  - intros g Hg. apply (proj1 (unique_In _ _)) in Hg. cbn [group_ids].
    apply In_nth_error. exact Hg.
  - split.
    + destruct Hout as [-> | (st' & ->)]; cbn; eauto.
    + intros (p & Hp & Hge). rewrite Hraise; [reflexivity|].
      exists (group_id p). split; [|assumption].
      apply unique_In. now apply in_map.
Qed.

(** X17.  On any event the group loop raises nothing but [IndexError]:
    it returns the array of group ids or fails on an index. *)
Theorem group_loop_raises_only_IndexError (clusters : cluster_event)
    (particles_v : list particle) :
  resolve_group_ids clusters particles_v = Raise IndexError \/
  exists resolved, resolve_group_ids clusters particles_v = Ok resolved.
Proof. apply resolve_group_ids_outcome. Qed.

(** X18.  A particle that declares a group id which is not the index of
    a particle makes the loop, and with it [parse_cluster3d_full], raise
    [IndexError], whatever the clusters hold. *)
Theorem stray_group_id_raises (clusters : cluster_event)
    (particles_v : list particle) (p : particle) :
  In p particles_v -> length particles_v <= group_id p ->
  resolve_group_ids clusters particles_v = Raise IndexError /\
  parse_cluster3d_full (clusters, particles_v) = Raise IndexError.
Proof.
  intros Hp Hge.
  assert (H : resolve_group_ids clusters particles_v = Raise IndexError)
    by (apply resolve_group_ids_outcome; eauto).
  split; [assumption|]. unfold parse_cluster3d_full. now rewrite H.
Qed.

Lemma stray_group_id_raises_witness :
  resolve_group_ids (fst stray_group_event) (snd stray_group_event)
  = Raise IndexError /\
  parse_cluster3d_full stray_group_event = Raise IndexError.
Proof.
  apply (stray_group_id_raises (fst stray_group_event) (snd stray_group_event)
           (mkParticle 1 7 1 "primary" 0 0)).
  - simpl. auto.
  - simpl. lia.
Defined.
